(** * multi-cli: the Grok worker bridge, its stream adapter and its helpers

    A shallow embedding of
      - packages/core/src/providers/grokProvider.ts        (model resolution),
      - packages/core/src/providers/grokToolingSupport.ts  (reply fallbacks),
      - packages/core/src/providers/grokContentGenerator.ts (stream adapter),
      - packages/core/src/providers/grokSidecarClient.ts   (worker bridge),
    followed by the properties of the specification that concern them, and
    of what surrounds them:
      - packages/core/src/providers/googleGenaiProvider.ts and the provider
        registry                                   (which provider, which model),
      - packages/cli/src/ui/commands/agentCommand.ts       (the /agent command),
      - packages/cli/src/ui/utils/providerDisplay.ts, GeminiMessage.tsx and
        ConsoleSummaryDisplay.tsx                  (the name shown for a provider),
      - packages/cli/src/ui/hooks/useReactToolScheduler.ts (tool calls shown),
      - packages/core/src/tools/web-fetch.ts and
        packages/core/src/providers/googleToolingSupport.ts (addresses of a prompt),
      - packages/core/src/utils/paths.ts                   (paths shown).

    Conventions.  JavaScript values that the code receives as [unknown]
    (JSON payloads) are values of [Js.value].  Calls to [logGrokDebug] only
    append to a log file and are left out.  Asynchronous code is embedded as
    a deterministic transition function driven by a trace of actions; the
    scheduler's freedom is the freedom to choose the trace, so a statement
    quantified over traces holds for every interleaving.

    Outside the model: the contents of the debug log; listeners that throw;
    the ['error'] event of the child process itself and those of its
    output pipes (the ['error'] event of its standard input, which follows
    a write that failed, is modelled); what the host process does with an
    exception or a rejection nobody handles; the worker itself, which
    appears only through the lines it writes, the closing of its standard
    input and its exit. *)

From Stdlib Require Import ZArith List Bool Ascii String Lia.
From Stdlib Require Import DecimalString DecimalNat.
From stdpp Require Import gmap strings list fin_maps.

Open Scope string_scope.
Set Warnings "-register-all".

(* ===================================================================== *)
(** ** JavaScript values and the primitive operations the sources use     *)
(* ===================================================================== *)

Module Js.

(** A JSON-shaped JavaScript value.  Numbers are the integers; fractional
    numbers, NaN and the infinities do not occur in the messages modelled
    here.  An object is the list of its own properties, each key once. *)
Inductive value : Type :=
| VUndefined
| VNull
| VBool (b : bool)
| VNum (n : Z)
| VStr (s : string)
| VArr (items : list value)
| VObj (fields : list (string * value)).

(** [!!v] of JavaScript: everything is truthy but undefined, null, false,
    0 and the empty string. *)
Definition truthy (v : value) : bool :=
  match v with
  | VUndefined | VNull => false
  | VBool b => b
  | VNum n => negb (n =? 0)%Z
  | VStr s => negb (String.eqb s "")
  | VArr _ | VObj _ => true
  end.

(** [typeof v === 'string'] and [typeof v === 'object'] (null included). *)
Definition is_string (v : value) : bool :=
  match v with VStr _ => true | _ => false end.

Definition typeof_object (v : value) : bool :=
  match v with VNull | VArr _ | VObj _ => true | _ => false end.

Fixpoint assoc (k : string) (fields : list (string * value)) : value :=
  match fields with
  | [] => VUndefined
  | (k', v) :: rest => if String.eqb k k' then v else assoc k rest
  end.

(** [v[k]] for the property names the sources read ([event], [text],
    [message], ...): only an object has such a property.  Reading a
    property of undefined or null throws; [None] stands for that
    TypeError. *)
Definition get (v : value) (k : string) : option value :=
  match v with
  | VUndefined | VNull => None
  | VObj fields => Some (assoc k fields)
  | _ => Some VUndefined
  end.

(** [v?.[k]]: undefined instead of the TypeError. *)
Definition get_opt (v : value) (k : string) : value :=
  match get v k with Some x => x | None => VUndefined end.

(** [a ?? b]. *)
Definition nullish (a b : value) : value :=
  match a with VUndefined | VNull => b | _ => a end.

(** [a || b]. *)
Definition or_else (a b : value) : value :=
  if truthy a then a else b.

Definition join (sep : string) (parts : list string) : string :=
  match parts with
  | [] => ""
  | p :: ps => fold_left (fun acc q => acc ++ sep ++ q) ps p
  end.

(** [String(v)]. *)
Fixpoint to_String (v : value) : string :=
  match v with
  | VUndefined => "undefined"
  | VNull => "null"
  | VBool true => "true"
  | VBool false => "false"
  | VNum n => NilZero.string_of_int (Z.to_int n)
  | VStr s => s
  | VArr items =>
      join "," (List.map (fun x => match x with
                                   | VUndefined | VNull => ""
                                   | _ => to_String x
                                   end) items)
  | VObj _ => "[object Object]"
  end.

(** White space of [String.prototype.trim], restricted to the ASCII range
    (strings are byte strings here): TAB, LF, VT, FF, CR and SPACE. *)
Definition is_space (c : ascii) : bool :=
  let n := nat_of_ascii c in
  ((9 <=? n)%nat && (n <=? 13)%nat) || (n =? 32)%nat.

Fixpoint trim_start (s : string) : string :=
  match s with
  | EmptyString => EmptyString
  | String c rest => if is_space c then trim_start rest else s
  end.

(** Drops the trailing white space: a character is kept when something
    other than white space follows it or it is not white space itself. *)
Fixpoint trim_end (s : string) : string :=
  match s with
  | EmptyString => EmptyString
  | String c rest =>
      match trim_end rest with
      | EmptyString => if is_space c then EmptyString else String c EmptyString
      | kept => String c kept
      end
  end.

Definition trim (s : string) : string := trim_end (trim_start s).

(** [String.prototype.toLowerCase] on the ASCII letters. *)
Definition lower_char (c : ascii) : ascii :=
  let n := nat_of_ascii c in
  if ((65 <=? n)%nat && (n <=? 90)%nat)%bool then ascii_of_nat (n + 32) else c.

Fixpoint toLowerCase (s : string) : string :=
  match s with
  | EmptyString => EmptyString
  | String c rest => String (lower_char c) (toLowerCase rest)
  end.

(** [s.startsWith(p)]. *)
Definition startsWith (p s : string) : bool := String.prefix p s.

(** A string used as a condition: [if (s)]. *)
Definition nonempty (s : string) : bool := negb (String.eqb s "").

(** [typeof v === 'string' && v.trim()], the test shared by the helpers. *)
Definition nonblank_string (v : value) : bool :=
  match v with
  | VStr s => nonempty (trim s)
  | _ => false
  end.

End Js.

(* ===================================================================== *)
(** ** grokProvider.ts: which model identifier is in effect               *)
(* ===================================================================== *)

Module GrokProvider.

Definition DEFAULT_MODEL_ID : string := "grok-4-fast-reasoning".

Definition GROK_LEGACY_ALIASES : gset string :=
  {[ "grok-beta"; "grok 1.5"; "grok-1.5"; "grok1.5"; "grok_v1.5" ]}.

(** [normalizeModel(value?: string | null)]: [None] is undefined or null. *)
Definition normalizeModel (value : option string) : option string :=
  match value with
  | None => None
  | Some v =>
      let trimmed := Js.trim v in
      if negb (Js.nonempty trimmed) then None
      else
        let lower := Js.toLowerCase trimmed in
        if String.eqb lower "auto" then Some DEFAULT_MODEL_ID
        else if bool_decide (lower ∈ GROK_LEGACY_ALIASES) then Some DEFAULT_MODEL_ID
        else if negb (Js.startsWith "grok" lower) then None
        else Some trimmed
  end.

(** The part of [process.env] that the provider reads. *)
Record Env : Type := {
  GROK_MODEL : option string;
  GROK_MODEL_ID : option string;
}.

(** [process.env['GROK_MODEL'] ?? process.env['GROK_MODEL_ID']]: the right
    operand is used only when the left one is absent. *)
Definition getEnvModel (env : Env) : option string :=
  let envValue :=
    match GROK_MODEL env with
    | Some v => Some v
    | None => GROK_MODEL_ID env
    end in
  normalizeModel envValue.

(** [if (m) return m]: an absent or empty string falls through. *)
Definition usable (m : option string) : option string :=
  match m with
  | Some s => if Js.nonempty s then Some s else None
  | None => None
  end.

(** [resolveModel(config)]; [configModel] is what [config.getModel()]
    returned, [None] when there is no configuration or no such method. *)
Definition resolveModel (configModel : option string) (env : Env) : string :=
  match usable (normalizeModel configModel) with
  | Some m => m
  | None =>
      match usable (getEnvModel env) with
      | Some m => m
      | None => DEFAULT_MODEL_ID
      end
  end.

(** [getDefaultModelId()]. *)
Definition getDefaultModelId (env : Env) : string :=
  match getEnvModel env with
  | Some m => m
  | None => DEFAULT_MODEL_ID
  end.

Definition isModelSupported (modelId : string) : bool :=
  match normalizeModel (Some modelId) with Some _ => true | None => false end.

End GrokProvider.

(* ===================================================================== *)
(** ** grokToolingSupport.ts: what a helper returns for a worker reply     *)
(* ===================================================================== *)

(** Each helper awaits [ensureReady()] and one bridge call and then turns
    the reply into its result.  The functions below are those last steps:
    [response] is the value the bridge call resolved with ([VUndefined] when
    the worker's result carried no payload). *)
Module GrokToolingSupport.

(** The double quote, for the template [`Unable to search for "${query}".`]. *)
Definition dquote : string := String (ascii_of_nat 34) EmptyString.

(** [countOccurrences(haystack, needle)]: [haystack.split(needle).length - 1],
    the matches found from left to right without overlap; [skip] characters
    still belong to the match found last. *)
Fixpoint count_from (needle haystack : string) (skip : nat) : nat :=
  match haystack with
  | EmptyString => 0
  | String _ rest =>
      match skip with
      | S k => count_from needle rest k
      | O =>
          if String.prefix needle haystack
          then S (count_from needle rest (String.length needle - 1))
          else count_from needle rest 0
      end
  end.

Definition countOccurrences (haystack needle : string) : nat :=
  if negb (Js.nonempty needle) then 0 else count_from needle haystack 0.

(** [pickString(value, fallback)]. *)
Definition pickString (value : Js.value) (fallback : string) : string :=
  match value with
  | Js.VStr s => if Js.nonempty (Js.trim s) then s else fallback
  | _ => fallback
  end.

Record Fallback : Type := {
  fallbackContent : string;
  fallbackDisplay : string;
}.

(** [ToolResult], with [sources] of [WebSearchToolResult]; an absent
    optional field is [None]. *)
Record ToolResult : Type := {
  llmContent : string;
  returnDisplay : string;
  error : option string;
  sources : option Js.value;
}.

(** [toToolError(value)]: the message of the error object, if any. *)
Definition toToolError (value : Js.value) : option string :=
  if negb (Js.truthy value) then None
  else
    match value with
    | Js.VStr s => Some s
    | Js.VArr _ | Js.VObj _ =>
        match Js.get_opt value "message" with
        | Js.VStr m => Some m
        | _ => Some (Js.to_String value)
        end
    | _ => Some (Js.to_String value)
    end.

(** [toToolResult(payload, fallback)]. *)
Definition toToolResult (payload : Js.value) (fallback : Fallback) : ToolResult :=
  {| llmContent := pickString (Js.get_opt payload "llmContent") (fallbackContent fallback);
     returnDisplay := pickString (Js.get_opt payload "returnDisplay") (fallbackDisplay fallback);
     error := toToolError (Js.get_opt payload "error");
     sources := None |}.

(** [toWebToolResult(payload, fallback)]. *)
Definition toWebToolResult (payload : Js.value) (fallback : Fallback) : ToolResult :=
  let base := toToolResult payload fallback in
  match Js.get_opt payload "sources" with
  | Js.VUndefined => base
  | src =>
      {| llmContent := llmContent base; returnDisplay := returnDisplay base;
         error := error base; sources := Some src |}
  end.

(** [performWebSearch(query, _)] once the bridge replied with [payload]. *)
Definition performWebSearch (query : string) (payload : Js.value) : ToolResult :=
  toWebToolResult payload
    {| fallbackContent := "Unable to search for " ++ dquote ++ query ++ dquote ++ ".";
       fallbackDisplay := "Web search failed." |}.

(** [performWebFetch(prompt, _)] once the bridge replied with [payload]. *)
Definition performWebFetch (prompt : string) (payload : Js.value) : ToolResult :=
  toToolResult payload
    {| fallbackContent :=
         "Web fetch is unavailable for the Grok provider. Please try again later.";
       fallbackDisplay := "Unable to fetch external content." |}.

(** [ensureCorrectFileContent(content, _)] once the bridge replied. *)
Definition ensureCorrectFileContent (content : string) (response : Js.value) : string :=
  match Js.get_opt response "content" with
  | Js.VStr cleaned => if (0 <? String.length cleaned)%nat then cleaned else content
  | _ => content
  end.

(** [summarizeText(request)] once the bridge replied; [text] is
    [request.text]. *)
Definition summarizeText (text : string) (response : Js.value) : string :=
  match Js.get_opt response "summary" with
  | Js.VStr summary => if Js.nonempty (Js.trim summary) then summary else text
  | _ => text
  end.

Record SearchReplaceEdit : Type := {
  search : string;
  replace : string;
  noChangesRequired : bool;
  explanation : string;
}.

(** [toSearchReplaceEdit(response, fallback)]; [oldString] and [newString]
    are the caller's [request.oldString] and [request.newString]. *)
Definition toSearchReplaceEdit (response : Js.value) (oldString newString : string)
  : SearchReplaceEdit :=
  {| search := pickString (Js.get_opt response "search") oldString;
     replace := pickString (Js.get_opt response "replace") newString;
     noChangesRequired := Js.truthy (Js.get_opt response "noChangesRequired");
     explanation := pickString (Js.get_opt response "explanation")
                      "Edit parameters adjusted by Grok tooling support." |}.

(** [resolveOccurrences]: a numeric [occurrences] of the reply, else the
    count in the current content. *)
Definition resolveOccurrences (currentContent originalOldString : string)
    (response : Js.value) : Z :=
  match (if Js.truthy response then Js.get_opt response "occurrences" else Js.VUndefined) with
  | Js.VNum n => n
  | _ => Z.of_nat (countOccurrences currentContent originalOldString)
  end.

(** [{...original, ...params}]: the keys of [original] keep their place and
    take the value [params] gives them; the new keys of [params] follow. *)
Definition spread (original params : list (string * Js.value)) : list (string * Js.value) :=
  let has (k : string) (l : list (string * Js.value)) :=
    existsb (fun kv => String.eqb k (fst kv)) l in
  List.map (fun kv => if has (fst kv) params then (fst kv, Js.assoc (fst kv) params) else kv)
           original
  ++ List.filter (fun kv => negb (has (fst kv) original)) params.

(** [resolveParams(response, original)]. *)
Definition resolveParams (response : Js.value) (original : list (string * Js.value))
  : list (string * Js.value) :=
  match Js.get_opt response "params" with
  | Js.VObj params =>
      if Js.is_string (Js.assoc "old_string" params)
         && Js.is_string (Js.assoc "new_string" params)
      then spread original params
      else original
  | _ => original
  end.

End GrokToolingSupport.

(* ===================================================================== *)
(** ** Errors, promises and emitter signals shared by bridge and adapter   *)
(* ===================================================================== *)

(** A JavaScript [Error]: its [name] and its [message]. *)
Record JsError : Type := {
  err_name : string;
  err_message : string;
}.

Definition mkError (message : string) : JsError :=
  {| err_name := "Error"; err_message := message |}.

(** [createAbortError()]. *)
Definition createAbortError : JsError :=
  {| err_name := "AbortError"; err_message := "The operation was aborted." |}.

(** The state of a promise. *)
Inductive PromiseState : Type :=
| Unsettled
| Fulfilled (v : Js.value)
| Rejected (e : JsError).

(** [resolve(v)] and [reject(e)] of a promise: only the first call counts. *)
Definition settle (p : PromiseState) (outcome : PromiseState) : PromiseState :=
  match p with
  | Unsettled => outcome
  | _ => p
  end.

Definition is_settled (p : PromiseState) : bool :=
  match p with Unsettled => false | _ => true end.

(** What a call's [EventEmitter] emits. *)
Inductive Signal : Type :=
| SigEvent (payload : Js.value)
| SigEnd
| SigError (e : JsError).

(* ===================================================================== *)
(** ** grokContentGenerator.ts: the stream generator                       *)
(* ===================================================================== *)

Module GrokContentGenerator.

(** The [text] of a part of the final response: [candidate.text ?? ''], or
    [JSON.stringify(candidate)], which is kept as the call it is. *)
Inductive PartText : Type :=
| PText (v : Js.value)
| PStringify (candidate : Js.value).

(** The [args] of a tool-call chunk: the raw [arguments] value, or, for a
    string, [JSON.parse] of it with the string itself as fallback, kept as
    the call it is. *)
Inductive ToolArgs : Type :=
| ArgsRaw (v : Js.value)
| ArgsParseOrSelf (rawArgs : string).

(** A [GenerateContentResponse] the generator yields.  The [functionCalls]
    field of a tool-call chunk repeats its [callId], [name] and [args]. *)
Inductive Chunk : Type :=
| TextChunk (text : string)
| ToolCallChunk (callId name : string) (args : ToolArgs)
| FinalChunk (parts : list PartText) (usageMetadata : Js.value).

Definition is_final (c : Chunk) : bool :=
  match c with FinalChunk _ _ => true | _ => false end.

(** What the generator throws: an error it was given, or a TypeError of
    the JavaScript runtime. *)
Inductive Thrown : Type :=
| ThrowError (e : JsError)
| ThrowTypeError.

(** One element of [content] in [toGenerateContentResponse]: kept when it
    is an object, and turned into a text part. *)
Definition toTextPart (part : Js.value) : option PartText :=
  if Js.typeof_object part && negb (match part with Js.VNull => true | _ => false end)
  then
    let ty := Js.get_opt part "type" in
    let text := Js.get_opt part "text" in
    if (match ty with Js.VStr t => String.eqb t "text" | _ => false end)
       || Js.is_string text
    then Some (PText (Js.nullish text (Js.VStr "")))
    else Some (PStringify part)
  else None.

(** [toGenerateContentResponse(response)]. *)
Definition toGenerateContentResponse (response : Js.value) : Chunk + Thrown :=
  match Js.get response "message" with
  | None => inr ThrowTypeError
  | Some message =>
      let content := Js.or_else (Js.get_opt message "content") (Js.VArr []) in
      match content with
      | Js.VArr items =>
          let textParts := omap toTextPart items in
          let textParts :=
            match textParts with
            | [] => [PText (Js.VStr "")]
            | _ => textParts
            end in
          inl (FinalChunk textParts (Js.get_opt response "usage"))
      | _ => inr ThrowTypeError
      end
  end.

(** One pass of the [while (true)] body for the payload taken from the
    queue: the chunk it yields, or [None] when the pass ends in [continue]. *)
Definition chunk_of (payload : Js.value) : option Chunk :=
  if negb (Js.truthy payload) then None
  else
    let eventType := Js.to_String (Js.nullish (Js.get_opt payload "event") (Js.VStr "")) in
    if String.eqb eventType "delta" then
      let text := Js.to_String (Js.nullish (Js.get_opt payload "text") (Js.VStr "")) in
      if negb (Js.nonempty text) then None else Some (TextChunk text)
    else if String.eqb eventType "toolCall" then
      let callId := Js.to_String (Js.nullish (Js.get_opt payload "callId") (Js.VStr "")) in
      let name := Js.to_String (Js.nullish (Js.get_opt payload "name") (Js.VStr "")) in
      let rawArgs := Js.get_opt payload "arguments" in
      Some (ToolCallChunk callId name
              (match rawArgs with
               | Js.VStr s => ArgsParseOrSelf s
               | _ => ArgsRaw rawArgs
               end))
    else None.

(** The passes of the loop while the queue is not empty: payloads are
    shifted until one yields a chunk. *)
Fixpoint drain (queue : list Js.value) : option Chunk * list Js.value :=
  match queue with
  | [] => (None, [])
  | payload :: rest =>
      match chunk_of payload with
      | Some c => (Some c, rest)
      | None => drain rest
      end
  end.

(** Where the generator is suspended. *)
Inductive Pc : Type :=
| Suspended                 (* not started, or at a [yield] of the loop *)
| AwaitNext                 (* at [await waitForNext()] *)
| AwaitResult               (* at [await resultPromise] *)
| AtFinalYield              (* at the [yield] of the final response *)
| Returned                  (* completed, [finally] done *)
| Threw (t : Thrown).       (* completed by a throw, [finally] done *)

(** The closure of [createStreamGenerator] and the generator it returns. *)
Record Gen : Type := {
  queue : list Js.value;
  ended : bool;
  pendingResolve : bool;            (* a resolver of [waitForNext] is stored *)
  errorFromStream : option JsError;
  listening : bool;                 (* the three handlers are registered *)
  resultPromise : PromiseState;
  pc : Pc;
  demand : nat;                     (* [next()] calls not answered yet *)
  outputs : list Chunk;             (* the chunks yielded, oldest first *)
}.

(** [createStreamGenerator(eventStream, resultPromise)] registers the
    handlers and returns the generator, not started. *)
Definition createStreamGenerator (p : PromiseState) : Gen :=
  {| queue := []; ended := false; pendingResolve := false;
     errorFromStream := None; listening := true; resultPromise := p;
     pc := Suspended; demand := 0; outputs := [] |}.

Definition set_queue (q : list Js.value) (g : Gen) : Gen :=
  {| queue := q; ended := ended g; pendingResolve := pendingResolve g;
     errorFromStream := errorFromStream g; listening := listening g;
     resultPromise := resultPromise g; pc := pc g; demand := demand g;
     outputs := outputs g |}.

Definition set_pc (c : Pc) (g : Gen) : Gen :=
  {| queue := queue g; ended := ended g; pendingResolve := pendingResolve g;
     errorFromStream := errorFromStream g; listening := listening g;
     resultPromise := resultPromise g; pc := c; demand := demand g;
     outputs := outputs g |}.

(** [onEvent], [onEnd] and [onError]; each stores its datum and calls the
    stored resolver, if any. *)
Definition onEvent (payload : Js.value) (g : Gen) : Gen :=
  {| queue := queue g ++ [payload]; ended := ended g; pendingResolve := false;
     errorFromStream := errorFromStream g; listening := listening g;
     resultPromise := resultPromise g; pc := pc g; demand := demand g;
     outputs := outputs g |}.

Definition onEnd (g : Gen) : Gen :=
  {| queue := queue g; ended := true; pendingResolve := false;
     errorFromStream := errorFromStream g; listening := listening g;
     resultPromise := resultPromise g; pc := pc g; demand := demand g;
     outputs := outputs g |}.

Definition onError (e : JsError) (g : Gen) : Gen :=
  {| queue := queue g; ended := true; pendingResolve := false;
     errorFromStream := Some e; listening := listening g;
     resultPromise := resultPromise g; pc := pc g; demand := demand g;
     outputs := outputs g |}.

(** [yield c]: the oldest [next()] is answered with [c]. *)
Definition yield (c : Chunk) (at_pc : Pc) (g : Gen) : Gen :=
  {| queue := queue g; ended := ended g; pendingResolve := pendingResolve g;
     errorFromStream := errorFromStream g; listening := listening g;
     resultPromise := resultPromise g; pc := at_pc; demand := demand g - 1;
     outputs := outputs g ++ [c] |}.

(** Leaving the [try]: [finally] removes the handlers; every [next()] still
    waiting is answered (with the throw or with [done]). *)
Definition finish (how : Pc) (g : Gen) : Gen :=
  {| queue := queue g; ended := ended g; pendingResolve := pendingResolve g;
     errorFromStream := errorFromStream g; listening := false;
     resultPromise := resultPromise g; pc := how; demand := 0;
     outputs := outputs g |}.

(** [await waitForNext()], reached with an empty queue: the promise is
    resolved at once when [ended], else its resolver is stored. *)
Definition await_next (g : Gen) : Gen :=
  {| queue := queue g; ended := ended g;
     pendingResolve := negb (negb (length (queue g) =? 0)%nat || ended g);
     errorFromStream := errorFromStream g; listening := listening g;
     resultPromise := resultPromise g; pc := AwaitNext; demand := demand g;
     outputs := outputs g |}.

(** From the point after the first [if (!queue.length) { ... }] block:
    [if (!queue.length) continue], else the passes over the queue. *)
Definition run_loop (g : Gen) : Gen :=
  match drain (queue g) with
  | (Some c, rest) => yield c Suspended (set_queue rest g)
  | (None, _) => await_next (set_queue [] g)
  end.

(** The generator's code from where it is suspended up to its next
    suspension.  Nothing happens when it cannot go on: no [next()] is
    waiting, or the promise it awaits is not settled. *)
Definition resume (g : Gen) : Gen :=
  match pc g with
  | Suspended =>
      if (demand g =? 0)%nat then g else run_loop g
  | AwaitNext =>
      if pendingResolve g then g
      else
        match errorFromStream g with
        | Some e => finish (Threw (ThrowError e)) g
        | None =>
            if (length (queue g) =? 0)%nat && ended g
            then set_pc AwaitResult g
            else run_loop g
        end
  | AwaitResult =>
      match resultPromise g with
      | Unsettled => g
      | Rejected e => finish (Threw (ThrowError e)) g
      | Fulfilled response =>
          match toGenerateContentResponse response with
          | inl c => yield c AtFinalYield g
          | inr t => finish (Threw t) g
          end
      end
  | AtFinalYield =>
      if (demand g =? 0)%nat then g else finish Returned g
  | Returned | Threw _ => g
  end.

(** What happens around the generator.  A request of the consumer and the
    run of the generator that answers it are two actions, so that signals
    may arrive between them; JavaScript runs them back to back when the
    generator is idle, which is the trace [Next; Resume]. *)
Inductive Action : Type :=
| Emit (s : Signal)           (* the event stream emits *)
| Settle (o : PromiseState)   (* the result promise is resolved or rejected *)
| Next                        (* the consumer calls [next()] *)
| Resume.                     (* the generator's continuation runs *)

Definition step (a : Action) (g : Gen) : Gen :=
  match a with
  | Emit s =>
      if listening g then
        match s with
        | SigEvent payload => onEvent payload g
        | SigEnd => onEnd g
        | SigError e => onError e g
        end
      else g
  | Settle o =>
      {| queue := queue g; ended := ended g; pendingResolve := pendingResolve g;
         errorFromStream := errorFromStream g; listening := listening g;
         resultPromise := settle (resultPromise g) o; pc := pc g;
         demand := demand g; outputs := outputs g |}
  | Next =>
      match pc g with
      | Returned | Threw _ => g
      | _ =>
          {| queue := queue g; ended := ended g; pendingResolve := pendingResolve g;
             errorFromStream := errorFromStream g; listening := listening g;
             resultPromise := resultPromise g; pc := pc g;
             demand := S (demand g); outputs := outputs g |}
      end
  | Resume => resume g
  end.

Definition run (trace : list Action) (g : Gen) : Gen :=
  fold_left (fun g a => step a g) trace g.

(** The signals and settlements of a trace, in order: what the worker
    stream delivered. *)
Definition is_input (a : Action) : bool :=
  match a with Emit _ | Settle _ => true | _ => false end.

Definition inputs (trace : list Action) : list Action := List.filter is_input trace.

(** The chunks a list of event payloads stands for. *)
Definition render (events : list Js.value) : list Chunk := omap chunk_of events.

Definition count_final (cs : list Chunk) : nat := length (List.filter is_final cs).

End GrokContentGenerator.

(* ===================================================================== *)
(** ** grokSidecarClient.ts: the worker bridge                             *)
(* ===================================================================== *)

Module GrokSidecarClient.

(** A request line written to a worker's standard input:
    [{ type: 'request', requestId, action, payload }]. *)
Record Request : Type := {
  req_id : string;
  req_action : string;
  req_payload : Js.value;
}.

(** A spawned worker process, as the bridge and the operating system see
    it. *)
Record Proc : Type := {
  killed : bool;               (* [child.killed]: [kill()] was called on it *)
  exit_seen : bool;            (* its ['exit'] listener ([once]) has run *)
  stdin_open : bool;           (* its standard input still takes data *)
  stdin_log : list Request;    (* the requests that reached it, oldest first *)
}.

(** One call of [callWithStream]: its identifier, its result promise and
    its emitter.  A [PendingRequest] object is identified with the index of
    its call. *)
Record CallRec : Type := {
  requestId : string;
  promise : PromiseState;
  emitted : list Signal;          (* what [stream.emit] delivered, oldest first *)
  error_listeners : nat;          (* listeners registered for ['error'] *)
  reacted : bool;                 (* the [then(...).catch(...)] job has run *)
  uncaught : option JsError;      (* thrown out of that job *)
}.

Record InitializePayload : Type := {
  apiKey : option string;
  api_key : option string;
  model : option string;
  pythonPath : option string;
}.

Definition opt_field (k : string) (v : option string) : list (string * Js.value) :=
  match v with Some s => [(k, Js.VStr s)] | None => [] end.

(** The payload as [JSON.stringify] writes it: absent fields are left out. *)
Definition init_value (p : InitializePayload) : Js.value :=
  Js.VObj (opt_field "apiKey" (apiKey p) ++ opt_field "api_key" (api_key p)
           ++ opt_field "model" (model p) ++ opt_field "pythonPath" (pythonPath p)).

(** An [async] method of the bridge that has been started. *)
Inductive TaskKind : Type := TInit | TShutdown.

Inductive Awaited : Type :=
| OnCall (h : nat)             (* the result promise of call [h] *)
| OnThrown (e : JsError).      (* [call] threw before any request was made *)

Inductive TaskState : Type :=
| Awaiting (w : Awaited)
| Done (outcome : PromiseState).

Record Task : Type := {
  kind : TaskKind;
  tstate : TaskState;
}.

(** The client object together with the objects it created. *)
Record Bridge : Type := {
  pythonExecutable : option string;
  child : option nat;              (* [this.child], an index into [procs] *)
  pending : gmap string nat;       (* [this.pending]: identifier to entry *)
  initialized : bool;
  procs : list Proc;               (* every process spawned so far *)
  calls : list CallRec;            (* every call made so far *)
  uuids : nat;                     (* how many identifiers were drawn *)
  tasks : list Task;               (* every async method started so far *)
  stdin_errors : list nat;         (* processes whose [stdin] has an ['error'] due *)
  host_uncaught : list (nat * JsError);
                                   (* ['error'] events emitted by the [stdin] of a
                                      process and thrown for want of a listener *)
}.

Definition create : Bridge :=
  {| pythonExecutable := None; child := None; pending := ∅; initialized := false;
     procs := []; calls := []; uuids := 0; tasks := [];
     stdin_errors := []; host_uncaught := [] |}.

Section Environment.

(** [randomUUID()]: the identifier returned by the [n]-th call. *)
Variable randomUUID : nat -> string.

(** [resolvePythonExecutable()]: the first candidate that answers
    [--version], or [None] when it throws for want of one. *)
Variable python : option string.

Definition no_python : JsError :=
  mkError "Unable to locate a Python runtime. Set GROK_PYTHON_BIN to a Python 3.10+ executable.".

(** [ensureProcess()]: the running child, or a new one. *)
Definition ensureProcess (b : Bridge) : (nat * Bridge) + JsError :=
  match child b with
  | Some pid => inl (pid, b)
  | None =>
      match (match pythonExecutable b with Some exe => Some exe | None => python end) with
      | None => inr no_python
      | Some exe =>
          let pid := length (procs b) in
          inl (pid,
               {| pythonExecutable := Some exe; child := Some pid;
                  pending := pending b; initialized := initialized b;
                  procs := procs b ++ [{| killed := false; exit_seen := false;
                                          stdin_open := true; stdin_log := [] |}];
                  calls := calls b; uuids := uuids b; tasks := tasks b;
     stdin_errors := stdin_errors b; host_uncaught := host_uncaught b |})
      end
  end.

(** What a write to its standard input does to a process: the line
    reaches it when its standard input is open and is lost otherwise. *)
Definition receive (r : Request) (p : Proc) : Proc :=
  if stdin_open p
  then {| killed := killed p; exit_seen := exit_seen p; stdin_open := true;
          stdin_log := stdin_log p ++ [r] |}
  else p.

(** Whether a write to the standard input of [pid] fails: the pipe no
    longer takes data. *)
Definition write_fails (pid : nat) (b : Bridge) : bool :=
  match procs b !! pid with
  | Some p => negb (stdin_open p)
  | None => false
  end.

(** Whether the standard input of [pid] has failed before: its ['error']
    is due or was emitted.  A stream emits ['error'] once. *)
Definition stdin_failed (pid : nat) (b : Bridge) : bool :=
  bool_decide (pid ∈ stdin_errors b) || bool_decide (pid ∈ (fst <$> host_uncaught b)).

(** [child.stdin.write(line)], called without a callback: it returns
    without throwing whether or not the pipe takes the line.  A write
    that fails is reported later, by an ['error'] event of [child.stdin]. *)
Definition stdin_write (r : Request) (pid : nat) (b : Bridge) : Bridge :=
  {| pythonExecutable := pythonExecutable b; child := child b; pending := pending b;
     initialized := initialized b;
     procs := alter (receive r) pid (procs b);
     calls := calls b; uuids := uuids b; tasks := tasks b;
     stdin_errors := if write_fails pid b && negb (stdin_failed pid b)
                     then stdin_errors b ++ [pid] else stdin_errors b;
     host_uncaught := host_uncaught b |}.

(** The error of a write to a pipe nobody reads. *)
Definition EPIPE : JsError := mkError "write EPIPE".

(** The ['error'] event of the standard input of [pid], when one is due.
    The bridge registers listeners for ['line'] of the reader of
    [child.stdout], for ['data'] of [child.stderr] and for ['exit'] of the
    child, and none for ['error'] of [child.stdin]: the emitter throws the
    error for want of a listener, out of the host's event loop. *)
Definition on_stdin_error (pid : nat) (b : Bridge) : Bridge :=
  if bool_decide (pid ∈ stdin_errors b)
  then {| pythonExecutable := pythonExecutable b; child := child b; pending := pending b;
          initialized := initialized b; procs := procs b; calls := calls b;
          uuids := uuids b; tasks := tasks b;
          stdin_errors := List.filter (fun q => negb (q =? pid)%nat) (stdin_errors b);
          host_uncaught := host_uncaught b ++ [(pid, EPIPE)] |}
  else b.

(** [callWithStream(action, payload)]: the index of the new call, or the
    error thrown at the caller. *)
Definition callWithStream (action : string) (payload : Js.value) (b : Bridge)
  : (nat * Bridge) + JsError :=
  match ensureProcess b with
  | inr e => inr e
  | inl (pid, b1) =>
      let id := randomUUID (uuids b1) in
      let h := length (calls b1) in
      inl (h,
           stdin_write {| req_id := id; req_action := action; req_payload := payload |} pid
             {| pythonExecutable := pythonExecutable b1; child := child b1;
                pending := <[id := h]> (pending b1);
                initialized := initialized b1;
                procs := procs b1;
                calls := calls b1 ++ [{| requestId := id; promise := Unsettled;
                                         emitted := []; error_listeners := 0;
                                         reacted := false; uncaught := None |}];
                uuids := S (uuids b1); tasks := tasks b1;
                stdin_errors := stdin_errors b1; host_uncaught := host_uncaught b1 |})
  end.

Definition set_calls (cs : list CallRec) (b : Bridge) : Bridge :=
  {| pythonExecutable := pythonExecutable b; child := child b; pending := pending b;
     initialized := initialized b; procs := procs b; calls := cs;
     uuids := uuids b; tasks := tasks b;
     stdin_errors := stdin_errors b; host_uncaught := host_uncaught b |}.

Definition set_pending (m : gmap string nat) (b : Bridge) : Bridge :=
  {| pythonExecutable := pythonExecutable b; child := child b; pending := m;
     initialized := initialized b; procs := procs b; calls := calls b;
     uuids := uuids b; tasks := tasks b;
     stdin_errors := stdin_errors b; host_uncaught := host_uncaught b |}.

Definition set_tasks (ts : list Task) (b : Bridge) : Bridge :=
  {| pythonExecutable := pythonExecutable b; child := child b; pending := pending b;
     initialized := initialized b; procs := procs b; calls := calls b;
     uuids := uuids b; tasks := ts;
     stdin_errors := stdin_errors b; host_uncaught := host_uncaught b |}.

Definition with_promise (f : PromiseState -> PromiseState) (c : CallRec) : CallRec :=
  {| requestId := requestId c; promise := f (promise c); emitted := emitted c;
     error_listeners := error_listeners c; reacted := reacted c;
     uncaught := uncaught c |}.

(** [entry.resolve(v)] and [entry.reject(e)]. *)
Definition resolve_call (v : Js.value) (c : CallRec) : CallRec :=
  with_promise (fun p => settle p (Fulfilled v)) c.

Definition reject_call (e : JsError) (c : CallRec) : CallRec :=
  with_promise (fun p => settle p (Rejected e)) c.

(** [stream.emit(s)] on a Node [EventEmitter]: when ['error'] is emitted
    and no listener is registered for it, [emit] throws the error instead
    ([inr]); every other emission is delivered to the listeners there are. *)
Definition emit (s : Signal) (c : CallRec) : CallRec + JsError :=
  match s with
  | SigError e =>
      if (error_listeners c =? 0)%nat then inr e
      else inl {| requestId := requestId c; promise := promise c;
                  emitted := emitted c ++ [s]; error_listeners := error_listeners c;
                  reacted := reacted c; uncaught := uncaught c |}
  | _ => inl {| requestId := requestId c; promise := promise c;
                emitted := emitted c ++ [s]; error_listeners := error_listeners c;
                reacted := reacted c; uncaught := uncaught c |}
  end.

(** [stream.emit('event', payload)]; no error is thrown for this kind. *)
Definition emit_event (payload : Js.value) (c : CallRec) : CallRec :=
  match emit (SigEvent payload) c with
  | inl c' => c'
  | inr _ => c
  end.

(** [this.pending.forEach(({ reject }) => reject(reason))]: every call that
    has an entry in the map is rejected. *)
Definition reject_all (reason : JsError) (m : gmap string nat) (cs : list CallRec)
  : list CallRec :=
  imap (fun h c => if bool_decide (h ∈ (map_img m : gset nat)) then reject_call reason c else c) cs.

(** [dispose()].  [kill('SIGTERM')] is taken to deliver the signal, which
    sets [child.killed]. *)
Definition dispose (b : Bridge) : Bridge :=
  {| pythonExecutable := pythonExecutable b;
     child := None;
     pending := ∅;
     initialized := false;
     procs :=
       match child b with
       | Some pid =>
           alter (fun p => {| killed := true; exit_seen := exit_seen p;
                              stdin_open := stdin_open p; stdin_log := stdin_log p |})
                 pid (procs b)
       | None => procs b
       end;
     calls := reject_all (mkError "Sidecar process terminated") (pending b) (calls b);
     uuids := uuids b; tasks := tasks b;
     stdin_errors := stdin_errors b; host_uncaught := host_uncaught b |}.

(** The reason built by the ['exit'] listener. *)
Definition exit_reason (code : option Z) (signal : option string) : JsError :=
  match signal with
  | Some sig => mkError ("Sidecar exited due to signal " ++ sig)
  | None =>
      mkError ("Sidecar exited with code "
               ++ match code with
                  | Some n => Js.to_String (Js.VNum n)
                  | None => "null"
                  end)
  end.

(** The ['exit'] listener of process [pid]; [once] lets it run one time. *)
Definition on_exit (pid : nat) (code : option Z) (signal : option string) (b : Bridge)
  : Bridge :=
  match procs b !! pid with
  | Some p =>
      if exit_seen p then b
      else
        {| pythonExecutable := pythonExecutable b;
           child := None;
           pending := ∅;
           initialized := false;
           procs := <[pid := {| killed := killed p; exit_seen := true;
                                stdin_open := false; stdin_log := stdin_log p |}]> (procs b);
           calls := reject_all (exit_reason code signal) (pending b) (calls b);
           uuids := uuids b; tasks := tasks b;
     stdin_errors := stdin_errors b; host_uncaught := host_uncaught b |}
  | None => b
  end.

(** The [cancel] closure of call [h]. *)
Definition cancel (h : nat) (b : Bridge) : Bridge :=
  match calls b !! h with
  | Some c =>
      if bool_decide (pending b !! requestId c = Some h)
      then set_calls (alter (reject_call createAbortError) h (calls b))
             (set_pending (delete (requestId c) (pending b)) b)
      else b
  | None => b
  end.

(** [isSidecarMessage(message)]. *)
Definition isSidecarMessage (message : Js.value) : bool :=
  Js.truthy message && Js.typeof_object message && Js.is_string (Js.get_opt message "type").

(** [requestId ? this.pending.get(requestId) : undefined]: only a non-empty
    string can be a key of the map. *)
Definition lookup_pending (rid : Js.value) (b : Bridge) : option (string * nat) :=
  match rid with
  | Js.VStr s => if Js.nonempty s then (fun h => (s, h)) <$> pending b !! s else None
  | _ => None
  end.

(** [handleLine(line)]; [parsed] is what [JSON.parse(line)] returned, [None]
    when it threw. *)
Definition handleLine (parsed : option Js.value) (b : Bridge) : Bridge :=
  match parsed with
  | None => b
  | Some message =>
      if negb (isSidecarMessage message) then b
      else
        let found := lookup_pending (Js.get_opt message "requestId") b in
        match Js.get_opt message "type" with
        | Js.VStr "event" =>
            match found with
            | Some (_, h) =>
                set_calls (alter (emit_event (Js.get_opt message "payload")) h (calls b)) b
            | None => b
            end
        | Js.VStr "result" =>
            match found with
            | Some (id, h) =>
                set_calls (alter (resolve_call (Js.get_opt message "payload")) h (calls b))
                  (set_pending (delete id (pending b)) b)
            | None => b
            end
        | Js.VStr "error" =>
            match found with
            | Some (id, h) =>
                let text :=
                  Js.to_String
                    (Js.or_else (Js.get_opt (Js.get_opt message "error") "message")
                                (Js.VStr "Unknown sidecar error")) in
                set_calls (alter (reject_call (mkError text)) h (calls b))
                  (set_pending (delete id (pending b)) b)
            | None => b
            end
        | _ => b
        end
  end.

(** The job registered by
    [resultPromise.then(finalize).catch(e => { stream.emit('error', e); finalize(); })],
    run once the promise of call [h] is settled. *)
Definition react_call (c : CallRec) : CallRec :=
  let mark (c : CallRec) (thrown : option JsError) :=
    {| requestId := requestId c; promise := promise c; emitted := emitted c;
       error_listeners := error_listeners c; reacted := true; uncaught := thrown |} in
  let finalize (c : CallRec) :=
    match emit SigEnd c with inl c' => c' | inr _ => c end in
  if reacted c then c
  else
    match promise c with
    | Unsettled => c
    | Fulfilled _ => mark (finalize c) None
    | Rejected e =>
        match emit (SigError e) c with
        | inl c' => mark (finalize c') None
        | inr thrown => mark c (Some thrown)
        end
    end.

Definition set_listeners (f : nat -> nat) (c : CallRec) : CallRec :=
  {| requestId := requestId c; promise := promise c; emitted := emitted c;
     error_listeners := f (error_listeners c); reacted := reacted c;
     uncaught := uncaught c |}.

Definition missing_key : JsError :=
  mkError "GROK_API_KEY is required to use the Grok model provider.".

Definition add_task (t : Task) (b : Bridge) : Bridge :=
  set_tasks (tasks b ++ [t]) b.

(** [this.call(action, payload)] awaited by an async method: the call that
    is awaited, or the throw of [callWithStream] turned into a rejection. *)
Definition call (action : string) (payload : Js.value) (b : Bridge) : Awaited * Bridge :=
  match callWithStream action payload b with
  | inl (h, b') => (OnCall h, b')
  | inr e => (OnThrown e, b)
  end.

(** [ensureInitialised(payload)] up to its [await]. *)
Definition ensureInitialised (payload : InitializePayload) (b : Bridge) : Bridge :=
  if initialized b then
    add_task {| kind := TInit; tstate := Done (Fulfilled Js.VUndefined) |} b
  else
    match apiKey payload with
    | Some key =>
        if Js.nonempty key then
          let '(w, b') := call "initialize" (init_value payload) b in
          add_task {| kind := TInit; tstate := Awaiting w |} b'
        else add_task {| kind := TInit; tstate := Done (Rejected missing_key) |} b
    | None => add_task {| kind := TInit; tstate := Done (Rejected missing_key) |} b
    end.

(** [shutdown()] up to its [await]. *)
Definition shutdown (b : Bridge) : Bridge :=
  let '(w, b') := call "shutdown" (Js.VObj []) b in
  add_task {| kind := TShutdown; tstate := Awaiting w |} b'.

(** The settlement an awaiting method waits for, if it is there. *)
Definition awaited_outcome (w : Awaited) (b : Bridge) : option PromiseState :=
  match w with
  | OnThrown e => Some (Rejected e)
  | OnCall h =>
      match calls b !! h with
      | Some c => if is_settled (promise c) then Some (promise c) else None
      | None => None
      end
  end.

Definition set_initialized (v : bool) (b : Bridge) : Bridge :=
  {| pythonExecutable := pythonExecutable b; child := child b; pending := pending b;
     initialized := v; procs := procs b; calls := calls b;
     uuids := uuids b; tasks := tasks b;
     stdin_errors := stdin_errors b; host_uncaught := host_uncaught b |}.

(** The rest of an async method after its [await], run once the awaited
    promise is settled. *)
Definition continue (t : nat) (b : Bridge) : Bridge :=
  match tasks b !! t with
  | Some {| kind := k; tstate := Awaiting w |} =>
      match awaited_outcome w b with
      | None | Some Unsettled => b
      | Some outcome =>
          let finished (o : PromiseState) (b : Bridge) :=
            set_tasks (<[t := {| kind := k; tstate := Done o |}]> (tasks b)) b in
          match k with
          | TInit =>
              match outcome with
              | Fulfilled result =>
                  finished (Fulfilled Js.VUndefined)
                    (if Js.truthy result && Js.typeof_object result
                     then set_initialized true b else b)
              | other => finished other b
              end
          | TShutdown => finished (Fulfilled Js.VUndefined) (dispose b)
          end
      end
  | _ => b
  end.

(** What can happen to the bridge. *)
Inductive Action : Type :=
| ACall (action : string) (payload : Js.value)
| ACancel (h : nat)
| AListenError (h : nat)
| AUnlistenError (h : nat)
| ALine (parsed : option Js.value)
| AExit (pid : nat) (code : option Z) (signal : option string)
| AStdinClosed (pid : nat)
| AStdinError (pid : nat)
| AReact (h : nat)
| AEnsureInitialised (payload : InitializePayload)
| AShutdown
| ADispose
| AContinue (t : nat).

Definition step (a : Action) (b : Bridge) : Bridge :=
  match a with
  | ACall action payload =>
      match callWithStream action payload b with
      | inl (_, b') => b'
      | inr _ => b
      end
  | ACancel h => cancel h b
  | AListenError h => set_calls (alter (set_listeners S) h (calls b)) b
  | AUnlistenError h => set_calls (alter (set_listeners pred) h (calls b)) b
  | ALine parsed => handleLine parsed b
  | AExit pid code signal => on_exit pid code signal b
  | AStdinClosed pid =>
      {| pythonExecutable := pythonExecutable b; child := child b; pending := pending b;
         initialized := initialized b;
         procs := alter (fun p => {| killed := killed p; exit_seen := exit_seen p;
                                     stdin_open := false; stdin_log := stdin_log p |})
                        pid (procs b);
         calls := calls b; uuids := uuids b; tasks := tasks b;
     stdin_errors := stdin_errors b; host_uncaught := host_uncaught b |}
  | AStdinError pid => on_stdin_error pid b
  | AReact h => set_calls (alter react_call h (calls b)) b
  | AEnsureInitialised payload => ensureInitialised payload b
  | AShutdown => shutdown b
  | ADispose => dispose b
  | AContinue t => continue t b
  end.

Definition run (trace : list Action) (b : Bridge) : Bridge :=
  fold_left (fun b a => step a b) trace b.

(** Whether an action clears the initialization flag: the ['exit']
    listener of a process runs (of any process the bridge has spawned, the
    child or one it has replaced), [dispose()] is called, or [shutdown()]
    goes on to [dispose()] because its call is settled. *)
Definition resets (a : Action) (b : Bridge) : bool :=
  match a with
  | AExit pid _ _ =>
      match procs b !! pid with
      | Some p => negb (exit_seen p)
      | None => false
      end
  | ADispose => true
  | AContinue t =>
      match tasks b !! t with
      | Some {| kind := TShutdown; tstate := Awaiting w |} =>
          match awaited_outcome w b with
          | Some o => is_settled o
          | None => false
          end
      | _ => false
      end
  | _ => false
  end.

(** A trace from [b] on which no action clears the flag. *)
Fixpoint undisturbed (trace : list Action) (b : Bridge) : bool :=
  match trace with
  | [] => true
  | a :: rest => negb (resets a b) && undisturbed rest (step a b)
  end.

(** The promise of call [h]. *)
Definition promise_of (h : nat) (b : Bridge) : option PromiseState :=
  promise <$> calls b !! h.

(** How often the emitter of a call has emitted end-of-stream. *)
Definition count_end (c : CallRec) : nat :=
  length (List.filter (fun s => match s with SigEnd => true | _ => false end) (emitted c)).

End Environment.

(** Identifiers for worked examples: ["uuid-0"], ["uuid-1"], ...; like the
    results of [randomUUID], no two of them are equal. *)
Definition uuid_of (n : nat) : string :=
  "uuid-" ++ NilEmpty.string_of_uint (Nat.to_uint n).

(** A line of the worker, parsed: [{ type, requestId, payload }]. *)
Definition reply (type id : string) (payload : Js.value) : Js.value :=
  Js.VObj [("type", Js.VStr type); ("requestId", Js.VStr id); ("payload", payload)].

(** A line of the worker, parsed: [{ type: 'error', requestId, error: { message } }]. *)
Definition error_reply (id message : string) : Js.value :=
  Js.VObj [("type", Js.VStr "error"); ("requestId", Js.VStr id);
           ("error", Js.VObj [("message", Js.VStr message)])].

(** What holds of every state the bridge can be in: an entry of the
    pending map belongs to a call that bears the key as its identifier and
    whose promise is not settled; the keys are identifiers that were drawn;
    the child is a process that was spawned; and a bridge that has spawned
    a process remembers its executable. *)
Definition wf (randomUUID : nat -> string) (b : Bridge) : Prop :=
  (forall k h, pending b !! k = Some h ->
     exists c, calls b !! h = Some c /\ requestId c = k /\ promise c = Unsettled)
  /\ (forall k h, pending b !! k = Some h ->
        exists n, (n < uuids b)%nat /\ k = randomUUID n)
  /\ (forall pid, child b = Some pid -> (pid < length (procs b))%nat)
  /\ (procs b <> [] -> is_Some (pythonExecutable b)).

(** What holds of the emitter of every call: end-of-stream was emitted
    once if the job of [callWithStream] ran to its end and not at all
    otherwise, and that job has only run if the promise is settled. *)
Definition end_ok (c : CallRec) : Prop :=
  count_end c = match reacted c, uncaught c with
                | true, None => 1%nat
                | _, _ => 0%nat
                end
  /\ (reacted c = true -> is_settled (promise c) = true).

(** What the emitter of a call emits after the events: nothing as long as
    the job of [callWithStream] has not run to its end, then end-of-stream
    for a resolved call, and the error followed by end-of-stream for a
    rejected one. *)
Definition closing (c : CallRec) : list Signal :=
  match reacted c, uncaught c, promise c with
  | true, None, Fulfilled _ => [SigEnd]
  | true, None, Rejected e => [SigError e; SigEnd]
  | _, _, _ => []
  end.

(** The payloads of the events a call has emitted. *)
Definition payloads (c : CallRec) : list Js.value :=
  omap (fun s => match s with SigEvent p => Some p | _ => None end) (emitted c).

(** The emissions of a call are its events followed by its closing. *)
Definition shape_ok (c : CallRec) : Prop :=
  emitted c = (List.map SigEvent (payloads c) ++ closing c)%list.

End GrokSidecarClient.

(* ===================================================================== *)
(** ** The worker stream of one chat call, as the adapter sees it          *)
(* ===================================================================== *)

Module StreamProtocol.

Import GrokContentGenerator.
Local Open Scope list_scope.

(** How far the stream of a call has got.  A call that ends well delivers
    its events, then its result, then end-of-stream; a call that fails
    delivers its events, then the rejection, then the error signal, then
    end-of-stream (the order in which [callWithStream] settles and emits). *)
Inductive Stage : Type :=
| Streaming (delivered : list Js.value)
| Settled (delivered : list Js.value) (result : Js.value)
| Closed (delivered : list Js.value) (result : Js.value)
| Failed (delivered : list Js.value) (reason : JsError)
| Errored (delivered : list Js.value) (e : JsError)
| ClosedErr (delivered : list Js.value) (e : JsError).

(** The stage after an action; [None] when the action is out of order. *)
Definition advance (a : Action) (st : Stage) : option Stage :=
  match a, st with
  | (Next | Resume), _ => Some st
  | Emit (SigEvent p), Streaming d => Some (Streaming (d ++ [p]))
  | Settle (Fulfilled r), Streaming d => Some (Settled d r)
  | Emit SigEnd, Settled d r => Some (Closed d r)
  | Settle (Rejected e), Streaming d => Some (Failed d e)
  | Emit (SigError e), Failed d _ => Some (Errored d e)
  | Emit SigEnd, Errored d e => Some (ClosedErr d e)
  | _, _ => None
  end.

Fixpoint feed (trace : list Action) (st : Stage) : option Stage :=
  match trace with
  | [] => Some st
  | a :: rest =>
      match advance a st with
      | Some st' => feed rest st'
      | None => None
      end
  end.

(** The inputs of a call that ends well, and of one that fails. *)
Definition normal_inputs (events : list Js.value) (result : Js.value) : list Action :=
  List.map (fun p => Emit (SigEvent p)) events ++ [Settle (Fulfilled result); Emit SigEnd].

Definition failing_inputs (events : list Js.value) (reason e : JsError) : list Action :=
  List.map (fun p => Emit (SigEvent p)) events
  ++ [Settle (Rejected reason); Emit (SigError e); Emit SigEnd].

(** The payloads delivered so far. *)
Definition delivered_of (st : Stage) : list Js.value :=
  match st with
  | Streaming d | Settled d _ | Closed d _ | Failed d _ | Errored d _ | ClosedErr d _ => d
  end.

(** One request of the consumer, answered as far as the generator can. *)
Definition round (g : Gen) : Gen := step Resume (step Next g).

(** A consumer that asks for the next element [n] times, the generator
    running after each request ([for await] does this until [done]). *)
Fixpoint consume (n : nat) : list Action :=
  match n with
  | O => []
  | S k => Next :: Resume :: consume k
  end.

(** What holds of the generator at each stage. *)
Definition Inv (st : Stage) (g : Gen) : Prop :=
  match st with
  | Streaming d =>
      errorFromStream g = None /\ ended g = false /\ resultPromise g = Unsettled
      /\ listening g = true /\ (pc g = Suspended \/ pc g = AwaitNext)
      /\ outputs g ++ render (queue g) = render d
  | Settled d r =>
      errorFromStream g = None /\ ended g = false /\ resultPromise g = Fulfilled r
      /\ listening g = true /\ (pc g = Suspended \/ pc g = AwaitNext)
      /\ outputs g ++ render (queue g) = render d
  | Closed d r =>
      errorFromStream g = None /\ ended g = true /\ resultPromise g = Fulfilled r
      /\ pendingResolve g = false
      /\ match pc g with
         | Suspended | AwaitNext => outputs g ++ render (queue g) = render d
         | AwaitResult => outputs g = render d
         | AtFinalYield | Returned =>
             exists c, toGenerateContentResponse r = inl c /\ outputs g = render d ++ [c]
         | Threw t => toGenerateContentResponse r = inr t /\ outputs g = render d
         end
  | Failed d reason =>
      errorFromStream g = None /\ ended g = false /\ resultPromise g = Rejected reason
      /\ listening g = true /\ (pc g = Suspended \/ pc g = AwaitNext)
      /\ outputs g ++ render (queue g) = render d
  | Errored d e | ClosedErr d e =>
      ended g = true /\ pendingResolve g = false
      /\ match pc g with
         | Suspended | AwaitNext =>
             errorFromStream g = Some e /\ listening g = true
             /\ outputs g ++ render (queue g) = render d
         | Threw t => t = ThrowError e /\ outputs g ++ render (queue g) = render d
         | _ => False
         end
  end.

(** An upper bound on the requests a consumer still has to make before the
    generator completes, once the stream is closed. *)
Definition fuel (g : Gen) : nat :=
  match pc g with
  | Suspended => length (queue g) + 4
  | AwaitNext =>
      match errorFromStream g, queue g with
      | Some _, _ => 1
      | None, [] => 3
      | None, _ => length (queue g) + 4
      end
  | AwaitResult => 2
  | AtFinalYield => 1
  | Returned | Threw _ => 0
  end.

Definition finished (g : Gen) : bool :=
  match pc g with Returned | Threw _ => true | _ => false end.

(** How many final responses a generator suspended at [c] has yielded. *)
Definition finals_at (c : Pc) : nat :=
  match c with
  | AtFinalYield | Returned => 1
  | _ => 0
  end.

(** The scenario of the specification: [delta] events and a result that
    carries the usage [{ totalTokens: 10 }]. *)
Definition delta (text : string) : Js.value :=
  Js.VObj [("event", Js.VStr "delta"); ("text", Js.VStr text)].

Definition usage10 : Js.value := Js.VObj [("totalTokens", Js.VNum 10)].

Definition chat_result (message : Js.value) : Js.value :=
  Js.VObj [("message", message); ("usage", usage10)].

End StreamProtocol.

(* ===================================================================== *)
(** ** More operations of JavaScript on strings, arrays and objects        *)
(* ===================================================================== *)

Module JsText.

(** The line feed. *)
Definition LF : string := String (ascii_of_nat 10) EmptyString.

(** [typeof v === 'object' && v !== null]. *)
Definition is_object (v : Js.value) : bool :=
  match v with Js.VArr _ | Js.VObj _ => true | _ => false end.

(** ['k' in v] for an object [v] and a key that is not built in. *)
Definition has_key (k : string) (v : Js.value) : bool :=
  match v with
  | Js.VObj fields => existsb (fun kv => String.eqb k (fst kv)) fields
  | _ => false
  end.

(** [l.includes(x)] on an array of strings. *)
Definition includes (x : string) (l : list string) : bool :=
  existsb (String.eqb x) l.

(** [s.includes(needle)] on strings. *)
Fixpoint contains (needle s : string) : bool :=
  String.prefix needle s
  || match s with
     | EmptyString => false
     | String _ rest => contains needle rest
     end.

(** [s.slice(n)] and [s.slice(0, n)] for [0 <= n]. *)
Fixpoint drop (n : nat) (s : string) : string :=
  match n, s with
  | O, _ => s
  | S k, String _ rest => drop k rest
  | S _, EmptyString => EmptyString
  end.

Fixpoint take (n : nat) (s : string) : string :=
  match n, s with
  | O, _ => EmptyString
  | S k, String c rest => String c (take k rest)
  | S _, EmptyString => EmptyString
  end.

(** [s.replace(needle, by)] for strings [needle] and [by], the latter
    without a dollar sign: the first occurrence is replaced. *)
Fixpoint replace (needle by_ s : string) : string :=
  if String.prefix needle s then by_ ++ drop (String.length needle) s
  else
    match s with
    | EmptyString => EmptyString
    | String c rest => String c (replace needle by_ rest)
    end.

(** Whether [s] is made of white space only. *)
Fixpoint blank (s : string) : bool :=
  match s with
  | EmptyString => true
  | String c rest => Js.is_space c && blank rest
  end.

(** [s.split(/\s+/)]: the pieces between the runs of white space; a run
    at either end leaves an empty piece there. *)
Fixpoint split_ws (s : string) : list string :=
  match s with
  | EmptyString => [EmptyString]
  | String c rest =>
      match split_ws rest with
      | [] => [String c EmptyString]
      | piece :: pieces =>
          if Js.is_space c then
            match rest with
            | String c' _ => if Js.is_space c' then piece :: pieces
                             else EmptyString :: piece :: pieces
            | EmptyString => EmptyString :: piece :: pieces
            end
          else String c piece :: pieces
      end
  end.

End JsText.

(* ===================================================================== *)
(** ** grokSidecarClient.ts: the interpreter, and calls that can be aborted *)
(* ===================================================================== *)

Module GrokSidecarCalls.

Import GrokSidecarClient.

(** The two variables of [process.env] that name an interpreter. *)
Record PythonEnv : Type := {
  GROK_PYTHON_BIN : option string;
  PYTHON : option string;
}.

(** The filter of [resolvePythonExecutable]:
    [!!candidate && candidate.trim().length > 0]. *)
Definition is_candidate (candidate : option string) : option string :=
  match candidate with
  | Some s =>
      if Js.nonempty s && (0 <? String.length (Js.trim s))%nat then Some s else None
  | None => None
  end.

Definition candidates (env : PythonEnv) : list string :=
  omap is_candidate [GROK_PYTHON_BIN env; PYTHON env; Some "python"; Some "python3"].

(** [resolvePythonExecutable()]; [answers c] tells whether
    [spawnSync(c, ['--version'])] ends without error and with status 0.
    [None] is the throw for want of an interpreter. *)
Definition resolvePythonExecutable (answers : string -> bool) (env : PythonEnv)
  : option string :=
  List.find answers (candidates env).

(** The promise [callWithAbort] returns. *)
Inductive Returned : Type :=
| ResultOf (h : nat)        (* the result promise of call [h] itself *)
| AbortedAtOnce             (* [Promise.reject(createAbortError())] *)
| Guarded (h : nat).        (* a new promise around the result of call [h] *)

(** The promise made for a signal that has not fired, with the listener
    [onAbort] that was registered [once] on the signal. *)
Record Guard : Type := {
  target : nat;
  outer : PromiseState;
  abort_listener : bool;
}.

Definition guard (h : nat) : Guard :=
  {| target := h; outer := Unsettled; abort_listener := true |}.

Section Environment.

Variable randomUUID : nat -> string.
Variable python : option string.

(** [callWithAbort(action, payload, abortSignal)]: [abortSignal] is [None]
    when no signal is passed and else tells whether the signal has already
    fired.  The call is made before the signal is looked at. *)
Definition callWithAbort (action : string) (payload : Js.value)
    (abortSignal : option bool) (b : Bridge) : (Returned * Bridge) + JsError :=
  match callWithStream randomUUID python action payload b with
  | inr e => inr e
  | inl (h, b') =>
      match abortSignal with
      | None => inl (ResultOf h, b')
      | Some true => inl (AbortedAtOnce, cancel h b')
      | Some false => inl (Guarded h, b')
      end
  end.

(** [webSearch(query, options, abortSignal)]. *)
Definition webSearch (query : string) (options : Js.value) (abortSignal : option bool)
    (b : Bridge) : (Returned * Bridge) + JsError :=
  callWithAbort "tooling.webSearch"
    (Js.VObj [("query", Js.VStr query); ("options", options)]) abortSignal b.

End Environment.

(** [onAbort], run when the signal fires: [cancel()], then the new promise
    is rejected. *)
Definition onAbort (g : Guard) (b : Bridge) : Guard * Bridge :=
  if abort_listener g
  then ({| target := target g;
           outer := settle (outer g) (Rejected createAbortError);
           abort_listener := false |},
        cancel (target g) b)
  else (g, b).

(** The [then] and [catch] jobs on the result promise, run once it is
    settled: the listener is removed and the new promise follows the
    result. *)
Definition on_result (g : Guard) (b : Bridge) : Guard :=
  match promise_of (target g) b with
  | None | Some Unsettled => g
  | Some outcome =>
      {| target := target g; outer := settle (outer g) outcome; abort_listener := false |}
  end.

(** A bridge without a child has no pending entry. *)
Definition idle_ok (b : Bridge) : Prop := child b = None -> pending b = ∅.

(** The calls [cs'] have the settled promises of the calls [cs]. *)
Definition keeps_settled (cs cs' : list CallRec) : Prop :=
  forall h c, cs !! h = Some c -> is_settled (promise c) = true ->
    exists c', cs' !! h = Some c' /\ promise c' = promise c.

(** Process [cur] was spawned and is not the child of the bridge. *)
Definition not_current (cur : nat) (b : Bridge) : Prop :=
  child b <> Some cur /\ (cur < length (procs b))%nat.

(** A request line as it is written for a call. *)
Definition request_of (id action : string) (payload : Js.value) : Request :=
  {| req_id := id; req_action := action; req_payload := payload |}.

End GrokSidecarCalls.

(* ===================================================================== *)
(** ** grokToolingSupport.ts: the cached initialisation of the helpers     *)
(* ===================================================================== *)

Module GrokToolingSession.

Import GrokSidecarClient GrokSidecarCalls.

(** The [GrokToolingSupport] object: its options and the promise it
    caches, which is identified with the [ensureInitialised] task it was
    derived from. *)
Record Support : Type := {
  options_apiKey : string;
  options_model : option string;
  options_pythonPath : option string;
  initialisationPromise : option nat;
}.

Definition set_promise (p : option nat) (s : Support) : Support :=
  {| options_apiKey := options_apiKey s; options_model := options_model s;
     options_pythonPath := options_pythonPath s; initialisationPromise := p |}.

Definition no_tooling_key : JsError :=
  mkError "GROK_API_KEY is required to use the Grok model provider tooling support.".

(** What [ensureReady] does before it suspends: it throws, or it awaits
    the promise of a task. *)
Inductive Readiness : Type :=
| Wait (t : nat)
| Throw (e : JsError).

Section Environment.

Variable randomUUID : nat -> string.
Variable python : option string.

(** [ensureReady()] up to its [await]. *)
Definition ensureReady (s : Support) (b : Bridge) : Readiness * Support * Bridge :=
  match initialisationPromise s with
  | Some t => (Wait t, s, b)
  | None =>
      if negb (Js.nonempty (options_apiKey s)) then (Throw no_tooling_key, s, b)
      else
        let t := length (tasks b) in
        (Wait t, set_promise (Some t) s,
         ensureInitialised randomUUID python
           {| apiKey := Some (options_apiKey s); api_key := Some (options_apiKey s);
              model := options_model s; pythonPath := options_pythonPath s |} b)
  end.

(** [this.sidecar.webSearch(query, { mode: 'on' }, abortSignal)], the
    bridge call of [performWebSearch] once [ensureReady] has returned. *)
Definition search_request (query : string) (abortSignal : option bool) (b : Bridge)
  : (Returned * Bridge) + JsError :=
  webSearch randomUUID python query (Js.VObj [("mode", Js.VStr "on")]) abortSignal b.

End Environment.

(** The settlement [await initPromise] waits for, if it is there. *)
Definition ready_outcome (t : nat) (b : Bridge) : option PromiseState :=
  match tasks b !! t with
  | Some {| tstate := Done o |} => Some o
  | _ => None
  end.

(** The [catch] job of [ensureReady], run when the task it follows was
    rejected: the cache is emptied. *)
Definition on_init_failed (t : nat) (s : Support) (b : Bridge) : Support :=
  match ready_outcome t b with
  | Some (Rejected _) => set_promise None s
  | _ => s
  end.

End GrokToolingSession.

(* ===================================================================== *)
(** ** grokContentGenerator.ts: requests and the non-streaming call        *)
(* ===================================================================== *)

Module GrokContentRequests.

Import GrokContentGenerator JsText.

Definition no_content : JsError := mkError "Grok sidecar did not return any content.".

(** [generateContent(request, userPromptId)] from the point where the
    stream exists: the [for await] loop keeps the last chunk; when the
    generator has completed, the call returns that chunk, or throws for
    want of one, or ends with what the generator threw.  [None]: the loop
    is still waiting. *)
Definition generateContent (g : Gen) : option (Chunk + Thrown) :=
  match pc g with
  | Returned =>
      Some match last (outputs g) with
           | Some lastChunk => inl lastChunk
           | None => inr (ThrowError no_content)
           end
  | Threw t => Some (inr t)
  | _ => None
  end.

(** What holds of a generator that has yielded its final response. *)
Definition final_ok (g : Gen) : Prop :=
  match pc g with
  | AtFinalYield | Returned =>
      exists r c, resultPromise g = Fulfilled r
                  /\ toGenerateContentResponse r = inl c
                  /\ last (outputs g) = Some c
  | _ => True
  end.

(** [{ type: 'text', text }]. *)
Definition text_part (text : string) : Js.value :=
  Js.VObj [("type", Js.VStr "text"); ("text", Js.VStr text)].

(** A message of the chat payload. *)
Record Message : Type := {
  role : Js.value;
  content : list Js.value;
}.

(** The variables of the loop over the parts of one content. *)
Record Parts : Type := {
  normalisedParts : list Js.value;
  functionResponseAggregated : bool;
  toolContentSegments : list string;
  toolCallId : Js.value;
  toolName : Js.value;
}.

Definition no_parts : Parts :=
  {| normalisedParts := []; functionResponseAggregated := false;
     toolContentSegments := []; toolCallId := Js.VUndefined; toolName := Js.VUndefined |}.

Definition push_part (p : Js.value) (acc : Parts) : Parts :=
  {| normalisedParts := (normalisedParts acc ++ [p])%list;
     functionResponseAggregated := functionResponseAggregated acc;
     toolContentSegments := toolContentSegments acc;
     toolCallId := toolCallId acc; toolName := toolName acc |}.

Definition push_segment (s : string) (acc : Parts) : Parts :=
  {| normalisedParts := normalisedParts acc;
     functionResponseAggregated := functionResponseAggregated acc;
     toolContentSegments := (toolContentSegments acc ++ [s])%list;
     toolCallId := toolCallId acc; toolName := toolName acc |}.

(** A declaration of a tool and a tool, as [extractToolDefinitions] reads
    them, and the definition it makes of a declaration. *)
Record FunctionDeclaration : Type := {
  name : Js.value;
  description : Js.value;
  parametersJsonSchema : Js.value;
}.

Record Tool : Type := {
  functionDeclarations : option (list FunctionDeclaration);
}.

Record ToolDefinition : Type := {
  def_name : Js.value;
  def_description : Js.value;
  def_schema : Js.value;
}.

(** [extractToolDefinitions(tools)]. *)
Definition extractToolDefinitions (tools : list Tool) : list ToolDefinition :=
  List.concat
    (List.map (fun tool =>
                 List.map (fun declaration =>
                             {| def_name := name declaration;
                                def_description := description declaration;
                                def_schema := parametersJsonSchema declaration |})
                          (match functionDeclarations tool with
                           | Some ds => ds
                           | None => []
                           end))
              tools).

(** [request.config]: its tools, and the object itself, which is passed on
    as [generationConfig]. *)
Record RequestConfig : Type := {
  tools : option (list Tool);
  generationConfig : Js.value;
}.

Record Request : Type := {
  contents : Js.value;
  config : option RequestConfig;
}.

Record ChatRequestPayload : Type := {
  sessionId : string;
  messages : list Message;
  payload_tools : list ToolDefinition;
  options : option Js.value;      (* [{ generationConfig }], or [{}] *)
}.

Section Stringify.

(** [JSON.stringify] on the values it is applied to here, which are
    defined and not circular, so that it returns a string. *)
Variable JSON_stringify : Js.value -> string.

(** One pass of the loop over the parts. *)
Definition add_part (acc : Parts) (part : Js.value) : Parts :=
  if negb (is_object part) then push_part (text_part (Js.to_String part)) acc
  else if has_key "text" part && Js.is_string (Js.get_opt part "text") then
    let textValue := Js.to_String (Js.get_opt part "text") in
    if functionResponseAggregated acc then push_segment textValue acc
    else push_part (text_part textValue) acc
  else if has_key "functionCall" part then
    push_part (Js.VObj [("type", Js.VStr "functionCall");
                        ("functionCall", Js.get_opt part "functionCall")]) acc
  else if has_key "functionResponse" part then
    let response := Js.get_opt part "functionResponse" in
    let acc' :=
      {| normalisedParts := normalisedParts acc;
         functionResponseAggregated := true;
         toolContentSegments := toolContentSegments acc;
         toolCallId := Js.nullish (Js.get_opt response "id") (toolCallId acc);
         toolName := Js.nullish (Js.get_opt response "name") (toolName acc) |} in
    let stringified :=
      match response with
      | Js.VUndefined | Js.VNull => acc'
      | _ =>
          match Js.get_opt response "response" with
          | Js.VUndefined => acc'
          | inner => push_segment (JSON_stringify inner) acc'
          end
      end in
    match Js.get_opt (Js.get_opt response "response") "output" with
    | Js.VStr output =>
        if Js.nonempty (Js.trim output) then push_segment (Js.trim output) acc'
        else stringified
    | _ => stringified
    end
  else push_segment (JSON_stringify part) acc.

(** The body of the loop over [contents]: the message a content becomes,
    if any. *)
Definition toMessage (item : Js.value) : option Message :=
  match item with
  | Js.VStr s => Some {| role := Js.VStr "user"; content := [text_part s] |}
  | _ =>
      if negb (is_object item) || negb (has_key "role" item) then None
      else
        let given := Js.get_opt item "role" in
        let role :=
          match given with
          | Js.VStr r => if String.eqb r "model" then Js.VStr "assistant" else given
          | _ => given
          end in
        let partsArray :=
          match Js.get_opt item "parts" with
          | Js.VArr ps => ps
          | _ => []
          end in
        let acc := fold_left add_part partsArray no_parts in
        if functionResponseAggregated acc then
          let text := Js.trim (Js.join LF (toolContentSegments acc)) in
          let resolvedText :=
            if Js.nonempty text then text else "Tool execution succeeded." in
          let headerParts :=
            ((if Js.truthy (toolName acc)
              then [("tool: " ++ Js.to_String (toolName acc))%string] else [])
             ++ (if Js.truthy (toolCallId acc)
                 then [("callId: " ++ Js.to_String (toolCallId acc))%string] else []))%list in
          let finalText :=
            match headerParts with
            | [] => resolvedText
            | _ => "[" ++ Js.join " " headerParts ++ "]" ++ LF ++ resolvedText
            end in
          Some {| role := Js.VStr "tool"; content := [text_part finalText] |}
        else Some {| role := role; content := normalisedParts acc |}
  end.

(** [toChatPayload(request)]; [session] is [this.config.getSessionId()]. *)
Definition toChatPayload (session : string) (request : Request)
  : ChatRequestPayload * list ToolDefinition :=
  let contents :=
    match contents request with
    | Js.VArr items => items
    | _ => []
    end in
  let toolDefs :=
    extractToolDefinitions
      (match config request with
       | Some c => match tools c with Some ts => ts | None => [] end
       | None => []
       end) in
  ({| sessionId := session;
      messages := omap toMessage contents;
      payload_tools := toolDefs;
      options := generationConfig <$> config request |},
   toolDefs).

End Stringify.

(** A part that makes a content a tool message: an object without a
    string [text] and without [functionCall] that has [functionResponse]. *)
Definition is_function_response (part : Js.value) : bool :=
  is_object part
  && negb (has_key "text" part && Js.is_string (Js.get_opt part "text"))
  && negb (has_key "functionCall" part)
  && has_key "functionResponse" part.

End GrokContentRequests.

(* ===================================================================== *)
(** ** The providers and their registry                                    *)
(* ===================================================================== *)

(** googleGenaiProvider.ts. *)
Module GoogleGenAIProvider.

Definition id : string := "google-genai".

(** [isModelSupported(modelId)]. *)
Definition isModelSupported (modelId : string) : bool :=
  String.eqb modelId "auto" || Js.startsWith "gemini-" modelId.

End GoogleGenAIProvider.

(** The registry of model providers ([ModelProviderRegistryImpl]). *)
Module ModelProviderRegistry.

(** What the registry and the commands use of a [ModelProvider]. *)
Record ModelProvider : Type := {
  id : string;
  isModelSupported : string -> bool;
}.

Definition googleProvider : ModelProvider :=
  {| id := GoogleGenAIProvider.id;
     isModelSupported := GoogleGenAIProvider.isModelSupported |}.

Definition grokProvider : ModelProvider :=
  {| id := "grok"; isModelSupported := GrokProvider.isModelSupported |}.

(** [Map.prototype.set] on a map kept in insertion order. *)
Fixpoint set (key : string) (p : ModelProvider) (m : list (string * ModelProvider))
  : list (string * ModelProvider) :=
  match m with
  | [] => [(key, p)]
  | (k, q) :: rest => if String.eqb k key then (k, p) :: rest else (k, q) :: set key p rest
  end.

Record Registry : Type := {
  providers : list (string * ModelProvider);
  defaultProviderId : string;
}.

(** The constructor. *)
Definition create : Registry :=
  {| providers := set (id grokProvider) grokProvider
                    (set (id googleProvider) googleProvider []);
     defaultProviderId := id googleProvider |}.

(** [getProvider(providerId)]. *)
Definition getProvider (r : Registry) (providerId : string) : option ModelProvider :=
  snd <$> List.find (fun kp => String.eqb (fst kp) providerId) (providers r).

(** [getDefaultProvider()]; [inr] is its throw. *)
Definition getDefaultProvider (r : Registry) : ModelProvider + JsError :=
  match getProvider r (defaultProviderId r) with
  | Some p => inl p
  | None => inr (mkError "No default model provider registered.")
  end.

(** [listProviders()]. *)
Definition listProviders (r : Registry) : list ModelProvider :=
  List.map snd (providers r).

End ModelProviderRegistry.

(* ===================================================================== *)
(** ** grokProvider.ts: the environment files                              *)
(* ===================================================================== *)

Module GrokEnvironment.

(** [process.env], and a parsed [.env] file. *)
Definition Vars : Type := gmap string string.

(** [applyEnvValue(parsed, key)]. *)
Definition applyEnvValue (parsed : Vars) (key : string) (env : Vars) : Vars :=
  match parsed !! key with
  | None => env
  | Some value =>
      if negb (Js.nonempty value) then env
      else
        match env !! key with
        | Some current => if Js.nonempty current then env else <[key := value]> env
        | None => <[key := value]> env
        end
  end.

(** The three keys taken from a file that exists and parses. *)
Definition apply_file (parsed : Vars) (env : Vars) : Vars :=
  applyEnvValue parsed "GROK_MODEL_ID"
    (applyEnvValue parsed "GROK_MODEL"
       (applyEnvValue parsed "GROK_API_KEY" env)).

(** The provider's [envLoaded] flag and [process.env]. *)
Record State : Type := {
  envLoaded : bool;
  env : Vars;
}.

(** [ensureEnvironment()]; [files] holds, for each candidate path in the
    order of the code, what [dotenv.parse] made of the file, and [None]
    for a file that does not exist or cannot be read or parsed. *)
Definition ensureEnvironment (files : list (option Vars)) (st : State) : State :=
  if envLoaded st then st
  else
    {| envLoaded := true;
       env := fold_left (fun e file => match file with
                                        | Some parsed => apply_file parsed e
                                        | None => e
                                        end) files (env st) |}.

(** The keys the provider takes from a file. *)
Definition keys : list string := ["GROK_API_KEY"; "GROK_MODEL"; "GROK_MODEL_ID"].

(** A variable that counts as set: present and not empty. *)
Definition is_set (v : option string) : bool :=
  match v with Some s => Js.nonempty s | None => false end.

(** The value the first file that sets [key] gives it. *)
Fixpoint first_value (files : list (option Vars)) (key : string) : option string :=
  match files with
  | [] => None
  | file :: rest =>
      match file with
      | Some parsed =>
          if is_set (parsed !! key) then parsed !! key else first_value rest key
      | None => first_value rest key
      end
  end.

End GrokEnvironment.

(* ===================================================================== *)
(** ** The command line: how a provider is shown                           *)
(* ===================================================================== *)

Module ProviderDisplay.

(** [getProviderDisplayName(providerId)] of providerDisplay.ts. *)
Definition getProviderDisplayName (providerId : option string) : option string :=
  match providerId with
  | None => None
  | Some id =>
      if negb (Js.nonempty id) then None
      else
        let trimmed := Js.trim id in
        if negb (Js.nonempty trimmed) then None
        else if String.eqb trimmed "google-genai" then Some "gemini"
        else Some trimmed
  end.

(** What [getModelMessagePrefix] of GeminiMessage.tsx returns. *)
Record ModelMessagePrefix : Type := {
  prefix : string;
  width : nat;
  ariaLabel : string;
}.

Section Terminal.

(** [stringWidth] of the package string-width and the constant
    [SCREEN_READER_MODEL_PREFIX] of textConstants.ts. *)
Variable stringWidth : string -> nat.
Variable SCREEN_READER_MODEL_PREFIX : string.

Definition getModelMessagePrefix (providerId : option string) : ModelMessagePrefix :=
  match getProviderDisplayName providerId with
  | None =>
      {| prefix := "✦ "; width := stringWidth "✦ ";
         ariaLabel := SCREEN_READER_MODEL_PREFIX |}
  | Some displayProvider =>
      let prefix := "✦ " ++ displayProvider ++ " · " in
      {| prefix := prefix; width := stringWidth prefix;
         ariaLabel := "Model (" ++ displayProvider ++ "): " |}
  end.

End Terminal.

(** [providerDisplay] of ConsoleSummaryDisplay.tsx: the label is
    [modelProviderId && (getProviderDisplayName(modelProviderId) ?? modelProviderId)]. *)
Definition providerDisplay (modelProviderId : option string) (model : string) : string :=
  let providerLabel :=
    match modelProviderId with
    | None => None
    | Some id =>
        if negb (Js.nonempty id) then Some id
        else
          match getProviderDisplayName (Some id) with
          | Some name => Some name
          | None => Some id
          end
    end in
  match providerLabel with
  | Some label => if Js.nonempty label then label ++ " · " ++ model else model
  | None => model
  end.

End ProviderDisplay.

(* ===================================================================== *)
(** ** The command line: the [/agent] command                              *)
(* ===================================================================== *)

Module AgentCommand.

Import JsText.

Definition verbs : list string := ["use"; "switch"; "set"].

Inductive MessageType : Type := info | error.

(** A [MessageActionReturn]. *)
Record Message : Type := {
  messageType : MessageType;
  content : string;
}.

(** [createMessage(messageType, content)]. *)
Definition createMessage (messageType : MessageType) (content : string) : Message :=
  {| messageType := messageType; content := content |}.

(** [formatProviderList(providerIds, activeProviderId)]. *)
Definition formatProviderList (providerIds : list string) (activeProviderId : string)
  : string :=
  let lines :=
    ("Available model providers:"
     :: List.map (fun providerId =>
                    let isActive := String.eqb providerId activeProviderId in
                    let marker := if isActive then "*" else "-" in
                    let suffix := if isActive then " (active)" else "" in
                    (" " ++ marker ++ " " ++ providerId ++ suffix)%string)
                 providerIds)%list in
  Js.join LF
    (lines ++ [""; "Use `/agent use <providerId>` or `/agent <providerId>` to switch providers."])%list.

(** What [setModelProvider] throws: an [Error], or some other value. *)
Inductive Thrown : Type :=
| ThrownError (e : JsError)
| ThrownValue (v : Js.value).

(** [context.services.config], as the command uses it: the identifiers of
    [listModelProviders()], [getModelProviderId()], and whether
    [setModelProvider(id)] resolves ([None]) or throws. *)
Record Config : Type := {
  listModelProviders : list string;
  getModelProviderId : string;
  setModelProvider : string -> option Thrown;
}.

(** [context.services]: the configuration, if any, and whether
    [settings.setValue] is a function. *)
Record Services : Type := {
  config : option Config;
  has_setValue : bool;
}.

(** The calls that change something. *)
Inductive Effect : Type :=
| SetModelProvider (providerId : string)
| SetValue (providerId : string).   (* [setValue(SettingScope.User, 'model.provider', id)] *)

(** [agentCommand.action(context, rawArgs)]: the message it returns and
    the calls it made, in order. *)
Definition action (services : Services) (rawArgs : string) : Message * list Effect :=
  match config services with
  | None =>
      (createMessage error
         "Configuration is not initialized; unable to manage model providers.", [])
  | Some config =>
      let providerIds := listModelProviders config in
      if (length providerIds =? 0)%nat
      then (createMessage error "No model providers are registered.", [])
      else
        let activeProviderId := getModelProviderId config in
        let trimmedArgs := Js.trim rawArgs in
        if (String.length trimmedArgs =? 0)%nat || String.eqb trimmedArgs "list"
        then (createMessage info (formatProviderList providerIds activeProviderId), [])
        else if String.eqb trimmedArgs "current"
        then (createMessage info ("Current model provider: " ++ activeProviderId), [])
        else
          let tokens := List.filter Js.nonempty (split_ws trimmedArgs) in
          let unrecognised :=
            (createMessage error
               ("Unrecognised agent command: " ++ GrokToolingSupport.dquote ++ trimmedArgs
                ++ GrokToolingSupport.dquote ++ "."), []) in
          let switch (targetProviderId : string) :=
            if negb (Js.nonempty targetProviderId) then unrecognised
            else if negb (includes targetProviderId providerIds)
            then (createMessage error ("Unknown model provider: " ++ targetProviderId), [])
            else if String.eqb targetProviderId activeProviderId
            then (createMessage info
                    ("Model provider " ++ targetProviderId ++ " is already active."), [])
            else
              match setModelProvider config targetProviderId with
              | Some thrown =>
                  (createMessage error
                     ("Failed to activate provider " ++ targetProviderId ++ ": "
                      ++ match thrown with
                         | ThrownError e => err_message e
                         | ThrownValue v => Js.to_String v
                         end),
                   [SetModelProvider targetProviderId])
              | None =>
                  (createMessage info
                     ("Switched active model provider to " ++ targetProviderId ++ "."),
                   (SetModelProvider targetProviderId
                    :: if has_setValue services then [SetValue targetProviderId] else [])%list)
              end in
          match tokens with
          | [] => (createMessage error "You must provide a model provider identifier.", [])
          | [firstToken] =>
              if includes firstToken verbs
              then (createMessage error
                      "Specify a provider id, e.g. `/agent use google-genai`.", [])
              else switch firstToken
          | firstToken :: secondToken :: _ =>
              if includes firstToken verbs then switch secondToken else unrecognised
          end
  end.

(** [agentCommand.completion(context, partialArg)]. *)
Definition completion (services : Services) (partialArg : string) : list string :=
  match config services with
  | None => []
  | Some config =>
      let providers := listModelProviders config in
      let trimmed := Js.trim partialArg in
      if (String.length trimmed =? 0)%nat
      then (["list"; "current"; "use"] ++ providers)%list
      else
        match split_ws trimmed with
        | [first] =>
            List.filter (Js.startsWith first)
              (["list"; "current"; "use"; "switch"; "set"] ++ providers)%list
        | [verb; partialProvider] =>
            if includes verb verbs
            then List.filter (Js.startsWith partialProvider) providers
            else []
        | _ => []
        end
  end.

End AgentCommand.

(* ===================================================================== *)
(** ** The command line: the tool calls kept for display                   *)
(* ===================================================================== *)

(** useReactToolScheduler.ts: the state [toolCallsForDisplay] and the
    three functions that update it. *)
Module ToolScheduler.

Import JsText.

(** The [Status] of a tool call of the core scheduler. *)
Inductive Status : Type :=
| validating | scheduled | awaiting_approval | executing | success | error | cancelled.

Definition is_executing (s : Status) : bool :=
  match s with executing => true | _ => false end.

Section Calls.

(** What a tool call holds besides the fields the hook reads or writes
    (the rest of the request, the tool, the invocation, the response), and
    a chunk of live output. *)
Context {Details Output : Type}.

(** A [ToolCall] of the core scheduler. *)
Record ToolCall : Type := {
  core_status : Status;
  core_callId : string;            (* [request.callId] *)
  core_pid : option Z;
  core_details : Details;
}.

(** A [TrackedToolCall]; an absent field is [None]. *)
Record TrackedToolCall : Type := {
  status : Status;
  callId : string;
  details : Details;
  responseSubmittedToGemini : option bool;
  liveOutput : option Output;
  pid : option Z;
}.

(** [outputUpdateHandler(toolCallId, outputChunk)]. *)
Definition outputUpdateHandler (toolCallId : string) (outputChunk : Output)
    (prevCalls : list TrackedToolCall) : list TrackedToolCall :=
  List.map (fun tc =>
              if String.eqb (callId tc) toolCallId && is_executing (status tc)
              then {| status := status tc; callId := callId tc; details := details tc;
                      responseSubmittedToGemini := responseSubmittedToGemini tc;
                      liveOutput := Some outputChunk; pid := pid tc |}
              else tc)
           prevCalls.

(** [toolCallsUpdateHandler(updatedCoreToolCalls)]. *)
Definition toolCallsUpdateHandler (updatedCoreToolCalls : list ToolCall)
    (prevTrackedCalls : list TrackedToolCall) : list TrackedToolCall :=
  List.map (fun coreTc =>
              let existingTrackedCall :=
                List.find (fun ptc => String.eqb (callId ptc) (core_callId coreTc))
                          prevTrackedCalls in
              let submitted :=
                match existingTrackedCall with
                | Some existing =>
                    match responseSubmittedToGemini existing with
                    | Some flag => flag
                    | None => false
                    end
                | None => false
                end in
              if is_executing (core_status coreTc)
              then {| status := core_status coreTc; callId := core_callId coreTc;
                      details := core_details coreTc;
                      responseSubmittedToGemini := Some submitted;
                      liveOutput := match existingTrackedCall with
                                    | Some existing => liveOutput existing
                                    | None => None
                                    end;
                      pid := core_pid coreTc |}
              else {| status := core_status coreTc; callId := core_callId coreTc;
                      details := core_details coreTc;
                      responseSubmittedToGemini := Some submitted;
                      liveOutput := None; pid := None |})
           updatedCoreToolCalls.

(** [markToolsAsSubmitted(callIdsToMark)]. *)
Definition markToolsAsSubmitted (callIdsToMark : list string)
    (prevCalls : list TrackedToolCall) : list TrackedToolCall :=
  List.map (fun tc =>
              if includes (callId tc) callIdsToMark
              then {| status := status tc; callId := callId tc; details := details tc;
                      responseSubmittedToGemini := Some true;
                      liveOutput := liveOutput tc; pid := pid tc |}
              else tc)
           prevCalls.

(** The updates of the state, in the order React applies them. *)
Inductive Update : Type :=
| OutputUpdate (toolCallId : string) (outputChunk : Output)
| ToolCallsUpdate (updatedCoreToolCalls : list ToolCall)
| MarkSubmitted (callIdsToMark : list string).

Definition apply (u : Update) (calls : list TrackedToolCall) : list TrackedToolCall :=
  match u with
  | OutputUpdate toolCallId outputChunk => outputUpdateHandler toolCallId outputChunk calls
  | ToolCallsUpdate updated => toolCallsUpdateHandler updated calls
  | MarkSubmitted callIdsToMark => markToolsAsSubmitted callIdsToMark calls
  end.

(** The state after a sequence of updates; it starts empty. *)
Definition display (updates : list Update) : list TrackedToolCall :=
  fold_left (fun calls u => apply u calls) updates [].

(** What holds of every tracked call: live output and a process
    identifier belong to an executing call only, and the flag is never
    absent. *)
Definition tracked_ok (tc : TrackedToolCall) : Prop :=
  responseSubmittedToGemini tc <> None
  /\ (status tc <> executing -> liveOutput tc = None /\ pid tc = None).

(** The core calls the scheduler reported last. *)
Definition last_report (updates : list Update) : list ToolCall :=
  fold_left (fun report u => match u with
                             | ToolCallsUpdate updated => updated
                             | _ => report
                             end) updates [].

(** Whether an update marks the calls with identifier [id] as submitted. *)
Definition marks (id : string) (u : Update) : bool :=
  match u with
  | MarkSubmitted callIdsToMark => includes id callIdsToMark
  | _ => false
  end.

(** Whether an update keeps a call with identifier [id] in the state. *)
Definition keeps (id : string) (u : Update) : bool :=
  match u with
  | ToolCallsUpdate updated => includes id (List.map core_callId updated)
  | _ => true
  end.

End Calls.

End ToolScheduler.

(* ===================================================================== *)
(** ** web-fetch.ts: the prompt of the web fetch tool                      *)
(* ===================================================================== *)

Module WebFetch.

Import JsText.

(** The longest run of characters that are not white space, [[^\s]*]. *)
Fixpoint take_nonspace (s : string) : string :=
  match s with
  | EmptyString => EmptyString
  | String c rest => if Js.is_space c then EmptyString else String c (take_nonspace rest)
  end.

(** A match of [https?:\/\/[^\s]+] at the start of [s]. *)
Definition match_url (s : string) : option string :=
  let after (scheme : string) :=
    if String.prefix scheme s
    then
      let run := take_nonspace (drop (String.length scheme) s) in
      if Js.nonempty run then Some (scheme ++ run) else None
    else None in
  match after "https://" with
  | Some url => Some url
  | None => after "http://"
  end.

(** The matches of the global expression from left to right; [skip]
    characters still belong to the match found last. *)
Fixpoint scan (s : string) (skip : nat) : list string :=
  match s with
  | EmptyString => []
  | String _ rest =>
      match skip with
      | S k => scan rest k
      | O =>
          match match_url s with
          | Some url => url :: scan rest (String.length url - 1)
          | None => scan rest 0
          end
      end
  end.

(** [extractUrls(text)]. *)
Definition extractUrls (text : string) : list string := scan text 0.

(** [validateToolParamValues(params)]: the complaint, or [None] for
    [null]. *)
Definition validateToolParamValues (prompt : string) : option string :=
  if negb (Js.nonempty prompt) || String.eqb (Js.trim prompt) ""
  then Some "The 'prompt' parameter cannot be empty and must contain URL(s) and instructions."
  else if negb (contains "http://" prompt) && negb (contains "https://" prompt)
  then Some "The 'prompt' must contain at least one valid URL (starting with http:// or https://)."
  else None.

(** No character of [s] is white space. *)
Fixpoint no_space (s : string) : bool :=
  match s with
  | EmptyString => true
  | String c rest => negb (Js.is_space c) && no_space rest
  end.

End WebFetch.

(* ===================================================================== *)
(** ** paths.ts: paths made short for display                              *)
(* ===================================================================== *)

(** The functions are embedded as they run on a POSIX system: [path.sep] is
    the slash and the root of a path is the slash it begins with, if any. *)
Module Paths.

Import JsText.

Definition sep : ascii := "/"%char.

(** [tildeifyPath(filePath)]; [homeDir] is [os.homedir()]. *)
Definition tildeifyPath (homeDir filePath : string) : string :=
  if Js.startsWith homeDir filePath then replace homeDir "~" filePath else filePath.

(** [path.parse(filePath).root]. *)
Definition root_of (filePath : string) : string :=
  match filePath with
  | String c _ => if Ascii.eqb c sep then "/" else ""
  | EmptyString => ""
  end.

(** [s.split(path.sep)]. *)
Fixpoint split_sep (s : string) : list string :=
  match s with
  | EmptyString => [EmptyString]
  | String c rest =>
      if Ascii.eqb c sep then EmptyString :: split_sep rest
      else
        match split_sep rest with
        | [] => [String c EmptyString]
        | piece :: pieces => String c piece :: pieces
        end
  end.

(** [s.slice(-n)] for [0 < n]. *)
Definition take_last (n : nat) (s : string) : string :=
  drop (String.length s - n) s.

(** The loop of [shortenPath] over the segments between the first and the
    last, from the right: [inner] holds them in reverse order. *)
Fixpoint fill (inner : list string) (budget consumed : Z) (tail : list string)
  : list string :=
  match inner with
  | [] => tail
  | segment :: rest =>
      let cost := (Z.of_nat (String.length segment) + 1)%Z in
      if (budget <? consumed + cost)%Z then tail
      else fill rest budget (consumed + cost)%Z (segment :: tail)
  end.

(** No character of [s] is the separator. *)
Fixpoint no_sep (s : string) : bool :=
  match s with
  | EmptyString => true
  | String c rest => negb (Ascii.eqb c sep) && no_sep rest
  end.

(** [shortenPath(filePath, maxLen)]. *)
Definition shortenPath (filePath : string) (maxLen : Z) : string :=
  if (Z.of_nat (String.length filePath) <=? maxLen)%Z then filePath
  else
    let root := root_of filePath in
    let segments :=
      List.filter Js.nonempty (split_sep (drop (String.length root) filePath)) in
    match segments with
    | [] | [_] =>
        let keep := Z.to_nat (Z.max ((maxLen - 3) / 2) 1) in
        take keep filePath ++ "..." ++ take_last keep filePath
    | first :: others =>
        let last := List.last others EmptyString in
        let inner := List.removelast others in
        let tail :=
          fill (List.rev inner)
               (maxLen - Z.of_nat (String.length root) - Z.of_nat (String.length first) - 4)
               (Z.of_nat (String.length last)) [] in
        let middle :=
          match tail with
          | [] => ""
          | _ => "/" ++ Js.join "/" tail
          end in
        root ++ first ++ "/" ++ "..." ++ middle ++ "/" ++ last
    end.

End Paths.

(* ===================================================================== *)
(** * Properties                                                           *)
(* ===================================================================== *)

(** ** The primitive operations on small inputs *)

Example trim_example : Js.trim (String (ascii_of_nat 9) "  grok-3 ") = "grok-3".
Proof. reflexivity. Qed.

Example toLowerCase_example : Js.toLowerCase "GrOk-Beta 1.5" = "grok-beta 1.5".
Proof. reflexivity. Qed.

Example to_String_example :
  Js.to_String (Js.VArr [Js.VNum 10; Js.VNull; Js.VStr "a"; Js.VBool true]) = "10,,a,true".
Proof. reflexivity. Qed.

Example normalizeModel_examples :
  GrokProvider.normalizeModel (Some " Grok-Beta ") = Some GrokProvider.DEFAULT_MODEL_ID
  /\ GrokProvider.normalizeModel (Some "AUTO") = Some GrokProvider.DEFAULT_MODEL_ID
  /\ GrokProvider.normalizeModel (Some " grok-3-mini") = Some "grok-3-mini"
  /\ GrokProvider.normalizeModel (Some "gemini-2.5-pro") = None
  /\ GrokProvider.normalizeModel (Some "   ") = None.
Proof. repeat split; vm_compute; reflexivity. Qed.

Example countOccurrences_examples :
  GrokToolingSupport.countOccurrences "foo baz foo" "foo" = 2%nat
  /\ GrokToolingSupport.countOccurrences "aaa" "aa" = 1%nat
  /\ GrokToolingSupport.countOccurrences "abc" "" = 0%nat.
Proof. repeat split; reflexivity. Qed.

Example chunk_of_examples :
  GrokContentGenerator.chunk_of (StreamProtocol.delta "Hel")
  = Some (GrokContentGenerator.TextChunk "Hel")
  /\ GrokContentGenerator.chunk_of (StreamProtocol.delta "") = None
  /\ GrokContentGenerator.chunk_of
       (Js.VObj [("event", Js.VStr "toolCall"); ("callId", Js.VStr "c1");
                 ("name", Js.VStr "read_file"); ("arguments", Js.VStr "{}")])
     = Some (GrokContentGenerator.ToolCallChunk "c1" "read_file"
               (GrokContentGenerator.ArgsParseOrSelf "{}"))
  /\ GrokContentGenerator.chunk_of (Js.VObj [("event", Js.VStr "usage")]) = None.
Proof. repeat split; reflexivity. Qed.

(** ** Model resolution *)

Lemma nonempty_true_iff (s : string) : Js.nonempty s = true <-> s <> "".
Proof.
  unfold Js.nonempty. rewrite negb_true_iff. split.
  - intros H ->. discriminate.
  - intros H. apply String.eqb_neq. exact H.
Qed.

(** [normalizeModel] never returns the empty string, so the tests
    [if (configModel)] and [if (envModel)] only ask whether it returned. *)
Lemma normalizeModel_nonempty (v : option string) (m : string) :
  GrokProvider.normalizeModel v = Some m -> Js.nonempty m = true.
Proof.
  unfold GrokProvider.normalizeModel. destruct v as [v|]; [|discriminate].
  destruct (Js.nonempty (Js.trim v)) eqn:Hne; simpl; [|discriminate].
  destruct (String.eqb _ "auto"); [intros [= <-]; reflexivity|].
  case_bool_decide; [intros [= <-]; reflexivity|].
  destruct (Js.startsWith _ _); simpl; [|discriminate].
  intros [= <-]. exact Hne.
Qed.

Lemma usable_normalizeModel (v : option string) :
  GrokProvider.usable (GrokProvider.normalizeModel v) = GrokProvider.normalizeModel v.
Proof.
  destruct (GrokProvider.normalizeModel v) as [m|] eqn:H; [|reflexivity].
  simpl. now rewrite (normalizeModel_nonempty _ _ H).
Qed.

(** The order in which [resolveModel] consults its sources: the
    configuration value, then [GROK_MODEL] if it is set at all, then
    [GROK_MODEL_ID] if [GROK_MODEL] is not set, then the default. *)
Lemma resolveModel_order (cfg : option string) (env : GrokProvider.Env) :
  GrokProvider.resolveModel cfg env =
  match GrokProvider.normalizeModel cfg with
  | Some m => m
  | None =>
      match GrokProvider.GROK_MODEL env with
      | Some primary =>
          default GrokProvider.DEFAULT_MODEL_ID
                  (GrokProvider.normalizeModel (Some primary))
      | None =>
          default GrokProvider.DEFAULT_MODEL_ID
                  (GrokProvider.normalizeModel (GrokProvider.GROK_MODEL_ID env))
      end
  end.
Proof.
  unfold GrokProvider.resolveModel, GrokProvider.getEnvModel.
  rewrite !usable_normalizeModel.
  destruct (GrokProvider.normalizeModel cfg); [reflexivity|].
  destruct (GrokProvider.GROK_MODEL env) as [primary|].
  - destruct (GrokProvider.normalizeModel (Some primary)); reflexivity.
  - destruct (GrokProvider.normalizeModel (GrokProvider.GROK_MODEL_ID env)); reflexivity.
Qed.

(** C9.  With no configuration value, [GROK_MODEL] set to the empty string
    and [GROK_MODEL_ID] set to a usable identifier, [resolveModel] returns
    the built-in default and not the alias: the alias is read only when
    [GROK_MODEL] is absent, as the second equation shows. *)
Theorem resolveModel_blank_primary_skips_alias :
  GrokProvider.resolveModel None
    {| GrokProvider.GROK_MODEL := Some "";
       GrokProvider.GROK_MODEL_ID := Some "grok-3-mini" |}
  = GrokProvider.DEFAULT_MODEL_ID
  /\ GrokProvider.resolveModel None
       {| GrokProvider.GROK_MODEL := None;
          GrokProvider.GROK_MODEL_ID := Some "grok-3-mini" |}
     = "grok-3-mini".
Proof. split; vm_compute; reflexivity. Qed.

(** ** Fallbacks of the tooling helpers *)

(** A field of the reply that is absent, not a string, or a string of white
    space only. *)
Lemma pickString_fallback (v : Js.value) (fallback : string) :
  Js.nonblank_string v = false -> GrokToolingSupport.pickString v fallback = fallback.
Proof.
  destruct v; simpl; try reflexivity. intros ->. reflexivity.
Qed.

Lemma pickString_keeps (s fallback : string) :
  Js.nonblank_string (Js.VStr s) = true ->
  GrokToolingSupport.pickString (Js.VStr s) fallback = s.
Proof. simpl. intros ->. reflexivity. Qed.

(** A key that [params] has takes its value from [params] in
    [{...original, ...params}]. *)
Lemma assoc_spread (k : string) (original params : list (string * Js.value)) :
  existsb (fun kv => String.eqb k (fst kv)) params = true ->
  Js.assoc k (GrokToolingSupport.spread original params) = Js.assoc k params.
Proof.
  intros Hk. unfold GrokToolingSupport.spread.
  set (has := fun (k : string) (l : list (string * Js.value)) =>
                existsb (fun kv => String.eqb k (fst kv)) l).
  set (f := fun kv : string * Js.value =>
              if has (fst kv) params then (fst kv, Js.assoc (fst kv) params) else kv).
  assert (Hnew : has k original = false ->
                 Js.assoc k (List.filter (fun kv => negb (has (fst kv) original)) params)
                 = Js.assoc k params).
  { intros Hno. clear Hk. induction params as [|[k' v] params IH]; [reflexivity|].
    simpl. destruct (has k' original) eqn:Hk'; simpl.
    - destruct (String.eqb k k') eqn:E; [|exact IH].
      apply String.eqb_eq in E as ->. congruence.
    - destruct (String.eqb k k'); [reflexivity | exact IH]. }
  assert (Hgen : forall l,
             has k l = true \/ has k original = false ->
             Js.assoc k (List.map f l
                         ++ List.filter (fun kv => negb (has (fst kv) original)) params)
             = Js.assoc k params).
  { induction l as [|[k' v] l IH]; intros Hl.
    - destruct Hl as [Hl | Hl]; [discriminate | now apply Hnew].
    - simpl. unfold f at 1. simpl.
      destruct (String.eqb k k') eqn:E.
      + apply String.eqb_eq in E as <-. fold (has k params) in Hk. rewrite Hk.
        simpl. now rewrite String.eqb_refl.
      + assert (Hskip : forall w, Js.assoc k ((k', w) :: List.map f l
                          ++ List.filter (fun kv => negb (has (fst kv) original)) params)
                        = Js.assoc k (List.map f l
                          ++ List.filter (fun kv => negb (has (fst kv) original)) params))
          by (intros w; simpl; now rewrite E).
        destruct (has k' params); simpl; rewrite E; apply IH;
          (destruct Hl as [Hl | Hl]; [left; simpl in Hl; now rewrite E in Hl | now right]). }
  apply Hgen. destruct (has k original); auto.
Qed.

(** C10 (as amended).  When the field a helper expects is missing from
    the worker's reply or blank, the helper returns its fallback:
    [summarizeText] the input text, [ensureCorrectFileContent] the input
    content (for a missing or empty [content]), web search and web fetch
    their failure strings for [llmContent] and [returnDisplay], and
    [fixEditWithInstruction] the caller's old and new strings for [search]
    and [replace].  [ensureCorrectEdit] is different: it keeps the
    caller's parameters when the reply has no [params] with string
    [old_string] and [new_string], but when both are strings it takes
    them as they are, empty or blank ones too, in place of the caller's;
    and it counts the occurrences itself when the reply has no numeric
    [occurrences]. *)
Theorem tooling_helpers_fall_back :
  (forall text response,
      Js.nonblank_string (Js.get_opt response "summary") = false ->
      GrokToolingSupport.summarizeText text response = text)
  /\ (forall content response,
      match Js.get_opt response "content" with
      | Js.VStr cleaned => cleaned = ""
      | _ => True
      end ->
      GrokToolingSupport.ensureCorrectFileContent content response = content)
  /\ (forall query payload,
      Js.nonblank_string (Js.get_opt payload "llmContent") = false ->
      GrokToolingSupport.llmContent (GrokToolingSupport.performWebSearch query payload)
      = "Unable to search for " ++ GrokToolingSupport.dquote ++ query
        ++ GrokToolingSupport.dquote ++ ".")
  /\ (forall query payload,
      Js.nonblank_string (Js.get_opt payload "returnDisplay") = false ->
      GrokToolingSupport.returnDisplay (GrokToolingSupport.performWebSearch query payload)
      = "Web search failed.")
  /\ (forall prompt payload,
      Js.nonblank_string (Js.get_opt payload "llmContent") = false ->
      GrokToolingSupport.llmContent (GrokToolingSupport.performWebFetch prompt payload)
      = "Web fetch is unavailable for the Grok provider. Please try again later.")
  /\ (forall prompt payload,
      Js.nonblank_string (Js.get_opt payload "returnDisplay") = false ->
      GrokToolingSupport.returnDisplay (GrokToolingSupport.performWebFetch prompt payload)
      = "Unable to fetch external content.")
  /\ (forall response oldString newString,
      Js.nonblank_string (Js.get_opt response "search") = false ->
      GrokToolingSupport.search
        (GrokToolingSupport.toSearchReplaceEdit response oldString newString) = oldString)
  /\ (forall response oldString newString,
      Js.nonblank_string (Js.get_opt response "replace") = false ->
      GrokToolingSupport.replace
        (GrokToolingSupport.toSearchReplaceEdit response oldString newString) = newString)
  /\ (forall response original,
      match Js.get_opt response "params" with
      | Js.VObj params =>
          Js.is_string (Js.assoc "old_string" params)
          && Js.is_string (Js.assoc "new_string" params) = false
      | _ => True
      end ->
      GrokToolingSupport.resolveParams response original = original)
  /\ (forall response params original oldString newString,
      Js.get_opt response "params" = Js.VObj params ->
      Js.assoc "old_string" params = Js.VStr oldString ->
      Js.assoc "new_string" params = Js.VStr newString ->
      let resolved := GrokToolingSupport.resolveParams response original in
      resolved = GrokToolingSupport.spread original params
      /\ Js.assoc "old_string" resolved = Js.VStr oldString
      /\ Js.assoc "new_string" resolved = Js.VStr newString)
  /\ (forall currentContent oldString response,
      match Js.get_opt response "occurrences" with
      | Js.VNum _ => False
      | _ => True
      end ->
      GrokToolingSupport.resolveOccurrences currentContent oldString response
      = Z.of_nat (GrokToolingSupport.countOccurrences currentContent oldString)).
Proof.
  assert (Hhas : forall k params s,
             Js.assoc k params = Js.VStr s ->
             existsb (fun kv => String.eqb k (fst kv)) params = true).
  { intros k params s. induction params as [|[k' v] params IH]; [discriminate|].
    simpl. destruct (String.eqb k k'); [reflexivity | exact IH]. }
  split; [|split; [|split; [|split; [|split; [|split; [|split; [|split; [|split;
    [|split]]]]]]]]].
  - intros text response H. unfold GrokToolingSupport.summarizeText.
    destruct (Js.get_opt response "summary"); try reflexivity.
    simpl in H. now rewrite H.
  - intros content response H. unfold GrokToolingSupport.ensureCorrectFileContent.
    destruct (Js.get_opt response "content"); try reflexivity.
    subst. reflexivity.
  - intros query payload H.
    unfold GrokToolingSupport.performWebSearch, GrokToolingSupport.toWebToolResult.
    destruct (Js.get_opt payload "sources"); simpl; now apply pickString_fallback.
  - intros query payload H.
    unfold GrokToolingSupport.performWebSearch, GrokToolingSupport.toWebToolResult.
    destruct (Js.get_opt payload "sources"); simpl; now apply pickString_fallback.
  - intros prompt payload H. simpl. now apply pickString_fallback.
  - intros prompt payload H. simpl. now apply pickString_fallback.
  - intros response o n H. simpl. now apply pickString_fallback.
  - intros response o n H. simpl. now apply pickString_fallback.
  - intros response original H. unfold GrokToolingSupport.resolveParams.
    destruct (Js.get_opt response "params"); try reflexivity. now rewrite H.
  - intros response params original o n Hp Ho Hn resolved.
    assert (Hr : resolved = GrokToolingSupport.spread original params).
    { unfold resolved, GrokToolingSupport.resolveParams. now rewrite Hp, Ho, Hn. }
    split; [exact Hr|]. rewrite Hr.
    split; (rewrite assoc_spread; [assumption | eapply Hhas; eassumption]).
  - intros content old response H. unfold GrokToolingSupport.resolveOccurrences.
    destruct (Js.truthy response); [|reflexivity].
    destruct (Js.get_opt response "occurrences"); try reflexivity. contradiction.
Qed.

(** The fallbacks at work: a reply without [summary], an empty [content],
    an empty reply to a search and to a fetch, and a blank [search]. *)
Lemma tooling_helpers_fall_back_witness :
  GrokToolingSupport.summarizeText "fallback text" (Js.VObj [("summary", Js.VStr "")])
    = "fallback text"
  /\ GrokToolingSupport.ensureCorrectFileContent "body" (Js.VObj [("content", Js.VStr "")])
    = "body"
  /\ GrokToolingSupport.returnDisplay (GrokToolingSupport.performWebSearch "foo" Js.VUndefined)
    = "Web search failed."
  /\ GrokToolingSupport.llmContent (GrokToolingSupport.performWebFetch "p" (Js.VObj []))
    = "Web fetch is unavailable for the Grok provider. Please try again later."
  /\ GrokToolingSupport.search
       (GrokToolingSupport.toSearchReplaceEdit
          (Js.VObj [("search", Js.VStr "  "); ("replace", Js.VStr "bar")]) "old" "new")
    = "old".
Proof.
  destruct tooling_helpers_fall_back
    as (Hsum & Hfile & _ & Hdisp & Hfetch & _ & Hsearch & _ & _ & _ & _).
  split; [apply Hsum; reflexivity|].
  split; [apply Hfile; reflexivity|].
  split; [apply Hdisp; reflexivity|].
  split; [apply Hfetch; reflexivity|].
  apply Hsearch; reflexivity.
Defined.

(** C10 as stated fails: the reply to [ensureCorrectEdit] has [params]
    with an empty [old_string] and a blank [new_string].  Both are
    strings, so the helper returns them in place of the caller's: the
    empty values are propagated, there is no fallback. *)
Lemma ensureCorrectEdit_propagates_blank_strings :
  let original := [("file_path", Js.VStr "file"); ("old_string", Js.VStr "baz");
                   ("new_string", Js.VStr "qux")] in
  let response := Js.VObj [("params", Js.VObj [("old_string", Js.VStr "");
                                               ("new_string", Js.VStr "  ")])] in
  GrokToolingSupport.resolveParams response original
  = [("file_path", Js.VStr "file"); ("old_string", Js.VStr "");
     ("new_string", Js.VStr "  ")]
  /\ GrokToolingSupport.resolveParams response original <> original.
Proof. split; [reflexivity | discriminate]. Qed.

(** ** The stream generator *)

Section StreamAdapter.

Import GrokContentGenerator StreamProtocol.
Local Open Scope list_scope.

Lemma chunk_of_not_final (p : Js.value) (c : Chunk) :
  chunk_of p = Some c -> is_final c = false.
Proof.
  unfold chunk_of. intros H.
  repeat match type of H with
         | (if ?b then _ else _) = _ => destruct b
         end; try discriminate; injection H as <-; reflexivity.
Qed.

Lemma render_not_final (events : list Js.value) :
  count_final (render events) = 0.
Proof.
  unfold count_final, render. induction events as [|p events IH]; [reflexivity|].
  simpl. destruct (chunk_of p) as [c|] eqn:Hc; [|exact IH].
  simpl. rewrite (chunk_of_not_final _ _ Hc). exact IH.
Qed.

Lemma count_final_app (xs ys : list Chunk) :
  count_final (xs ++ ys) = count_final xs + count_final ys.
Proof. unfold count_final. now rewrite List.filter_app, length_app. Qed.

Lemma final_is_final (r : Js.value) (c : Chunk) :
  toGenerateContentResponse r = inl c ->
  exists parts, c = FinalChunk parts (Js.get_opt r "usage").
Proof.
  unfold toGenerateContentResponse.
  destruct (Js.get r "message") as [m|]; [|discriminate].
  destruct (Js.or_else _ _); try discriminate.
  intros [= <-]. eauto.
Qed.

Lemma render_app (xs ys : list Js.value) : render (xs ++ ys) = render xs ++ render ys.
Proof. apply omap_app. Qed.

(** Draining the queue yields the first chunk the queue stands for. *)
Lemma drain_some (q rest : list Js.value) (c : Chunk) :
  drain q = (Some c, rest) ->
  render q = c :: render rest /\ length rest < length q.
Proof.
  induction q as [|p q IH]; simpl; [discriminate|].
  unfold render in *. simpl. destruct (chunk_of p) as [c'|].
  - intros [= -> ->]. split; [reflexivity|lia].
  - intros H. destruct (IH H) as [-> Hlen]. split; [reflexivity|lia].
Qed.

Lemma drain_none (q rest : list Js.value) :
  drain q = (None, rest) -> render q = [].
Proof.
  induction q as [|p q IH]; simpl; [reflexivity|].
  unfold render in *. simpl. destruct (chunk_of p) as [c'|]; [discriminate|].
  exact IH.
Qed.

Lemma run_loop_fields (g : Gen) :
  ended (run_loop g) = ended g
  /\ errorFromStream (run_loop g) = errorFromStream g
  /\ listening (run_loop g) = listening g
  /\ resultPromise (run_loop g) = resultPromise g
  /\ (pc (run_loop g) = Suspended \/ pc (run_loop g) = AwaitNext)
  /\ outputs (run_loop g) ++ render (queue (run_loop g)) = outputs g ++ render (queue g)
  /\ (ended g = true -> pendingResolve g = false -> pendingResolve (run_loop g) = false).
Proof.
  unfold run_loop. destruct (drain (queue g)) as [[c|] rest] eqn:Hd; simpl.
  - apply drain_some in Hd as [-> _].
    repeat split; auto. now rewrite <- app_assoc.
  - apply drain_none in Hd as ->.
    repeat split; auto. intros -> _. reflexivity.
Qed.

Ltac loop_fields g :=
  let He := fresh "He" in let Herr := fresh "Herr" in let Hl := fresh "Hl" in
  let Hp := fresh "Hp" in let Hpc := fresh "Hpc" in let Ho := fresh "Ho" in
  let Hpr := fresh "Hpr" in
  destruct (run_loop_fields g) as (He & Herr & Hl & Hp & Hpc & Ho & Hpr).

(** The loop phase of the generator: suspended at a [yield] of the loop or
    at [await waitForNext()], with the chunks yielded and those still
    queued making up what was delivered. *)
Lemma resume_in_loop (g : Gen) (X : list Chunk) :
  ended g = false -> errorFromStream g = None ->
  (pc g = Suspended \/ pc g = AwaitNext) ->
  outputs g ++ render (queue g) = X ->
  ended (resume g) = false
  /\ errorFromStream (resume g) = None
  /\ listening (resume g) = listening g
  /\ resultPromise (resume g) = resultPromise g
  /\ (pc (resume g) = Suspended \/ pc (resume g) = AwaitNext)
  /\ outputs (resume g) ++ render (queue (resume g)) = X.
Proof.
  intros Hend Herr0 Hpc0 HX. loop_fields g.
  assert (Hloop :
    ended (run_loop g) = false /\ errorFromStream (run_loop g) = None
    /\ listening (run_loop g) = listening g
    /\ resultPromise (run_loop g) = resultPromise g
    /\ (pc (run_loop g) = Suspended \/ pc (run_loop g) = AwaitNext)
    /\ outputs (run_loop g) ++ render (queue (run_loop g)) = X)
    by (repeat split; congruence).
  unfold resume. destruct Hpc0 as [E | E]; rewrite E.
  - destruct (demand g =? 0)%nat; [|exact Hloop]. repeat split; auto.
  - destruct (pendingResolve g); [repeat split; auto|].
    rewrite Herr0, Hend, andb_false_r. exact Hloop.
Qed.

(** Once the error signal was delivered the generator yields what is
    queued and then throws the error of the stream. *)
Lemma resume_after_error (g : Gen) (d : list Js.value) (e : JsError) :
  Inv (Errored d e) g -> Inv (Errored d e) (resume g).
Proof.
  simpl. intros (Hend & Hpr & Hpc). loop_fields g.
  assert (Hloop :
    errorFromStream g = Some e -> listening g = true ->
    outputs g ++ render (queue g) = render d ->
    ended (run_loop g) = true /\ pendingResolve (run_loop g) = false
    /\ match pc (run_loop g) with
       | Suspended | AwaitNext =>
           errorFromStream (run_loop g) = Some e /\ listening (run_loop g) = true
           /\ outputs (run_loop g) ++ render (queue (run_loop g)) = render d
       | Threw t => t = ThrowError e
                    /\ outputs (run_loop g) ++ render (queue (run_loop g)) = render d
       | _ => False
       end).
  { intros H1 H2 H3. split; [congruence|]. split; [auto|].
    destruct Hpc0 as [E | E]; rewrite E; repeat split; congruence. }
  unfold resume. destruct (pc g) eqn:Epc; try contradiction.
  - destruct Hpc as (H1 & H2 & H3).
    destruct (demand g =? 0)%nat; [rewrite Epc; intuition auto|].
    apply Hloop; assumption.
  - destruct Hpc as (H1 & H2 & H3). rewrite Hpr, H1. simpl.
    repeat split; auto.
  - rewrite Epc. intuition auto.
Qed.

Lemma step_preserves_Inv (a : Action) (st st' : Stage) (g : Gen) :
  advance a st = Some st' -> Inv st g -> Inv st' (step a g).
Proof.
  intros Hadv HI.
  destruct a as [s | o | | ].
  - (* a signal of the emitter *)
    destruct s as [p | | e]; destruct st; try discriminate;
      injection Hadv as <-; simpl in HI |- *.
    + destruct HI as (Herr & Hend & Hp & Hl & Hpc & Ho). rewrite Hl. simpl.
      repeat split; auto. now rewrite !render_app, app_assoc, Ho.
    + destruct HI as (Herr & Hend & Hp & Hl & Hpc & Ho). rewrite Hl. simpl.
      repeat split; auto. destruct Hpc as [-> | ->]; exact Ho.
    + destruct HI as (Hend & Hpr & Hpc).
      destruct (listening g) eqn:Hl; simpl; repeat split; auto;
        destruct (pc g); intuition congruence.
    + destruct HI as (Herr & Hend & Hp & Hl & Hpc & Ho). rewrite Hl. simpl.
      repeat split; auto. destruct Hpc as [-> | ->]; repeat split; auto.
  - (* the promise settles *)
    destruct o as [| r | e]; destruct st; try discriminate;
      injection Hadv as <-; simpl in HI |- *;
      destruct HI as (Herr & Hend & Hp & Hl & Hpc & Ho); rewrite Hp;
      repeat split; auto.
  - (* a request of the consumer *)
    injection Hadv as <-.
    assert (Hsame : forall P : Gen -> Prop,
               P g -> (forall q e p err l r c d d' o,
                         P {| queue := q; ended := e; pendingResolve := p;
                              errorFromStream := err; listening := l;
                              resultPromise := r; pc := c; demand := d;
                              outputs := o |} ->
                         P {| queue := q; ended := e; pendingResolve := p;
                              errorFromStream := err; listening := l;
                              resultPromise := r; pc := c; demand := d';
                              outputs := o |}) ->
               P (step Next g)).
    { intros P Hg Hd. simpl. destruct g as [q e p err l r c d o]; simpl in *.
      destruct c; auto; eapply Hd; exact Hg. }
    apply Hsame; [exact HI|]. intros; destruct st; exact H.
  - (* the generator runs *)
    injection Hadv as <-. simpl.
    destruct st as [d | d r | d r | d e | d e | d e]; simpl in HI |- *.
    + destruct HI as (Herr & Hend & Hp & Hl & Hpc & Ho).
      destruct (resume_in_loop g _ Hend Herr Hpc Ho) as (? & ? & ? & ? & ? & ?).
      repeat split; auto; congruence.
    + destruct HI as (Herr & Hend & Hp & Hl & Hpc & Ho).
      destruct (resume_in_loop g _ Hend Herr Hpc Ho) as (? & ? & ? & ? & ? & ?).
      repeat split; auto; congruence.
    + destruct HI as (Herr & Hend & Hp & Hpr & Hpc). loop_fields g.
      assert (Hloop :
        errorFromStream (run_loop g) = None /\ ended (run_loop g) = true
        /\ resultPromise (run_loop g) = Fulfilled r
        /\ pendingResolve (run_loop g) = false
        /\ (outputs g ++ render (queue g) = render d ->
            match pc (run_loop g) with
            | Suspended | AwaitNext =>
                outputs (run_loop g) ++ render (queue (run_loop g)) = render d
            | AwaitResult => outputs (run_loop g) = render d
            | AtFinalYield | Returned =>
                exists c, toGenerateContentResponse r = inl c
                          /\ outputs (run_loop g) = render d ++ [c]
            | Threw t => toGenerateContentResponse r = inr t
                         /\ outputs (run_loop g) = render d
            end)).
      { repeat split; try congruence; auto.
        intros HX. destruct Hpc0 as [-> | ->]; congruence. }
      destruct Hloop as (L1 & L2 & L3 & L4 & L5).
      unfold resume. destruct (pc g) eqn:Epc.
      * destruct (demand g =? 0)%nat; [rewrite Epc; repeat split; auto|].
        repeat split; auto. apply L5, Hpc.
      * rewrite Hpr, Herr, Hend, andb_true_r.
        destruct (length (queue g) =? 0)%nat eqn:Hq.
        -- simpl. repeat split; auto.
           apply Nat.eqb_eq in Hq. apply nil_length_inv in Hq.
           rewrite Hq in Hpc. simpl in Hpc. now rewrite app_nil_r in Hpc.
        -- repeat split; auto. apply L5, Hpc.
      * rewrite Hp. destruct (toGenerateContentResponse r) as [c | t] eqn:Hc; simpl.
        -- repeat split; auto. exists c. split; [reflexivity|]. now rewrite Hpc.
        -- repeat split; auto.
      * destruct (demand g =? 0)%nat; [rewrite Epc; intuition auto|].
        simpl. intuition auto.
      * rewrite Epc. intuition auto.
      * rewrite Epc. intuition auto.
    + destruct HI as (Herr & Hend & Hp & Hl & Hpc & Ho).
      destruct (resume_in_loop g _ Hend Herr Hpc Ho) as (? & ? & ? & ? & ? & ?).
      repeat split; auto; congruence.
    + apply (resume_after_error g d e HI).
    + apply (resume_after_error g d e HI).
Qed.

Lemma run_app (xs ys : list Action) (g : Gen) : run (xs ++ ys) g = run ys (run xs g).
Proof. apply fold_left_app. Qed.

Lemma run_preserves_Inv (tr : list Action) :
  forall (st st' : Stage) (g : Gen),
    feed tr st = Some st' -> Inv st g -> Inv st' (run tr g).
Proof.
  induction tr as [|a tr IH]; intros st st' g Hfeed HI; simpl in *.
  - injection Hfeed as <-. exact HI.
  - destruct (advance a st) as [st1|] eqn:Ha; [|discriminate].
    eapply IH; [exact Hfeed|]. eapply step_preserves_Inv; eassumption.
Qed.

(** Only the inputs of a trace move the stage. *)
Lemma feed_inputs (tr : list Action) :
  forall st, feed tr st = feed (inputs tr) st.
Proof.
  induction tr as [|a tr IH]; intros st; [reflexivity|].
  destruct a as [s | o | | ]; [| | apply IH | apply IH].
  - change (inputs (Emit s :: tr)) with (Emit s :: inputs tr).
    cbn [feed]. destruct (advance (Emit s) st); auto.
  - change (inputs (Settle o :: tr)) with (Settle o :: inputs tr).
    cbn [feed]. destruct (advance (Settle o) st); auto.
Qed.

Lemma feed_app (xs ys : list Action) :
  forall st, feed (xs ++ ys) st = feed xs st ≫= feed ys.
Proof.
  induction xs as [|a xs IH]; intros st; simpl; [reflexivity|].
  destruct (advance a st); simpl; auto.
Qed.

Lemma feed_events (events : list Js.value) (rest : list Action) :
  forall d, feed (List.map (fun p => Emit (SigEvent p)) events ++ rest) (Streaming d)
            = feed rest (Streaming (d ++ events)).
Proof.
  induction events as [|p events IH]; intros d; simpl.
  - now rewrite app_nil_r.
  - rewrite IH. now rewrite <- app_assoc.
Qed.

Lemma feed_consume (n : nat) (st : Stage) : feed (consume n) st = Some st.
Proof. induction n as [|n IH]; simpl; auto. Qed.

Lemma feed_normal (tr : list Action) (events : list Js.value) (r : Js.value) :
  inputs tr = normal_inputs events r ->
  feed tr (Streaming []) = Some (Closed events r).
Proof.
  intros H. rewrite feed_inputs, H. unfold normal_inputs. now rewrite feed_events.
Qed.

Lemma feed_failing (tr : list Action) (events : list Js.value) (reason e : JsError) :
  inputs tr = failing_inputs events reason e ->
  feed tr (Streaming []) = Some (ClosedErr events e).
Proof.
  intros H. rewrite feed_inputs, H. unfold failing_inputs. now rewrite feed_events.
Qed.

Lemma Inv_created : Inv (Streaming []) (createStreamGenerator Unsettled).
Proof. simpl. repeat split; auto. Qed.

(** The queue never holds more than was delivered. *)
Lemma run_loop_queue (g : Gen) : length (queue (run_loop g)) <= length (queue g).
Proof.
  unfold run_loop. destruct (drain (queue g)) as [[c|] rest] eqn:Hd; simpl; [|lia].
  apply drain_some in Hd. lia.
Qed.

Lemma resume_queue (g : Gen) : length (queue (resume g)) <= length (queue g).
Proof.
  pose proof (run_loop_queue g) as Hl. unfold resume.
  repeat match goal with
         | |- context [match ?x with _ => _ end] => destruct x
         end; simpl; auto.
Qed.

Lemma step_queue_bound (a : Action) (st st' : Stage) (g : Gen) :
  advance a st = Some st' ->
  length (queue g) <= length (delivered_of st) ->
  length (queue (step a g)) <= length (delivered_of st').
Proof.
  intros Hadv Hb.
  destruct a as [s | o | | ].
  - destruct s as [p | | e]; destruct st; try discriminate;
      injection Hadv as <-; simpl in *; destruct (listening g); simpl;
      rewrite ?length_app; simpl; lia.
  - destruct o; destruct st; try discriminate; injection Hadv as <-; simpl in *; lia.
  - injection Hadv as <-. simpl. destruct (pc g); simpl; exact Hb.
  - injection Hadv as <-. simpl. pose proof (resume_queue g). lia.
Qed.

Lemma run_queue_bound (tr : list Action) :
  forall (st st' : Stage) (g : Gen),
    feed tr st = Some st' ->
    length (queue g) <= length (delivered_of st) ->
    length (queue (run tr g)) <= length (delivered_of st').
Proof.
  induction tr as [|a tr IH]; intros st st' g Hfeed Hb; simpl in *.
  - injection Hfeed as <-. exact Hb.
  - destruct (advance a st) as [st1|] eqn:Ha; [|discriminate].
    eapply IH; [exact Hfeed|]. eapply step_queue_bound; eassumption.
Qed.

(** Whatever happens, the number of final responses yielded is fixed by
    where the generator is: one at and after the final [yield], none
    before and none after a throw. *)
Lemma step_finals (a : Action) (g : Gen) :
  count_final (outputs g) = finals_at (pc g) ->
  count_final (outputs (step a g)) = finals_at (pc (step a g)).
Proof.
  intros H.
  assert (Hloop : pc g = Suspended \/ pc g = AwaitNext ->
                  count_final (outputs (run_loop g)) = finals_at (pc (run_loop g))).
  { intros Hpc. unfold run_loop.
    destruct (drain (queue g)) as [[c|] rest] eqn:Hd; simpl.
    - rewrite count_final_app, H.
      assert (is_final c = false) as Hc.
      { clear -Hd. induction (queue g) as [|p q IH]; simpl in Hd; [discriminate|].
        destruct (chunk_of p) eqn:Hp; [|auto].
        injection Hd as -> _. eapply chunk_of_not_final, Hp. }
      replace (count_final [c]) with 0 by (unfold count_final; simpl; now rewrite Hc).
      destruct Hpc as [-> | ->]; reflexivity.
    - rewrite H. destruct Hpc as [-> | ->]; reflexivity. }
  destruct a as [[p | | e] | o | | ]; simpl.
  - destruct (listening g); exact H.
  - destruct (listening g); exact H.
  - destruct (listening g); exact H.
  - exact H.
  - destruct (pc g) eqn:E; simpl; rewrite ?E; exact H.
  - unfold resume. destruct (pc g) eqn:Epc.
    + destruct (demand g =? 0)%nat; [now rewrite Epc|]. apply Hloop. now left.
    + destruct (pendingResolve g); [now rewrite Epc|].
      destruct (errorFromStream g); [exact H|].
      destruct (_ && _); [exact H|]. apply Hloop. now right.
    + destruct (resultPromise g) as [| r | e]; [now rewrite Epc | | exact H].
      destruct (toGenerateContentResponse r) as [c|t] eqn:Hc; [|exact H].
      simpl. rewrite count_final_app, H.
      apply final_is_final in Hc as [parts ->]. reflexivity.
    + destruct (demand g =? 0)%nat; [now rewrite Epc|]. exact H.
    + now rewrite Epc.
    + now rewrite Epc.
Qed.

Lemma run_finals (tr : list Action) :
  forall g, count_final (outputs g) = finals_at (pc g) ->
            count_final (outputs (run tr g)) = finals_at (pc (run tr g)).
Proof.
  induction tr as [|a tr IH]; intros g H; simpl; [exact H|].
  apply IH, step_finals, H.
Qed.

(** After the stream is closed every request of the consumer brings the
    generator nearer to its completion. *)
Lemma run_loop_fuel (g : Gen) : fuel (run_loop g) < length (queue g) + 4.
Proof.
  unfold run_loop. destruct (drain (queue g)) as [[c|] rest] eqn:Hd.
  - apply drain_some in Hd as [_ Hlen]. unfold fuel. simpl. lia.
  - unfold fuel. simpl. destruct (errorFromStream g); lia.
Qed.

Lemma round_fuel (st : Stage) (g : Gen) :
  (exists d r, st = Closed d r) \/ (exists d e, st = ClosedErr d e) ->
  Inv st g -> finished g = true \/ fuel (round g) < fuel g.
Proof.
  intros Hst HI.
  destruct g as [q en pr err l rp c dm out].
  destruct Hst as [(d & r & ->) | (d & e & ->)]; simpl in HI.
  - destruct HI as (-> & -> & -> & -> & Hpc).
    destruct c; [right | right | right | right | left | left]; try reflexivity.
    + unfold round. cbn [step pc demand]. unfold resume. cbn [pc demand Nat.eqb].
      match goal with |- fuel (run_loop ?g') < _ =>
        pose proof (run_loop_fuel g') as Hf end.
      unfold fuel at 2. simpl in *. lia.
    + unfold round. cbn [step pc demand]. unfold resume.
      cbn [pc pendingResolve errorFromStream queue ended].
      destruct q as [|p q].
      * unfold fuel. simpl. lia.
      * cbn [length Nat.eqb andb].
        match goal with |- fuel (run_loop ?g') < _ =>
          pose proof (run_loop_fuel g') as Hf end.
        unfold fuel at 2. simpl in *. lia.
    + unfold round. cbn [step pc demand]. unfold resume. cbn [pc resultPromise].
      destruct (toGenerateContentResponse r); unfold fuel; simpl; lia.
    + unfold round, fuel. simpl. lia.
  - destruct HI as (-> & -> & Hpc).
    destruct c; try contradiction; [right | right | left]; try reflexivity.
    + unfold round. cbn [step pc demand]. unfold resume. cbn [pc demand Nat.eqb].
      match goal with |- fuel (run_loop ?g') < _ =>
        pose proof (run_loop_fuel g') as Hf end.
      unfold fuel at 2. simpl in *. lia.
    + destruct Hpc as (-> & -> & Ho). unfold round, fuel. simpl. lia.
Qed.

Lemma round_preserves_Inv (st : Stage) (g : Gen) : Inv st g -> Inv st (round g).
Proof.
  intros HI. unfold round.
  apply (step_preserves_Inv Resume st st); [reflexivity|].
  apply (step_preserves_Inv Next st st); [reflexivity|exact HI].
Qed.

Lemma round_finished (g : Gen) : finished g = true -> round g = g.
Proof.
  unfold finished, round. destruct g as [q en pr err l rp c dm out]; simpl.
  destruct c; try discriminate; reflexivity.
Qed.

Lemma consume_finishes (st : Stage) :
  (exists d r, st = Closed d r) \/ (exists d e, st = ClosedErr d e) ->
  forall (n : nat) (g : Gen),
    Inv st g -> fuel g <= n -> finished (run (consume n) g) = true.
Proof.
  intros Hst n. induction n as [|n IH]; intros g HI Hf.
  - simpl. destruct (round_fuel st g Hst HI) as [Hfin | Hlt]; [exact Hfin | lia].
  - change (run (consume (S n)) g) with (run (consume n) (round g)).
    destruct (round_fuel st g Hst HI) as [Hfin | Hlt].
    + rewrite (round_finished g Hfin). apply IH; [exact HI|].
      unfold finished in Hfin. unfold fuel. destruct (pc g); try discriminate; lia.
    + apply IH; [apply round_preserves_Inv, HI | lia].
Qed.

Lemma fuel_bound (g : Gen) : fuel g <= length (queue g) + 4.
Proof.
  unfold fuel. destruct (pc g); try lia.
  destruct (errorFromStream g); [lia|]. destruct (queue g); simpl; lia.
Qed.

(** A chat call that ends well, drained by its consumer: every chunk of
    the events in order, then the final response, then completion. *)
Lemma normal_stream_drained (events : list Js.value) (r : Js.value) (c : Chunk)
    (tr : list Action) (n : nat) :
  inputs tr = normal_inputs events r ->
  toGenerateContentResponse r = inl c ->
  length events + 4 <= n ->
  let g := run (tr ++ consume n) (createStreamGenerator Unsettled) in
  pc g = Returned /\ outputs g = render events ++ [c].
Proof.
  intros Hin Hc Hn g. subst g. rewrite run_app.
  pose proof (feed_normal tr events r Hin) as Hfeed.
  pose proof (run_preserves_Inv tr _ _ _ Hfeed Inv_created) as HI.
  pose proof (run_queue_bound tr _ _ (createStreamGenerator Unsettled) Hfeed
                (Nat.le_refl _)) as Hq.
  simpl in Hq.
  set (g1 := run tr (createStreamGenerator Unsettled)) in *.
  assert (Hfin : finished (run (consume n) g1) = true).
  { eapply consume_finishes; [left; eauto | exact HI |].
    pose proof (fuel_bound g1). lia. }
  pose proof (run_preserves_Inv (consume n) _ _ g1 (feed_consume n _) HI) as HI2.
  unfold finished in Hfin. simpl in HI2.
  destruct HI2 as (_ & _ & _ & _ & Hpc).
  destruct (pc (run (consume n) g1)); try discriminate.
  - destruct Hpc as (c' & Hc' & Ho). rewrite Hc in Hc'. injection Hc' as <-. auto.
  - destruct Hpc as [Hc' _]. congruence.
Qed.

(** A chat call that fails, drained by its consumer: the chunks of the
    events the generator took from its queue, in order, then the error of
    the stream, thrown; the events left in the queue are dropped. *)
Lemma failing_stream_drained (events : list Js.value) (reason e : JsError)
    (tr : list Action) (n : nat) :
  inputs tr = failing_inputs events reason e ->
  length events + 4 <= n ->
  let g := run (tr ++ consume n) (createStreamGenerator Unsettled) in
  pc g = Threw (ThrowError e) /\ outputs g ++ render (queue g) = render events.
Proof.
  intros Hin Hn g. subst g. rewrite run_app.
  pose proof (feed_failing tr events reason e Hin) as Hfeed.
  pose proof (run_preserves_Inv tr _ _ _ Hfeed Inv_created) as HI.
  pose proof (run_queue_bound tr _ _ (createStreamGenerator Unsettled) Hfeed
                (Nat.le_refl _)) as Hq.
  simpl in Hq.
  set (g1 := run tr (createStreamGenerator Unsettled)) in *.
  assert (Hfin : finished (run (consume n) g1) = true).
  { eapply consume_finishes; [right; eauto | exact HI |].
    pose proof (fuel_bound g1). lia. }
  pose proof (run_preserves_Inv (consume n) _ _ g1 (feed_consume n _) HI) as HI2.
  unfold finished in Hfin. simpl in HI2.
  destruct HI2 as (_ & _ & Hpc).
  destruct (pc (run (consume n) g1)); try discriminate; try contradiction.
  destruct Hpc as [-> Ho]. auto.
Qed.




(** C3.  Three delta events "Hel", "lo ", "world", then a result whose
    usage is [{ totalTokens: 10 }], then end-of-stream, however they
    interleave with the consumer: what has been yielded is at every moment
    a prefix of the three text chunks and the final response, and a
    consumer that goes on asking gets exactly these four, in this order,
    the last one carrying the usage, before the generator completes. *)
Theorem three_deltas_then_usage (message : Js.value) (final : Chunk)
    (tr : list Action) (n : nat) :
  inputs tr = normal_inputs [delta "Hel"; delta "lo "; delta "world"] (chat_result message) ->
  toGenerateContentResponse (chat_result message) = inl final ->
  7 <= n ->
  let expected := [TextChunk "Hel"; TextChunk "lo "; TextChunk "world"; final] in
  outputs (run tr (createStreamGenerator Unsettled)) `prefix_of` expected
  /\ pc (run (tr ++ consume n) (createStreamGenerator Unsettled)) = Returned
  /\ outputs (run (tr ++ consume n) (createStreamGenerator Unsettled)) = expected
  /\ exists parts, final = FinalChunk parts usage10.
Proof.
  intros Hin Hc Hn expected.
  assert (Hexp : expected = render [delta "Hel"; delta "lo "; delta "world"] ++ [final])
    by reflexivity.
  split; [|split; [|split]].
  - pose proof (feed_normal tr _ _ Hin) as Hfeed.
    pose proof (run_preserves_Inv tr _ _ _ Hfeed Inv_created) as HI.
    destruct HI as (_ & _ & _ & _ & Hpc). rewrite Hexp.
    set (evs := render [delta "Hel"; delta "lo "; delta "world"]) in *.
    destruct (pc (run tr (createStreamGenerator Unsettled))).
    + exists (render (queue (run tr (createStreamGenerator Unsettled))) ++ [final]).
      now rewrite app_assoc, Hpc.
    + exists (render (queue (run tr (createStreamGenerator Unsettled))) ++ [final]).
      now rewrite app_assoc, Hpc.
    + rewrite Hpc. now exists [final].
    + destruct Hpc as (c' & Hc' & ->). rewrite Hc in Hc'. injection Hc' as <-.
      exists []. now rewrite app_nil_r.
    + destruct Hpc as (c' & Hc' & ->). rewrite Hc in Hc'. injection Hc' as <-.
      exists []. now rewrite app_nil_r.
    + destruct Hpc as [Hc' _]. congruence.
  - apply (normal_stream_drained _ _ final tr n Hin Hc). simpl. lia.
  - rewrite Hexp. apply (normal_stream_drained _ _ final tr n Hin Hc). simpl. lia.
  - apply final_is_final in Hc as [parts ->]. now exists parts.
Qed.

(** The scenario with the events arriving while the consumer waits, the
    second and third in one batch, and an assistant message of one text
    part. *)
Lemma three_deltas_then_usage_witness :
  let message :=
    Js.VObj [("role", Js.VStr "assistant");
             ("content", Js.VArr [Js.VObj [("type", Js.VStr "text");
                                           ("text", Js.VStr "Hello world")]])] in
  let final := FinalChunk [PText (Js.VStr "Hello world")] usage10 in
  let tr := [Next; Resume; Emit (SigEvent (delta "Hel")); Resume; Next;
             Emit (SigEvent (delta "lo ")); Emit (SigEvent (delta "world"));
             Settle (Fulfilled (chat_result message)); Resume; Emit SigEnd] in
  let expected := [TextChunk "Hel"; TextChunk "lo "; TextChunk "world"; final] in
  outputs (run tr (createStreamGenerator Unsettled)) `prefix_of` expected
  /\ pc (run (tr ++ consume 7) (createStreamGenerator Unsettled)) = Returned
  /\ outputs (run (tr ++ consume 7) (createStreamGenerator Unsettled)) = expected
  /\ exists parts, final = FinalChunk parts usage10.
Proof.
  intros message final tr.
  apply (three_deltas_then_usage message final tr 7); [reflexivity | reflexivity | lia].
Defined.

End StreamAdapter.

(** ** The worker bridge *)

Section BridgeProperties.

Import GrokSidecarClient.
Local Open Scope list_scope.

Context (randomUUID : nat -> string) (python : option string).

Local Abbreviation step := (GrokSidecarClient.step randomUUID python).
Local Abbreviation run := (GrokSidecarClient.run randomUUID python).
Local Abbreviation callWithStream := (GrokSidecarClient.callWithStream randomUUID python).
Local Abbreviation wf := (GrokSidecarClient.wf randomUUID).

Lemma bridge_run_app (xs ys : list Action) (b : Bridge) :
  run (xs ++ ys) b = run ys (run xs b).
Proof. apply fold_left_app. Qed.

(** *** What each operation does to the parts of the state *)

Lemma ensureProcess_inl (b b1 : Bridge) (pid : nat) :
  ensureProcess python b = inl (pid, b1) ->
  pending b1 = pending b /\ calls b1 = calls b /\ uuids b1 = uuids b
  /\ tasks b1 = tasks b /\ initialized b1 = initialized b
  /\ child b1 = Some pid
  /\ ((child b = Some pid /\ b1 = b)
      \/ (child b = None /\ pid = length (procs b)
          /\ procs b1 = procs b ++ [{| killed := false; exit_seen := false;
                                       stdin_open := true; stdin_log := [] |}]
          /\ is_Some (pythonExecutable b1))).
Proof.
  unfold ensureProcess. destruct (child b) as [pid0|] eqn:Hc.
  - intros [= <- <-]. repeat split; auto.
  - destruct (match pythonExecutable b with Some exe => Some exe | None => python end)
      as [exe|]; [|discriminate].
    intros [= <- <-]. simpl. repeat split; auto.
Qed.

Lemma callWithStream_inl (action : string) (payload : Js.value) (b b' : Bridge) (h : nat) :
  callWithStream action payload b = inl (h, b') ->
  exists pid b1,
    ensureProcess python b = inl (pid, b1)
    /\ h = length (calls b)
    /\ pending b' = <[randomUUID (uuids b) := h]> (pending b)
    /\ calls b' = calls b ++ [{| requestId := randomUUID (uuids b); promise := Unsettled;
                                 emitted := []; error_listeners := 0;
                                 reacted := false; uncaught := None |}]
    /\ uuids b' = S (uuids b)
    /\ tasks b' = tasks b /\ initialized b' = initialized b
    /\ child b' = Some pid
    /\ pythonExecutable b' = pythonExecutable b1
    /\ procs b' = alter (receive {| req_id := randomUUID (uuids b);
                                        req_action := action;
                                        req_payload := payload |}) pid (procs b1).
Proof.
  unfold GrokSidecarClient.callWithStream.
  destruct (ensureProcess python b) as [[pid b1]|e] eqn:He; [|discriminate].
  intros [= <- <-]. simpl.
  destruct (ensureProcess_inl _ _ _ He) as (-> & -> & -> & -> & -> & -> & _).
  exists pid, b1. repeat split; auto.
Qed.

(** The ['error'] event of a pipe changes nothing of the client object. *)
Lemma on_stdin_error_frame (pid : nat) (b : Bridge) :
  pythonExecutable (on_stdin_error pid b) = pythonExecutable b
  /\ child (on_stdin_error pid b) = child b
  /\ pending (on_stdin_error pid b) = pending b
  /\ initialized (on_stdin_error pid b) = initialized b
  /\ procs (on_stdin_error pid b) = procs b
  /\ calls (on_stdin_error pid b) = calls b
  /\ uuids (on_stdin_error pid b) = uuids b
  /\ tasks (on_stdin_error pid b) = tasks b.
Proof.
  unfold on_stdin_error. destruct (bool_decide _); repeat split; reflexivity.
Qed.

Lemma lookup_reject_all (reason : JsError) (m : gmap string nat) (cs : list CallRec) (h : nat) :
  reject_all reason m cs !! h
  = (fun c => if bool_decide (h ∈ (map_img m : gset nat)) then reject_call reason c else c)
      <$> cs !! h.
Proof. unfold reject_all. apply list_lookup_imap. Qed.

(** *** The invariant *)

Lemma wf_create : wf create.
Proof.
  repeat split; simpl; intros; try discriminate; try contradiction.
Qed.

Lemma wf_callWithStream (action : string) (payload : Js.value) (b b' : Bridge) (h : nat) :
  wf b -> callWithStream action payload b = inl (h, b') -> wf b'.
Proof.
  intros (W1 & W2 & W3 & W4) Hc.
  destruct (callWithStream_inl _ _ _ _ _ Hc)
    as (pid & b1 & He & -> & Hp & Hcs & Hu & Ht & Hi & Hch & Hpy & Hpr).
  destruct (ensureProcess_inl _ _ _ He) as (_ & _ & _ & _ & _ & Hc1 & Hcase).
  repeat split.
  - intros k h0. rewrite Hp, Hcs. intros Hl.
    destruct (decide (randomUUID (uuids b) = k)) as [<- | Hne].
    + rewrite lookup_insert_eq in Hl. injection Hl as <-.
      eexists. split; [apply list_lookup_middle; reflexivity|]. split; reflexivity.
    + rewrite lookup_insert_ne in Hl by exact Hne.
      destruct (W1 _ _ Hl) as (c & Hc0 & Hid & Hpm).
      exists c. split; [|split; assumption]. now apply lookup_app_l_Some.
  - intros k h0. rewrite Hp, Hu. intros Hl.
    destruct (decide (randomUUID (uuids b) = k)) as [<- | Hne].
    + exists (uuids b). split; [lia | reflexivity].
    + rewrite lookup_insert_ne in Hl by exact Hne.
      destruct (W2 _ _ Hl) as (n & Hn & ->). exists n. split; [lia | reflexivity].
  - intros pid0. rewrite Hch, Hpr. intros [= <-]. rewrite length_alter.
    destruct Hcase as [[Hcb ->] | (_ & -> & -> & _)].
    + apply W3, Hcb.
    + rewrite length_app. simpl. lia.
  - rewrite Hpy, Hpr. intros Hne.
    destruct Hcase as [[Hcb ->] | (_ & _ & _ & Hsome)]; [|exact Hsome].
    apply W4. intros Hnil. apply Hne. now rewrite Hnil.
Qed.

Lemma wf_frame (b b' : Bridge) :
  pending b' = pending b -> calls b' = calls b -> uuids b' = uuids b ->
  child b' = child b -> length (procs b') = length (procs b) ->
  pythonExecutable b' = pythonExecutable b ->
  wf b -> wf b'.
Proof.
  intros Hp Hc Hu Hch Hl Hpy (W1 & W2 & W3 & W4).
  repeat split.
  - intros k h. rewrite Hp, Hc. apply W1.
  - intros k h. rewrite Hp, Hu. apply W2.
  - intros pid. rewrite Hch, Hl. apply W3.
  - rewrite Hpy. intros Hne. apply W4. intros Hnil. apply Hne.
    apply nil_length_inv. rewrite Hl, Hnil. reflexivity.
Qed.

Lemma wf_cleared (b b' : Bridge) :
  pending b' = ∅ -> child b' = None ->
  length (procs b') = length (procs b) ->
  pythonExecutable b' = pythonExecutable b ->
  wf b -> wf b'.
Proof.
  intros Hp Hch Hl Hpy (W1 & W2 & W3 & W4).
  repeat split.
  - intros k h. rewrite Hp, lookup_empty. discriminate.
  - intros k h. rewrite Hp, lookup_empty. discriminate.
  - intros pid. rewrite Hch. discriminate.
  - rewrite Hpy. intros Hne. apply W4. intros Hnil. apply Hne.
    apply nil_length_inv. rewrite Hl, Hnil. reflexivity.
Qed.

(** Changing a call without touching its identifier or its promise. *)
Lemma wf_alter_keep (b : Bridge) (h : nat) (f : CallRec -> CallRec) :
  (forall c, requestId (f c) = requestId c /\ promise (f c) = promise c) ->
  wf b -> wf (set_calls (alter f h (calls b)) b).
Proof.
  intros Hf (W1 & W2 & W3 & W4). repeat split; auto.
  intros k h0 Hl. simpl in *. destruct (W1 _ _ Hl) as (c & Hc & Hid & Hpm).
  destruct (decide (h = h0)) as [-> | Hne].
  - exists (f c). rewrite list_lookup_alter_eq, Hc. destruct (Hf c) as [-> ->]. auto.
  - exists c. rewrite list_lookup_alter_ne by exact Hne. auto.
Qed.

(** Settling the call of an entry after removing the entry. *)
Lemma wf_settle_delete (b : Bridge) (id : string) (h : nat) (f : CallRec -> CallRec) :
  pending b !! id = Some h ->
  wf b -> wf (set_calls (alter f h (calls b)) (set_pending (delete id (pending b)) b)).
Proof.
  intros Hid (W1 & W2 & W3 & W4). repeat split; auto; simpl.
  - intros k h0 Hl. apply lookup_delete_Some in Hl as [Hne Hl].
    destruct (W1 _ _ Hl) as (c & Hc & Hk & Hpm).
    exists c. split; [|auto].
    rewrite list_lookup_alter_ne; [exact Hc|].
    intros <-. destruct (W1 _ _ Hid) as (c' & Hc' & Hk' & _). congruence.
  - intros k h0 Hl. apply lookup_delete_Some in Hl as [Hne Hl]. eapply W2, Hl.
Qed.

(** What [handleLine] can do: nothing, or settle the call of an entry it
    removes, or make the emitter of a pending call emit an event. *)
Lemma handleLine_cases (parsed : option Js.value) (b : Bridge) :
  handleLine parsed b = b
  \/ (exists id h f,
        (exists message, parsed = Some message
                         /\ Js.get_opt message "requestId" = Js.VStr id)
        /\ pending b !! id = Some h
        /\ (exists o, f = with_promise (fun p => settle p o))
        /\ handleLine parsed b
           = set_calls (alter f h (calls b)) (set_pending (delete id (pending b)) b))
  \/ (exists id h f,
        (exists message, parsed = Some message
                         /\ Js.get_opt message "requestId" = Js.VStr id)
        /\ pending b !! id = Some h
        /\ (exists v, f = emit_event v)
        /\ handleLine parsed b = set_calls (alter f h (calls b)) b).
Proof.
  unfold handleLine. destruct parsed as [message|]; [|now left].
  destruct (isSidecarMessage message); simpl; [|now left].
  unfold lookup_pending.
  destruct (Js.get_opt message "requestId") as [| | | | rid | |] eqn:Hrid;
    try (repeat match goal with
                | |- context [match ?x with _ => _ end] => destruct x
                end; now left).
  destruct (Js.nonempty rid);
    [|repeat match goal with
             | |- context [match ?x with _ => _ end] => destruct x
             end; now left].
  destruct (pending b !! rid) as [h|] eqn:Hl; simpl;
    [|repeat match goal with
             | |- context [match ?x with _ => _ end] => destruct x
             end; now left].
  destruct (Js.get_opt message "type") as [| | | | ty | |]; try now left.
  destruct (String.eqb ty "event") eqn:E1; [apply String.eqb_eq in E1 as ->|].
  { right; right. eexists rid, h, _. split; [eauto|]. split; [exact Hl|].
    split; [eexists; reflexivity | reflexivity]. }
  destruct (String.eqb ty "result") eqn:E2; [apply String.eqb_eq in E2 as ->|].
  { right; left. eexists rid, h, _. split; [eauto|]. split; [exact Hl|].
    split; [eexists; reflexivity | reflexivity]. }
  destruct (String.eqb ty "error") eqn:E3; [apply String.eqb_eq in E3 as ->|].
  { right; left. eexists rid, h, _. split; [eauto|]. split; [exact Hl|].
    split; [eexists; reflexivity | reflexivity]. }
  left. apply String.eqb_neq in E1, E2, E3.
  repeat match goal with
         | |- context [match ?x with _ => _ end] => destruct x
         end; try reflexivity; congruence.
Qed.

Lemma emit_event_keeps (v : Js.value) (c : CallRec) :
  requestId (emit_event v c) = requestId c /\ promise (emit_event v c) = promise c.
Proof. split; reflexivity. Qed.

Lemma wf_handleLine (parsed : option Js.value) (b : Bridge) :
  wf b -> wf (handleLine parsed b).
Proof.
  intros W.
  destruct (handleLine_cases parsed b)
    as [-> | [(id & h & f & _ & Hl & _ & ->) | (id & h & f & _ & Hl & [v ->] & ->)]].
  - exact W.
  - now apply wf_settle_delete.
  - apply wf_alter_keep; [apply emit_event_keeps | exact W].
Qed.

Lemma wf_cancel (h : nat) (b : Bridge) : wf b -> wf (cancel h b).
Proof.
  intros W. unfold cancel. destruct (calls b !! h) as [c|]; [|exact W].
  case_bool_decide as Hl; [|exact W]. now apply wf_settle_delete.
Qed.

Lemma wf_dispose (b : Bridge) : wf b -> wf (dispose b).
Proof.
  apply wf_cleared; try reflexivity. simpl.
  destruct (child b); [apply length_alter | reflexivity].
Qed.

Lemma wf_on_exit (pid : nat) (code : option Z) (signal : option string) (b : Bridge) :
  wf b -> wf (on_exit pid code signal b).
Proof.
  intros W. unfold on_exit. destruct (procs b !! pid) as [p|]; [|exact W].
  destruct (exit_seen p); [exact W|].
  revert W. apply wf_cleared; try reflexivity. simpl. apply length_insert.
Qed.

Lemma wf_call (action : string) (payload : Js.value) (b : Bridge) :
  wf b -> wf (snd (call randomUUID python action payload b)).
Proof.
  intros W. unfold call.
  destruct (callWithStream action payload b) as [[h b']|e] eqn:Hc; simpl; [|exact W].
  eapply wf_callWithStream; eassumption.
Qed.

Lemma wf_set_tasks (ts : list Task) (b : Bridge) : wf b -> wf (set_tasks ts b).
Proof. apply wf_frame; reflexivity. Qed.

Lemma wf_continue (t : nat) (b : Bridge) : wf b -> wf (continue t b).
Proof.
  intros W. unfold continue.
  destruct (tasks b !! t) as [[k [w | o]]|]; try exact W.
  destruct (awaited_outcome w b) as [[| v | e]|]; try exact W.
  - destruct k.
    + apply wf_set_tasks. destruct (_ && _); [|exact W].
      revert W. apply wf_frame; reflexivity.
    + apply wf_set_tasks, wf_dispose, W.
  - destruct k.
    + apply wf_set_tasks, W.
    + apply wf_set_tasks, wf_dispose, W.
Qed.

Lemma react_call_keeps (c : CallRec) :
  requestId (react_call c) = requestId c /\ promise (react_call c) = promise c.
Proof.
  destruct c as [id p em n r u]. unfold react_call. simpl.
  destruct r; [auto|]. destruct p; simpl; auto.
  destruct (n =? 0)%nat; simpl; auto.
Qed.

Lemma step_wf (a : Action) (b : Bridge) : wf b -> wf (step a b).
Proof.
  intros W. destruct a; simpl.
  - destruct (callWithStream action payload b) as [[h b']|e] eqn:Hc; [|exact W].
    eapply wf_callWithStream; eassumption.
  - apply wf_cancel, W.
  - apply wf_alter_keep; [intros c; split; reflexivity | exact W].
  - apply wf_alter_keep; [intros c; split; reflexivity | exact W].
  - apply wf_handleLine, W.
  - apply wf_on_exit, W.
  - revert W. apply wf_frame; try reflexivity. simpl. apply length_alter.
  - destruct (on_stdin_error_frame pid b) as (H1 & H2 & H3 & _ & H5 & H6 & H7 & _).
    revert W. apply wf_frame; auto. now rewrite H5.
  - apply wf_alter_keep; [apply react_call_keeps | exact W].
  - unfold ensureInitialised. destruct (initialized b); [apply wf_set_tasks, W|].
    destruct (apiKey payload) as [key|]; [|apply wf_set_tasks, W].
    destruct (Js.nonempty key); [|apply wf_set_tasks, W].
    pose proof (wf_call "initialize" (init_value payload) b W) as W'.
    destruct (call randomUUID python "initialize" (init_value payload) b) as [w b'].
    apply wf_set_tasks, W'.
  - unfold shutdown.
    pose proof (wf_call "shutdown" (Js.VObj []) b W) as W'.
    destruct (call randomUUID python "shutdown" (Js.VObj []) b) as [w b'].
    apply wf_set_tasks, W'.
  - apply wf_dispose, W.
  - apply wf_continue, W.
Qed.

(** Every state the bridge reaches is well formed. *)
Lemma run_wf (tr : list Action) : forall b, wf b -> wf (run tr b).
Proof.
  induction tr as [|a tr IH]; intros b W; simpl; [exact W|].
  apply IH, step_wf, W.
Qed.

(** *** Identifiers are not used twice *)

(** A step only adds the identifier it draws to the pending map. *)
Lemma step_pending (a : Action) (b : Bridge) (k : string) (h : nat) :
  pending (step a b) !! k = Some h ->
  pending b !! k = Some h \/ k = randomUUID (uuids b).
Proof.
  assert (Hcall : forall action payload w b',
             call randomUUID python action payload b = (w, b') ->
             pending b' !! k = Some h ->
             pending b !! k = Some h \/ k = randomUUID (uuids b)).
  { intros action payload w b'. unfold call.
    destruct (callWithStream action payload b) as [[h' b1]|e] eqn:Hc;
      intros [= <- <-]; [|auto].
    destruct (callWithStream_inl _ _ _ _ _ Hc) as (_ & _ & _ & _ & -> & _).
    intros Hl. apply lookup_insert_Some in Hl as [[<- _] | [_ Hl]]; auto. }
  assert (Hdisp : pending (dispose b) !! k = Some h -> pending b !! k = Some h)
    by (simpl; rewrite lookup_empty; discriminate).
  destruct a; simpl; auto.
  - destruct (callWithStream action payload b) as [[h' b1]|e] eqn:Hc; [|auto].
    destruct (callWithStream_inl _ _ _ _ _ Hc) as (_ & _ & _ & _ & -> & _).
    intros Hl. apply lookup_insert_Some in Hl as [[<- _] | [_ Hl]]; auto.
  - unfold cancel. destruct (calls b !! h0) as [c|]; [|auto].
    case_bool_decide; [|auto]. simpl. intros Hl.
    apply lookup_delete_Some in Hl as [_ Hl]. auto.
  - destruct (handleLine_cases parsed b)
      as [-> | [(id & h0 & f & _ & _ & _ & ->) | (id & h0 & f & _ & _ & _ & ->)]]; auto.
    simpl. intros Hl. apply lookup_delete_Some in Hl as [_ Hl]. auto.
  - unfold on_exit. destruct (procs b !! pid) as [p|]; [|auto].
    destruct (exit_seen p); [auto|]. simpl. rewrite lookup_empty. discriminate.
  - destruct (on_stdin_error_frame pid b) as (_ & _ & -> & _). auto.
  - unfold ensureInitialised. destruct (initialized b); [auto|].
    destruct (apiKey payload) as [key|]; [|auto].
    destruct (Js.nonempty key); [|auto].
    destruct (call randomUUID python "initialize" (init_value payload) b) as [w b'] eqn:Hc.
    simpl. eapply Hcall, Hc.
  - unfold shutdown.
    destruct (call randomUUID python "shutdown" (Js.VObj []) b) as [w b'] eqn:Hc.
    simpl. eapply Hcall, Hc.
  - unfold continue.
    destruct (tasks b !! t) as [[kd [w | o]]|]; auto.
    destruct (awaited_outcome w b) as [[| v | e]|]; auto.
    + destruct kd; simpl; auto. destruct (_ && _); auto.
    + destruct kd; simpl; auto.
Qed.

Lemma step_uuids (a : Action) (b : Bridge) : uuids b <= uuids (step a b).
Proof.
  assert (Hcall : forall action payload w b',
             call randomUUID python action payload b = (w, b') -> uuids b <= uuids b').
  { intros action payload w b'. unfold call.
    destruct (callWithStream action payload b) as [[h' b1]|e] eqn:Hc;
      intros [= <- <-]; [|lia].
    destruct (callWithStream_inl _ _ _ _ _ Hc) as (_ & _ & _ & _ & _ & _ & -> & _). lia. }
  destruct a; simpl; try lia.
  - destruct (callWithStream action payload b) as [[h' b1]|e] eqn:Hc; [|lia].
    destruct (callWithStream_inl _ _ _ _ _ Hc) as (_ & _ & _ & _ & _ & _ & -> & _). lia.
  - unfold cancel. destruct (calls b !! h) as [c|]; [|lia]. case_bool_decide; simpl; lia.
  - destruct (handleLine_cases parsed b)
      as [-> | [(id & h0 & f & _ & _ & _ & ->) | (id & h0 & f & _ & _ & _ & ->)]]; simpl; lia.
  - unfold on_exit. destruct (procs b !! pid) as [p|]; [|lia].
    destruct (exit_seen p); simpl; lia.
  - destruct (on_stdin_error_frame pid b) as (_ & _ & _ & _ & _ & _ & -> & _). lia.
  - unfold ensureInitialised. destruct (initialized b); [simpl; lia|].
    destruct (apiKey payload) as [key|]; [|simpl; lia].
    destruct (Js.nonempty key); [|simpl; lia].
    destruct (call randomUUID python "initialize" (init_value payload) b) as [w b'] eqn:Hc.
    simpl. eapply Hcall, Hc.
  - unfold shutdown.
    destruct (call randomUUID python "shutdown" (Js.VObj []) b) as [w b'] eqn:Hc.
    simpl. eapply Hcall, Hc.
  - unfold continue.
    destruct (tasks b !! t) as [[kd [w | o]]|]; try lia.
    destruct (awaited_outcome w b) as [[| v | e]|]; try lia.
    + destruct kd; simpl; try lia. destruct (_ && _); simpl; lia.
    + destruct kd; simpl; lia.
Qed.

(** An identifier that was drawn and is no longer pending stays out of the
    pending map for good, because identifiers are not drawn twice. *)
Lemma retired_id_stays_retired (Hinj : Inj (=) (=) randomUUID) (tr : list Action) :
  forall (b : Bridge) (n : nat),
    n < uuids b -> pending b !! randomUUID n = None ->
    pending (run tr b) !! randomUUID n = None.
Proof.
  induction tr as [|a tr IH]; intros b n Hn Hp; simpl; [exact Hp|].
  apply IH.
  - pose proof (step_uuids a b). lia.
  - destruct (pending (step a b) !! randomUUID n) as [h|] eqn:Hl; [|reflexivity].
    apply step_pending in Hl as [Hl | Heq]; [congruence|].
    apply Hinj in Heq. lia.
Qed.

(** A reply for an identifier that is not pending changes nothing. *)
Lemma handleLine_discards (message : Js.value) (id : string) (b : Bridge) :
  Js.get_opt message "requestId" = Js.VStr id ->
  pending b !! id = None ->
  handleLine (Some message) b = b.
Proof.
  intros Hid Hp.
  destruct (handleLine_cases (Some message) b)
    as [H | [(id' & h & f & (m & [= <-] & Hid') & Hl & _)
            | (id' & h & f & (m & [= <-] & Hid') & Hl & _)]];
    [exact H | congruence | congruence].
Qed.

(** *** Cancellation *)

Lemma reached_wf (tr : list Action) : wf (run tr create).
Proof. apply run_wf, wf_create. Qed.

(** After its entry was removed, replies for an identifier that was drawn
    are dropped, whatever happens in between. *)
Lemma late_replies_dropped (Hinj : Inj (=) (=) randomUUID) (b : Bridge) (n : nat) :
  n < uuids b -> pending b !! randomUUID n = None ->
  forall (tr : list Action) (message : Js.value),
    Js.get_opt message "requestId" = Js.VStr (randomUUID n) ->
    pending (run tr b) !! randomUUID n = None
    /\ handleLine (Some message) (run tr b) = run tr b.
Proof.
  intros Hn Hp tr message Hid.
  pose proof (retired_id_stays_retired Hinj tr b n Hn Hp) as Hgone.
  split; [exact Hgone|]. eapply handleLine_discards; eassumption.
Qed.

(** C4.  Cancelling a pending call removes its entry from the pending map
    and rejects its promise with the abort error; nothing is written to the
    worker and no other call changes.  From then on, whatever the bridge
    does, a reply bearing the cancelled identifier finds no entry and
    leaves the bridge as it is: it settles no call, and no later call is
    registered under that identifier. *)
Theorem cancel_is_local_and_late_replies_are_dropped
    (Hinj : Inj (=) (=) randomUUID) (tr0 : list Action) (id : string) (h : nat) :
  pending (run tr0 create) !! id = Some h ->
  let b := run tr0 create in
  let b' := cancel h b in
  pending b' = delete id (pending b)
  /\ promise_of h b' = Some (Rejected createAbortError)
  /\ procs b' = procs b /\ child b' = child b
  /\ (forall h', h' <> h -> calls b' !! h' = calls b !! h')
  /\ (forall (tr : list Action) (message : Js.value),
        Js.get_opt message "requestId" = Js.VStr id ->
        pending (run tr b') !! id = None
        /\ handleLine (Some message) (run tr b') = run tr b').
Proof.
  intros Hl b b'. subst b'.
  destruct (reached_wf tr0) as (W1 & W2 & _). fold b in W1, W2.
  destruct (W1 _ _ Hl) as (c & Hc & Hid & Hpm).
  destruct (W2 _ _ Hl) as (n & Hn & ->).
  unfold cancel. rewrite Hc, Hid. rewrite bool_decide_eq_true_2 by exact Hl.
  split; [reflexivity|]. split; [|split; [reflexivity|split; [reflexivity|split]]].
  - unfold promise_of. simpl. rewrite list_lookup_alter_eq, Hc. simpl.
    now rewrite Hpm.
  - intros h' Hne. simpl. now apply list_lookup_alter_ne.
  - apply late_replies_dropped; auto. simpl. apply lookup_delete_eq.
Qed.

(** *** Exit of the worker *)

Lemma lookup_reject_all_pending (reason : JsError) (b : Bridge) (id : string) (h : nat) :
  wf b -> pending b !! id = Some h ->
  promise <$> reject_all reason (pending b) (calls b) !! h = Some (Rejected reason).
Proof.
  intros (W1 & _) Hl. destruct (W1 _ _ Hl) as (c & Hc & _ & Hpm).
  rewrite lookup_reject_all, Hc. simpl.
  rewrite bool_decide_eq_true_2 by (eapply elem_of_map_img_2, Hl).
  simpl. now rewrite Hpm.
Qed.

(** A call made when there is no child spawns one and writes to it. *)
Lemma callWithStream_spawns (action : string) (payload : Js.value) (b : Bridge) :
  child b = None -> is_Some (pythonExecutable b) ->
  exists s,
    callWithStream action payload b = inl (length (calls b), s)
    /\ child s = Some (length (procs b))
    /\ procs s = procs b ++ [{| killed := false; exit_seen := false; stdin_open := true;
                                stdin_log := [{| req_id := randomUUID (uuids b);
                                                 req_action := action;
                                                 req_payload := payload |}] |}]
    /\ tasks s = tasks b.
Proof.
  intros Hch [exe Hexe]. unfold GrokSidecarClient.callWithStream, ensureProcess.
  rewrite Hch, Hexe. simpl. eexists. split; [reflexivity|]. simpl.
  repeat split.
  replace (length (procs b)) with (length (procs b) + 0) at 1 by lia.
  rewrite alter_app_r. reflexivity.
Qed.

(** C1 (as amended).  When a worker process exits while a call is
    pending, the call's promise is rejected with the error built from the
    signal or the exit code; the pending map is emptied, so a later reply
    bearing the call's identifier finds no entry, whatever the bridge did
    in between; the child and the initialization flag are cleared.  The
    next call, whichever it is, spawns a new process and is the first
    request written to it: no [initialize] request precedes it and the
    flag stays clear.  A new handshake is sent only when that next call is
    [ensureInitialised]. *)
Theorem worker_exit_rejects_pending_and_resets
    (Hinj : Inj (=) (=) randomUUID) (tr0 : list Action) (id : string) (h pid : nat)
    (p : Proc) (code : option Z) (signal : option string) :
  pending (run tr0 create) !! id = Some h ->
  procs (run tr0 create) !! pid = Some p ->
  exit_seen p = false ->
  let b' := on_exit pid code signal (run tr0 create) in
  let fresh_with (r : Request) :=
    {| killed := false; exit_seen := false; stdin_open := true; stdin_log := [r] |} in
  promise_of h b' = Some (Rejected (exit_reason code signal))
  /\ err_message (exit_reason code signal)
     = match signal with
       | Some sig => "Sidecar exited due to signal " ++ sig
       | None => "Sidecar exited with code "
                 ++ match code with
                    | Some n => Js.to_String (Js.VNum n)
                    | None => "null"
                    end
       end%string
  /\ pending b' = ∅ /\ child b' = None /\ initialized b' = false
  /\ (forall (tr : list Action) (message : Js.value),
        Js.get_opt message "requestId" = Js.VStr id ->
        pending (run tr b') !! id = None
        /\ handleLine (Some message) (run tr b') = run tr b')
  /\ (forall (action : string) (payload : Js.value),
        exists s,
          callWithStream action payload b' = inl (length (calls b'), s)
          /\ child s = Some (length (procs b'))
          /\ procs s = procs b' ++ [fresh_with {| req_id := randomUUID (uuids b');
                                                  req_action := action;
                                                  req_payload := payload |}]
          /\ initialized s = false)
  /\ (forall (payload : InitializePayload) (key : string),
        apiKey payload = Some key -> key <> "" ->
        let s := ensureInitialised randomUUID python payload b' in
        procs s = procs b' ++ [fresh_with {| req_id := randomUUID (uuids b');
                                                req_action := "initialize";
                                                req_payload := init_value payload |}]
        /\ tasks s = tasks b' ++ [{| kind := TInit;
                                      tstate := Awaiting (OnCall (length (calls b'))) |}]).
Proof.
  intros Hl Hp Hseen b' fresh_with.
  pose proof (reached_wf tr0) as W. set (b := run tr0 create) in *.
  assert (Hb' : b' = {| pythonExecutable := pythonExecutable b; child := None;
                        pending := ∅; initialized := false;
                        procs := <[pid := {| killed := killed p; exit_seen := true;
                                             stdin_open := false;
                                             stdin_log := stdin_log p |}]> (procs b);
                        calls := reject_all (exit_reason code signal) (pending b) (calls b);
                        uuids := uuids b; tasks := tasks b;
     stdin_errors := stdin_errors b; host_uncaught := host_uncaught b |}).
  { unfold b', on_exit. now rewrite Hp, Hseen. }
  assert (Hpy : is_Some (pythonExecutable b')).
  { rewrite Hb'. simpl. destruct W as (_ & _ & _ & W4). apply W4.
    intros Hnil. rewrite Hnil in Hp. discriminate. }
  assert (Hch : child b' = None) by (rewrite Hb'; reflexivity).
  split; [|split; [|split; [|split; [|split; [|split; [|split]]]]]].
  - rewrite Hb'. unfold promise_of. simpl. eapply lookup_reject_all_pending; eassumption.
  - destruct signal; reflexivity.
  - rewrite Hb'. reflexivity.
  - exact Hch.
  - rewrite Hb'. reflexivity.
  - destruct W as (_ & W2 & _). destruct (W2 _ _ Hl) as (n & Hn & ->).
    apply late_replies_dropped; auto.
    + rewrite Hb'. exact Hn.
    + rewrite Hb'. simpl. apply lookup_empty.
  - intros action payload.
    destruct (callWithStream_spawns action payload b' Hch Hpy) as (s & H1 & H2 & H3 & _).
    exists s. split; [exact H1|]. split; [exact H2|]. split; [exact H3|].
    destruct (callWithStream_inl _ _ _ _ _ H1) as (? & ? & _ & _ & _ & _ & _ & _ & Hi & _).
    rewrite Hi, Hb'. reflexivity.
  - intros payload key Hkey Hne s. subst s. unfold ensureInitialised.
    replace (initialized b') with false by (rewrite Hb'; reflexivity).
    rewrite Hkey. rewrite (proj2 (nonempty_true_iff key) Hne).
    unfold call.
    destruct (callWithStream_spawns "initialize" (init_value payload) b' Hch Hpy)
      as (s & -> & _ & H3 & H4).
    simpl. split; [exact H3 | now rewrite H4].
Qed.

(** *** End-of-stream *)

Lemma end_ok_settle (o : PromiseState) (c : CallRec) :
  end_ok c -> end_ok (with_promise (fun p => settle p o) c).
Proof.
  intros [H1 H2]. split; [exact H1|]. simpl. intros Hr.
  specialize (H2 Hr). destruct (promise c); [discriminate | |]; exact H2.
Qed.

Lemma end_ok_event (v : Js.value) (c : CallRec) : end_ok c -> end_ok (emit_event v c).
Proof.
  intros [H1 H2]. split; [|exact H2].
  unfold count_end in *. simpl. rewrite List.filter_app, length_app. simpl.
  rewrite H1. lia.
Qed.

Lemma end_ok_react (c : CallRec) : end_ok c -> end_ok (react_call c).
Proof.
  destruct c as [id p em n r u]. unfold end_ok, react_call, emit, count_end. simpl.
  intros [H1 H2]. destruct r; [split; assumption|].
  destruct p as [| v | e]; [split; assumption | |].
  - simpl. rewrite List.filter_app, length_app, H1. split; reflexivity.
  - destruct (n =? 0)%nat; simpl.
    + split; [exact H1 | reflexivity].
    + rewrite !List.filter_app, !length_app, H1. split; reflexivity.
Qed.

Lemma end_ok_reject_all (reason : JsError) (m : gmap string nat) (cs : list CallRec) :
  Forall end_ok cs -> Forall end_ok (reject_all reason m cs).
Proof.
  rewrite !Forall_lookup. intros H h c. rewrite lookup_reject_all.
  destruct (cs !! h) as [c0|] eqn:Hc; [|discriminate]. simpl. intros [= <-].
  case_bool_decide; [apply end_ok_settle|]; eapply H, Hc.
Qed.

Lemma end_ok_alter (f : CallRec -> CallRec) (h : nat) (cs : list CallRec) :
  (forall c, end_ok c -> end_ok (f c)) ->
  Forall end_ok cs -> Forall end_ok (alter f h cs).
Proof. intros Hf H. apply Forall_alter; auto. Qed.

Lemma end_ok_call (action : string) (payload : Js.value) (b : Bridge) :
  Forall end_ok (calls b) ->
  Forall end_ok (calls (snd (call randomUUID python action payload b))).
Proof.
  intros H. unfold call.
  destruct (callWithStream action payload b) as [[h b']|e] eqn:Hc; simpl; [|exact H].
  destruct (callWithStream_inl _ _ _ _ _ Hc) as (_ & _ & _ & _ & _ & -> & _).
  apply Forall_app. split; [exact H|]. repeat constructor. discriminate.
Qed.

Lemma end_ok_dispose (b : Bridge) :
  Forall end_ok (calls b) -> Forall end_ok (calls (dispose b)).
Proof. apply end_ok_reject_all. Qed.

Lemma step_end_ok (a : Action) (b : Bridge) :
  Forall end_ok (calls b) -> Forall end_ok (calls (step a b)).
Proof.
  intros H. destruct a; simpl.
  - pose proof (end_ok_call action payload b H) as H'. unfold call in H'.
    destruct (callWithStream action payload b) as [[h b']|e]; [exact H' | exact H].
  - unfold cancel. destruct (calls b !! h) as [c|]; [|exact H].
    case_bool_decide; [|exact H]. simpl.
    apply end_ok_alter; [apply end_ok_settle | exact H].
  - apply end_ok_alter; [|exact H]. intros c [H1 H2]. split; assumption.
  - apply end_ok_alter; [|exact H]. intros c [H1 H2]. split; assumption.
  - destruct (handleLine_cases parsed b)
      as [-> | [(id & h & f & _ & _ & [o ->] & ->) | (id & h & f & _ & _ & [v ->] & ->)]].
    + exact H.
    + simpl. apply end_ok_alter; [apply end_ok_settle | exact H].
    + simpl. apply end_ok_alter; [apply end_ok_event | exact H].
  - unfold on_exit. destruct (procs b !! pid) as [p|]; [|exact H].
    destruct (exit_seen p); [exact H|]. simpl. apply end_ok_reject_all, H.
  - exact H.
  - destruct (on_stdin_error_frame pid b) as (_ & _ & _ & _ & _ & -> & _). exact H.
  - apply end_ok_alter; [apply end_ok_react | exact H].
  - unfold ensureInitialised. destruct (initialized b); [exact H|].
    destruct (apiKey payload) as [key|]; [|exact H].
    destruct (Js.nonempty key); [|exact H].
    pose proof (end_ok_call "initialize" (init_value payload) b H) as H'.
    destruct (call randomUUID python "initialize" (init_value payload) b) as [w b'].
    exact H'.
  - unfold shutdown.
    pose proof (end_ok_call "shutdown" (Js.VObj []) b H) as H'.
    destruct (call randomUUID python "shutdown" (Js.VObj []) b) as [w b'].
    exact H'.
  - apply end_ok_dispose, H.
  - unfold continue.
    destruct (tasks b !! t) as [[k [w | o]]|]; try exact H.
    destruct (awaited_outcome w b) as [[| v | e]|]; try exact H.
    + destruct k; simpl; [|apply end_ok_reject_all, H].
      destruct (_ && _); exact H.
    + destruct k; simpl; [exact H | apply end_ok_reject_all, H].
Qed.

(** X2.  In every state the bridge reaches, the emitter of a call has
    emitted end-of-stream at most once, and only after the promise of the call was
    settled. *)
Lemma end_at_most_once_and_after_settling (tr : list Action) (h : nat) (c : CallRec) :
  calls (run tr create) !! h = Some c ->
  count_end c <= 1 /\ (count_end c = 1 -> is_settled (promise c) = true).
Proof.
  assert (Hall : forall tr b, Forall end_ok (calls b) -> Forall end_ok (calls (run tr b))).
  { clear. intros tr. induction tr as [|a tr IH]; intros b H; simpl; [exact H|].
    apply IH, step_end_ok, H. }
  intros Hc. pose proof (Hall tr create (Forall_nil_2 _)) as H.
  rewrite Forall_lookup in H. destruct (H _ _ Hc) as [H1 H2].
  rewrite H1. destruct (reacted c); [|split; [lia | discriminate]].
  destruct (uncaught c); [split; [lia | discriminate]|]. split; [lia | auto].
Qed.

(** The job of [callWithStream] emits end-of-stream when the promise was
    resolved, or was rejected while a listener for ['error'] is registered;
    without a listener it stops at the throw of [emit]. *)
Lemma react_call_end (c : CallRec) :
  reacted c = false -> count_end c = 0 ->
  count_end (react_call c)
  = match promise c with
    | Unsettled => 0
    | Fulfilled _ => 1
    | Rejected _ => if (error_listeners c =? 0)%nat then 0 else 1
    end.
Proof.
  intros Hr Hc. unfold react_call. rewrite Hr.
  destruct (promise c); [exact Hc | |].
  - unfold count_end in *. simpl. now rewrite List.filter_app, length_app, Hc.
  - unfold emit. destruct (error_listeners c =? 0)%nat.
    + exact Hc.
    + unfold count_end in *. simpl. now rewrite !List.filter_app, !length_app, Hc.
Qed.

(** *** The order of the emissions *)

Lemma shape_settle (o : PromiseState) (c : CallRec) :
  end_ok c -> shape_ok c -> shape_ok (with_promise (fun p => settle p o) c).
Proof.
  destruct c as [id p em n r u]. unfold end_ok, shape_ok, closing, payloads. simpl.
  intros [_ H2] H. destruct r; [|exact H].
  specialize (H2 eq_refl). destruct p; [discriminate | |]; exact H.
Qed.

Lemma shape_event (v : Js.value) (c : CallRec) :
  reacted c = false -> shape_ok c -> shape_ok (emit_event v c).
Proof.
  destruct c as [id p em n r u]. unfold shape_ok, closing, payloads. simpl.
  intros -> H. rewrite app_nil_r in *. rewrite omap_app, map_app. simpl.
  now rewrite <- H.
Qed.

Lemma shape_react (c : CallRec) : shape_ok c -> shape_ok (react_call c).
Proof.
  destruct c as [id p em n r u]. unfold shape_ok, closing, payloads, react_call, emit.
  simpl. destruct r; [auto|]. rewrite app_nil_r.
  destruct p as [| v | e]; simpl; [now rewrite app_nil_r | |].
  - intros H. rewrite omap_app. simpl. rewrite app_nil_r. now rewrite <- H.
  - destruct (n =? 0)%nat; simpl; [now rewrite app_nil_r|].
    intros H. rewrite !omap_app. simpl. rewrite !app_nil_r.
    rewrite <- H. now rewrite <- app_assoc.
Qed.

Lemma shape_reject_all (reason : JsError) (m : gmap string nat) (cs : list CallRec) :
  Forall end_ok cs -> Forall shape_ok cs -> Forall shape_ok (reject_all reason m cs).
Proof.
  rewrite !Forall_lookup. intros He H h c. rewrite lookup_reject_all.
  destruct (cs !! h) as [c0|] eqn:Hc; [|discriminate]. simpl. intros [= <-].
  case_bool_decide; [apply shape_settle; [eapply He, Hc|]|]; eapply H, Hc.
Qed.

Lemma shape_call (action : string) (payload : Js.value) (b : Bridge) :
  Forall shape_ok (calls b) ->
  Forall shape_ok (calls (snd (call randomUUID python action payload b))).
Proof.
  intros H. unfold call.
  destruct (callWithStream action payload b) as [[h b']|e] eqn:Hc; simpl; [|exact H].
  destruct (callWithStream_inl _ _ _ _ _ Hc) as (_ & _ & _ & _ & _ & -> & _).
  apply Forall_app. split; [exact H|]. repeat constructor.
Qed.

Lemma shape_settle_at (o : PromiseState) (h : nat) (cs : list CallRec) :
  Forall end_ok cs -> Forall shape_ok cs ->
  Forall shape_ok (alter (with_promise (fun p => settle p o)) h cs).
Proof.
  rewrite !Forall_lookup. intros He H i c.
  destruct (decide (h = i)) as [<- | Hne].
  - rewrite list_lookup_alter_eq. destruct (cs !! h) as [c0|] eqn:Hc; [|discriminate].
    simpl. intros [= <-]. apply shape_settle; [eapply He, Hc | eapply H, Hc].
  - rewrite list_lookup_alter_ne by exact Hne. apply H.
Qed.

Lemma step_shape (a : Action) (b : Bridge) :
  wf b -> Forall end_ok (calls b) -> Forall shape_ok (calls b) ->
  Forall shape_ok (calls (step a b)).
Proof.
  intros W He H. destruct a; simpl.
  - pose proof (shape_call action payload b H) as H'. unfold call in H'.
    destruct (callWithStream action payload b) as [[h b']|e]; [exact H' | exact H].
  - unfold cancel. destruct (calls b !! h) as [c|]; [|exact H].
    case_bool_decide; [|exact H]. simpl. now apply shape_settle_at.
  - apply Forall_alter; [exact H|]. intros c _ Hc. exact Hc.
  - apply Forall_alter; [exact H|]. intros c _ Hc. exact Hc.
  - destruct (handleLine_cases parsed b)
      as [-> | [(id & h & f & _ & _ & [o ->] & ->) | (id & h & f & _ & Hl & [v ->] & ->)]].
    + exact H.
    + simpl. now apply shape_settle_at.
    + simpl. apply Forall_alter; [exact H|]. intros c Hc Hs.
      apply shape_event; [|exact Hs].
      destruct W as (W1 & _). destruct (W1 _ _ Hl) as (c' & Hc' & _ & Hpm).
      assert (c' = c) as -> by congruence.
      rewrite Forall_lookup in He. destruct (He _ _ Hc) as [_ Hset].
      destruct (reacted c); [|reflexivity].
      specialize (Hset eq_refl). rewrite Hpm in Hset. discriminate.
  - unfold on_exit. destruct (procs b !! pid) as [p|]; [|exact H].
    destruct (exit_seen p); [exact H|]. simpl. now apply shape_reject_all.
  - exact H.
  - destruct (on_stdin_error_frame pid b) as (_ & _ & _ & _ & _ & -> & _). exact H.
  - apply Forall_alter; [exact H|]. intros c _ Hc. now apply shape_react.
  - unfold ensureInitialised. destruct (initialized b); [exact H|].
    destruct (apiKey payload) as [key|]; [|exact H].
    destruct (Js.nonempty key); [|exact H].
    pose proof (shape_call "initialize" (init_value payload) b H) as H'.
    destruct (call randomUUID python "initialize" (init_value payload) b) as [w b'].
    exact H'.
  - unfold shutdown.
    pose proof (shape_call "shutdown" (Js.VObj []) b H) as H'.
    destruct (call randomUUID python "shutdown" (Js.VObj []) b) as [w b'].
    exact H'.
  - now apply shape_reject_all.
  - unfold continue.
    destruct (tasks b !! t) as [[k [w | o]]|]; try exact H.
    destruct (awaited_outcome w b) as [[| v | e]|]; try exact H.
    + destruct k; simpl; [|now apply shape_reject_all].
      destruct (_ && _); exact H.
    + destruct k; simpl; [exact H | now apply shape_reject_all].
Qed.


(** *** A call on a dead input stream *)

Lemma alter_fixed {A} (f : A -> A) (i : nat) (l : list A) (x : A) :
  l !! i = Some x -> f x = x -> alter f i l = l.
Proof.
  intros Hl Hf. apply list_eq. intros j.
  destruct (decide (i = j)) as [<- | Hne].
  - rewrite list_lookup_alter_eq, Hl. simpl. now rewrite Hf.
  - now apply list_lookup_alter_ne.
Qed.

(** C7 (as amended).  A call made while the input stream of the child is
    dead returns to its caller like any other call: the write does not
    throw.  Its request is lost; its correlation is registered and its
    promise is left unsettled; no other call changes.  The bridge does not
    notice the failed write.  What reports it is the ['error'] event of
    the pipe (one per pipe), for which the bridge has no listener: when
    the event is emitted the error is thrown out of the event loop, an
    uncaught exception of the host, and the call is still pending.  The
    call is rejected when a process exits or the bridge is disposed of,
    as every pending call is. *)
Theorem call_on_dead_stdin_stays_pending
    (tr0 : list Action) (pid : nat) (p : Proc) (action : string) (payload : Js.value) :
  child (run tr0 create) = Some pid ->
  procs (run tr0 create) !! pid = Some p ->
  stdin_open p = false ->
  let b := run tr0 create in
  let h := length (calls b) in
  exists s,
    callWithStream action payload b = inl (h, s)
    /\ procs s = procs b
    /\ promise_of h s = Some Unsettled
    /\ pending s = <[randomUUID (uuids b) := h]> (pending b)
    /\ (forall h', h' < h -> calls s !! h' = calls b !! h')
    /\ host_uncaught s = host_uncaught b
    /\ stdin_errors s = (if stdin_failed pid b then stdin_errors b
                         else stdin_errors b ++ [pid])
    /\ (stdin_failed pid b = false ->
        let s' := on_stdin_error pid s in
        host_uncaught s' = host_uncaught b ++ [(pid, EPIPE)]
        /\ promise_of h s' = Some Unsettled
        /\ pending s' = pending s /\ calls s' = calls s
        /\ child s' = child s /\ procs s' = procs s)
    /\ (forall pid' p' code signal,
          procs s !! pid' = Some p' -> exit_seen p' = false ->
          promise_of h (on_exit pid' code signal s)
          = Some (Rejected (exit_reason code signal)))
    /\ promise_of h (dispose s) = Some (Rejected (mkError "Sidecar process terminated")).
Proof.
  intros Hch Hp Hclosed b h.
  destruct (callWithStream action payload b) as [[h0 s]|e] eqn:Hcall.
  2:{ unfold GrokSidecarClient.callWithStream, ensureProcess in Hcall.
      fold b in Hch. rewrite Hch in Hcall. discriminate. }
  pose proof (wf_callWithStream _ _ _ _ _ (reached_wf tr0) Hcall) as Ws.
  destruct (callWithStream_inl _ _ _ _ _ Hcall)
    as (pid1 & b1 & He & -> & Hpend & Hcalls & _ & _ & _ & Hchs & _ & Hprocs).
  destruct (ensureProcess_inl _ _ _ He) as (_ & _ & _ & _ & _ & _ & Hcase).
  fold b in Hch, Hp.
  destruct Hcase as [[Hch1 ->] | [Hnone _]]; [|congruence].
  assert (pid1 = pid) as -> by congruence.
  assert (Hlook : pending s !! randomUUID (uuids b) = Some (length (calls b)))
    by (rewrite Hpend; apply lookup_insert_eq).
  assert (Hsame : procs s = procs b).
  { rewrite Hprocs. eapply alter_fixed; [exact Hp|].
    unfold receive. now rewrite Hclosed. }
  assert (Hpm : promise_of (length (calls b)) s = Some Unsettled).
  { unfold promise_of. rewrite Hcalls, list_lookup_middle; reflexivity. }
  assert (Herr : host_uncaught s = host_uncaught b
                 /\ stdin_errors s = (if stdin_failed pid b then stdin_errors b
                                      else stdin_errors b ++ [pid])).
  { unfold GrokSidecarClient.callWithStream in Hcall. rewrite He in Hcall.
    injection Hcall as <-. simpl. split; [reflexivity|].
    unfold write_fails, stdin_failed. simpl. rewrite Hp, Hclosed. simpl.
    destruct (_ || _); reflexivity. }
  destruct Herr as [Hhost Hdue].
  exists s. split; [reflexivity|].
  split; [exact Hsame|]. split; [exact Hpm|]. split; [exact Hpend|].
  split; [|split; [exact Hhost|split; [exact Hdue|split; [|split]]]].
  - intros h' Hlt. rewrite Hcalls. now apply lookup_app_l.
  - intros Hnew s'. subst s'. rewrite Hnew in Hdue.
    unfold on_stdin_error. rewrite bool_decide_eq_true_2
      by (rewrite Hdue; apply elem_of_app; right; apply list_elem_of_singleton; reflexivity).
    simpl. rewrite Hhost. repeat split; auto.
  - intros pid' p' code signal Hp' Hseen. unfold on_exit. rewrite Hp', Hseen.
    unfold promise_of. simpl. eapply lookup_reject_all_pending; eassumption.
  - unfold promise_of. simpl. eapply lookup_reject_all_pending; eassumption.
Qed.

(** *** Shutdown *)

(** An async method that awaits an unsettled call stays where it is,
    however often its continuation is tried. *)
Lemma continue_waits (b : Bridge) (t h : nat) (k : TaskKind) :
  tasks b !! t = Some {| kind := k; tstate := Awaiting (OnCall h) |} ->
  promise_of h b = Some Unsettled ->
  forall n, run (repeat (AContinue t) n) b = b.
Proof.
  intros Ht Hh n. induction n as [|n IH]; [reflexivity|].
  simpl. replace (continue t b) with b; [exact IH|].
  unfold continue. rewrite Ht. unfold awaited_outcome.
  unfold promise_of in Hh. destruct (calls b !! h) as [c|]; [|discriminate].
  simpl in Hh. injection Hh as ->. reflexivity.
Qed.

(** C6 (as amended).  [shutdown] writes a [shutdown] request to the worker
    and waits for that call; as long as the call is not settled its
    continuation does nothing, however often it is tried.  Once the call is
    settled (by a result, an error reply, a cancellation or an exit) the
    continuation disposes of the bridge: the child is marked killed and
    forgotten, the flag is cleared, the pending map is emptied and every
    call that was pending is rejected with "Sidecar process terminated". *)
Theorem shutdown_waits_for_its_call_then_disposes (tr0 : list Action) :
  let b := run tr0 create in
  (forall pid p,
      child b = Some pid -> procs b !! pid = Some p -> stdin_open p = true ->
      let s := shutdown randomUUID python b in
      tasks s = tasks b ++ [{| kind := TShutdown;
                               tstate := Awaiting (OnCall (length (calls b))) |}]
      /\ pending s !! randomUUID (uuids b) = Some (length (calls b))
      /\ stdin_log <$> procs s !! pid
         = Some (stdin_log p ++ [{| req_id := randomUUID (uuids b);
                                    req_action := "shutdown";
                                    req_payload := Js.VObj [] |}]))
  /\ (forall t h,
      tasks b !! t = Some {| kind := TShutdown; tstate := Awaiting (OnCall h) |} ->
      promise_of h b = Some Unsettled ->
      forall n, run (repeat (AContinue t) n) b = b)
  /\ (forall t h o,
      tasks b !! t = Some {| kind := TShutdown; tstate := Awaiting (OnCall h) |} ->
      promise_of h b = Some o -> is_settled o = true ->
      let s := continue t b in
      tasks s !! t = Some {| kind := TShutdown; tstate := Done (Fulfilled Js.VUndefined) |}
      /\ child s = None /\ initialized s = false /\ pending s = ∅
      /\ (forall pid, child b = Some pid -> killed <$> procs s !! pid = Some true)
      /\ (forall id h', pending b !! id = Some h' ->
            promise_of h' s = Some (Rejected (mkError "Sidecar process terminated")))).
Proof.
  intros b. pose proof (reached_wf tr0) as W. fold b in W.
  split; [|split].
  - intros pid p Hch Hp Hopen s. subst s.
    unfold shutdown, call, GrokSidecarClient.callWithStream, ensureProcess.
    rewrite Hch. simpl. split; [reflexivity|]. split; [apply lookup_insert_eq|].
    rewrite list_lookup_alter_eq, Hp. simpl. unfold receive. now rewrite Hopen.
  - intros t h Ht Hh. eapply continue_waits; eassumption.
  - intros t h o Ht Hh Hset s. subst s.
    assert (Hcont : continue t b
                    = set_tasks (<[t := {| kind := TShutdown;
                                           tstate := Done (Fulfilled Js.VUndefined) |}]>
                                   (tasks (dispose b))) (dispose b)).
    { unfold continue. rewrite Ht. unfold awaited_outcome.
      unfold promise_of in Hh. destruct (calls b !! h) as [c|]; [|discriminate].
      simpl in Hh. injection Hh as <-. rewrite Hset.
      destruct (promise c); [discriminate| |]; reflexivity. }
    rewrite Hcont.
    split; [|split; [|split; [|split; [|split]]]]; try reflexivity.
    + simpl. apply list_lookup_insert_eq. eapply lookup_lt_Some, Ht.
    + intros pid Hch. simpl. rewrite Hch.
      destruct W as (_ & _ & W3 & _). specialize (W3 _ Hch).
      apply lookup_lt_is_Some in W3 as [p Hp].
      now rewrite list_lookup_alter_eq, Hp.
    + intros id h' Hl. unfold promise_of. simpl.
      eapply lookup_reject_all_pending; eassumption.
Qed.

(** *** Initialization *)

(** The flag stays set through every action but the three that clear it. *)
Lemma step_initialized (a : Action) (b : Bridge) :
  initialized b = true -> resets a b = false -> initialized (step a b) = true.
Proof.
  intros Hi Hr.
  assert (Hcall : forall action payload,
             initialized (call randomUUID python action payload b).2 = true).
  { intros action payload. unfold call.
    destruct (callWithStream action payload b) as [[h b']|e] eqn:Hc; [|exact Hi].
    destruct (callWithStream_inl _ _ _ _ _ Hc) as (? & ? & _ & _ & _ & _ & _ & _ & Hi' & _).
    simpl. now rewrite Hi'. }
  destruct a; simpl in *.
  - specialize (Hcall action payload). unfold call in Hcall.
    destruct (callWithStream action payload b) as [[h b']|e]; exact Hcall.
  - unfold cancel. destruct (calls b !! h) as [c|]; [|exact Hi].
    case_bool_decide; exact Hi.
  - exact Hi.
  - exact Hi.
  - destruct (handleLine_cases parsed b)
      as [-> | [(id & h & f & _ & _ & _ & ->) | (id & h & f & _ & _ & _ & ->)]];
      exact Hi.
  - unfold on_exit. destruct (procs b !! pid) as [p|]; [|exact Hi].
    destruct (exit_seen p); [exact Hi | discriminate].
  - exact Hi.
  - destruct (on_stdin_error_frame pid b) as (_ & _ & _ & H & _). now rewrite H.
  - exact Hi.
  - unfold ensureInitialised. rewrite Hi. exact Hi.
  - unfold shutdown. specialize (Hcall "shutdown" (Js.VObj [])).
    destruct (call randomUUID python "shutdown" (Js.VObj []) b) as [w b']. exact Hcall.
  - discriminate.
  - unfold continue.
    destruct (tasks b !! t) as [[k [w | o]]|]; try exact Hi.
    destruct k.
    + destruct (awaited_outcome w b) as [[| v | e]|]; try exact Hi.
      simpl. destruct (_ && _); [reflexivity | exact Hi].
    + destruct (awaited_outcome w b) as [[| v | e]|]; try exact Hi; discriminate.
Qed.

Lemma run_initialized (tr : list Action) :
  forall b : Bridge,
    initialized b = true -> undisturbed randomUUID python tr b = true ->
    initialized (run tr b) = true.
Proof.
  induction tr as [|a tr IH]; intros b Hi Hu; simpl; [exact Hi|].
  simpl in Hu. apply andb_true_iff in Hu as [Hr Hu]. apply negb_true_iff in Hr.
  apply IH; [now apply step_initialized | exact Hu].
Qed.

(** C8 (as amended).  The first [ensureInitialised] resolves, with no
    value, when its [initialize] call is answered with a result.  If the
    result is an object the flag is set, and then every later call of
    [ensureInitialised], whatever happens in between short of an exit
    event, [dispose()] or a completed [shutdown()], sends nothing to the
    worker, changes neither the pending map nor any call nor any process,
    and resolves the same way.  If the result is anything else (null,
    absent, a number, a string, a boolean) the flag is left as it was, and
    while it is clear the next call writes another [initialize] request
    to the worker. *)
Theorem initialize_is_idempotent_once_flag_is_set
    (b : Bridge) (t h : nat) (result : Js.value) :
  tasks b !! t = Some {| kind := TInit; tstate := Awaiting (OnCall h) |} ->
  promise_of h b = Some (Fulfilled result) ->
  let s1 := continue t b in
  let resolved := {| kind := TInit; tstate := Done (Fulfilled Js.VUndefined) |} in
  tasks s1 !! t = Some resolved
  /\ (Js.truthy result && Js.typeof_object result = true ->
      initialized s1 = true
      /\ forall (tr : list Action) (payload : InitializePayload),
           undisturbed randomUUID python tr s1 = true ->
           let s := run tr s1 in
           let s2 := ensureInitialised randomUUID python payload s in
           initialized s = true
           /\ procs s2 = procs s /\ pending s2 = pending s /\ calls s2 = calls s
           /\ uuids s2 = uuids s /\ child s2 = child s
           /\ stdin_errors s2 = stdin_errors s
           /\ tasks s2 = tasks s ++ [resolved])
  /\ (Js.truthy result && Js.typeof_object result = false ->
      initialized s1 = initialized b
      /\ procs s1 = procs b /\ pending s1 = pending b /\ calls s1 = calls b
      /\ forall (payload : InitializePayload) (key : string) (pid : nat) (p : Proc),
           initialized b = false ->
           apiKey payload = Some key -> key <> "" ->
           child b = Some pid -> procs b !! pid = Some p -> stdin_open p = true ->
           let s2 := ensureInitialised randomUUID python payload s1 in
           stdin_log <$> procs s2 !! pid
           = Some (stdin_log p ++ [{| req_id := randomUUID (uuids b);
                                      req_action := "initialize";
                                      req_payload := init_value payload |}])
           /\ tasks s2 = tasks s1 ++ [{| kind := TInit;
                                         tstate := Awaiting (OnCall (length (calls b))) |}]).
Proof.
  intros Ht Hh s1 resolved.
  assert (Hs1 : s1 = set_tasks (<[t := resolved]> (tasks b))
                       (if Js.truthy result && Js.typeof_object result
                        then set_initialized true b else b)).
  { unfold s1, continue. rewrite Ht. unfold awaited_outcome.
    unfold promise_of in Hh. destruct (calls b !! h) as [c|]; [|discriminate].
    simpl in Hh. injection Hh as Hh. rewrite Hh. simpl.
    destruct (Js.truthy result && Js.typeof_object result); reflexivity. }
  split; [|split].
  - rewrite Hs1. simpl. apply list_lookup_insert_eq. eapply lookup_lt_Some, Ht.
  - intros Hobj. rewrite Hobj in Hs1.
    assert (Hinit : initialized s1 = true) by (rewrite Hs1; reflexivity).
    split; [exact Hinit|].
    intros tr payload Hu s s2.
    assert (Hi : initialized s = true) by (apply run_initialized; assumption).
    split; [exact Hi|].
    unfold s2, ensureInitialised. rewrite Hi. repeat split; reflexivity.
  - intros Hobj. rewrite Hobj in Hs1.
    split; [rewrite Hs1; reflexivity|]. split; [rewrite Hs1; reflexivity|].
    split; [rewrite Hs1; reflexivity|]. split; [rewrite Hs1; reflexivity|].
    intros payload key pid p Hclear Hkey Hne Hch Hp Hopen s2. subst s2.
    unfold ensureInitialised.
    replace (initialized s1) with false by (rewrite Hs1; simpl; now rewrite Hclear).
    rewrite Hkey, (proj2 (nonempty_true_iff key) Hne).
    unfold call, GrokSidecarClient.callWithStream, ensureProcess.
    replace (child s1) with (Some pid) by (rewrite Hs1; simpl; now rewrite Hch).
    simpl. rewrite Hs1. simpl. split; [|reflexivity].
    rewrite list_lookup_alter_eq, Hp. simpl. unfold receive. now rewrite Hopen.
Qed.

End BridgeProperties.

Lemma append_cancel_l (p x y : string) : (p ++ x = p ++ y)%string -> x = y.
Proof.
  induction p as [|c p IH]; simpl; [auto|]. intros [= H]. auto.
Qed.

(** The identifiers of the worked examples are pairwise distinct. *)
Lemma uuid_of_inj : Inj (=) (=) GrokSidecarClient.uuid_of.
Proof.
  intros n m H. unfold GrokSidecarClient.uuid_of in H.
  apply append_cancel_l in H.
  apply (f_equal NilEmpty.uint_of_string) in H.
  rewrite !NilEmpty.usu in H. injection H as H.
  rewrite <- (DecimalNat.Unsigned.of_to n), <- (DecimalNat.Unsigned.of_to m).
  now rewrite H.
Qed.

Section BridgeExamples.

Import GrokSidecarClient.
Local Open Scope list_scope.

Local Abbreviation run := (GrokSidecarClient.run uuid_of (Some "python3")).

(** A web search is cancelled while it is pending; later the worker
    answers it. *)
Lemma cancel_is_local_and_late_replies_are_dropped_witness :
  let b := run [ACall "tooling.webSearch" (Js.VObj [("query", Js.VStr "foo")])] create in
  let b' := cancel 0 b in
  pending b !! uuid_of 0 = Some 0
  /\ promise_of 0 b' = Some (Rejected createAbortError)
  /\ procs b' = procs b
  /\ handleLine (Some (reply "result" (uuid_of 0) (Js.VObj [("llmContent", Js.VStr "late")])))
                (run [ACall "chat" Js.VNull] b')
     = run [ACall "chat" Js.VNull] b'.
Proof.
  intros b b'.
  assert (Hl : pending b !! uuid_of 0 = Some 0) by (vm_compute; reflexivity).
  destruct (cancel_is_local_and_late_replies_are_dropped uuid_of (Some "python3")
              uuid_of_inj _ _ _ Hl) as (_ & Hrej & Hprocs & _ & _ & Hlate).
  split; [exact Hl|]. split; [exact Hrej|]. split; [exact Hprocs|].
  apply Hlate. reflexivity.
Defined.

(** C1 as stated fails: the bridge is initialized and a chat call is
    pending when the worker exits with code 1; then a tool result is sent.
    That call spawns a second worker and is the only request written to
    it: no handshake is sent, and the flag stays clear. *)
Lemma call_after_exit_skips_the_handshake :
  let creds := {| apiKey := Some "key"; api_key := Some "key";
                  model := None; pythonPath := None |} in
  let b0 := run [AEnsureInitialised creds;
                 ALine (Some (reply "result" (uuid_of 0) (Js.VObj [])));
                 AContinue 0;
                 ACall "chat" Js.VNull] create in
  let b := run [AExit 0 (Some 1%Z) None; ACall "toolResult" Js.VNull] b0 in
  initialized b0 = true
  /\ promise_of 1 b = Some (Rejected (mkError "Sidecar exited with code 1"))
  /\ child b = Some 1
  /\ List.map req_action <$> (stdin_log <$> procs b !! 1) = Some ["toolResult"]
  /\ initialized b = false.
Proof. vm_compute. repeat split. Qed.

(** The amended statement at work: a chat call is pending when the worker
    exits with code 1. *)
Lemma worker_exit_rejects_pending_and_resets_witness :
  let b := run [ACall "chat" Js.VNull] create in
  let b' := on_exit 0 (Some 1%Z) None b in
  pending b !! uuid_of 0 = Some 0
  /\ promise_of 0 b' = Some (Rejected (mkError "Sidecar exited with code 1"))
  /\ pending b' = ∅ /\ child b' = None /\ initialized b' = false
  /\ handleLine (Some (reply "result" (uuid_of 0) Js.VNull)) (run [ACall "chat" Js.VNull] b')
     = run [ACall "chat" Js.VNull] b'.
Proof.
  intros b b'.
  assert (Hl : pending b !! uuid_of 0 = Some 0) by (vm_compute; reflexivity).
  assert (Hp : procs b !! 0 = Some {| killed := false; exit_seen := false;
                                      stdin_open := true;
                                      stdin_log := [{| req_id := uuid_of 0;
                                                       req_action := "chat";
                                                       req_payload := Js.VNull |}] |})
    by (vm_compute; reflexivity).
  destruct (worker_exit_rejects_pending_and_resets uuid_of (Some "python3")
              uuid_of_inj _ _ _ _ _ (Some 1%Z) None Hl Hp eq_refl)
    as (Hrej & _ & Hpend & Hchild & Hinit & Hlate & _).
  split; [exact Hl|]. split; [exact Hrej|]. split; [exact Hpend|].
  split; [exact Hchild|]. split; [exact Hinit|].
  apply Hlate. reflexivity.
Defined.

(** C5.  A chat call made through [chat()], which registers no listener
    on the emitter, is answered by the worker with an error; the promise is
    rejected, and when the job registered by [callWithStream] runs, the
    emitter throws the error it is asked to emit: end-of-stream is never
    emitted, and the error leaves the job uncaught.  The same happens when
    the worker exits instead of answering. *)
Theorem rejected_call_without_error_listener_emits_no_end :
  (let b := run [ACall "chat" Js.VNull;
                 ALine (Some (error_reply (uuid_of 0) "boom"));
                 AReact 0; AReact 0] create in
   promise_of 0 b = Some (Rejected (mkError "boom"))
   /\ emitted <$> calls b !! 0 = Some []
   /\ count_end <$> calls b !! 0 = Some 0
   /\ uncaught <$> calls b !! 0 = Some (Some (mkError "boom")))
  /\ (let b := run [ACall "chat" Js.VNull; AExit 0 None (Some "SIGKILL");
                    AReact 0; AReact 0] create in
      promise_of 0 b = Some (Rejected (mkError "Sidecar exited due to signal SIGKILL"))
      /\ count_end <$> calls b !! 0 = Some 0).
Proof. split; vm_compute; repeat split. Qed.

(** C6 as stated fails: a chat call is pending when [shutdown] is called
    and the worker answers nothing.  However often the continuation of
    [shutdown] is tried, it is still waiting: the child is neither killed
    nor forgotten and the chat call is not rejected. *)
Lemma shutdown_waits_without_bound :
  ~ (exists n : nat,
        let s := run ([ACall "chat" Js.VNull; AShutdown] ++ repeat (AContinue 0) n) create in
        tasks s !! 0 <> Some {| kind := TShutdown; tstate := Awaiting (OnCall 1) |}
        \/ child s <> Some 0
        \/ killed <$> procs s !! 0 <> Some false
        \/ promise_of 0 s <> Some Unsettled).
Proof.
  intros [n H]. cbv zeta in H. rewrite bridge_run_app in H.
  set (s1 := run [ACall "chat" Js.VNull; AShutdown] create) in H.
  assert (Hfix : forall k, run (repeat (AContinue 0) k) s1 = s1).
  { intros k.
    apply (continue_waits uuid_of (Some "python3") s1 0 1 TShutdown);
      vm_compute; reflexivity. }
  rewrite Hfix in H.
  destruct H as [H | [H | [H | H]]]; apply H; vm_compute; reflexivity.
Qed.

(** The amended statement at work: [shutdown] with a chat call pending,
    then the worker's acknowledgement. *)
Lemma shutdown_waits_for_its_call_then_disposes_witness :
  let b := run [ACall "chat" Js.VNull; AShutdown;
                ALine (Some (reply "result" (uuid_of 1) (Js.VObj [])))] create in
  let s := continue 0 b in
  tasks s !! 0 = Some {| kind := TShutdown; tstate := Done (Fulfilled Js.VUndefined) |}
  /\ child s = None /\ initialized s = false /\ pending s = ∅
  /\ killed <$> procs s !! 0 = Some true
  /\ promise_of 0 s = Some (Rejected (mkError "Sidecar process terminated")).
Proof.
  intros b s.
  destruct (shutdown_waits_for_its_call_then_disposes uuid_of (Some "python3")
              [ACall "chat" Js.VNull; AShutdown;
               ALine (Some (reply "result" (uuid_of 1) (Js.VObj [])))])
    as (_ & _ & Hdone).
  destruct (Hdone 0 1 (Fulfilled (Js.VObj []))) as (H1 & H2 & H3 & H4 & H5 & H6);
    [vm_compute; reflexivity | vm_compute; reflexivity | reflexivity |].
  split; [exact H1|]. split; [exact H2|]. split; [exact H3|]. split; [exact H4|].
  split; [apply H5; vm_compute; reflexivity|].
  apply (H6 (uuid_of 0)). vm_compute. reflexivity.
Defined.

(** C7 as stated fails: the input stream of the child is closed, then a
    web search is requested.  The request does not reach the worker, and
    the call is not failed: its promise stays unsettled and its entry stays
    in the pending map.  The pipe reports the failed write with an
    ['error'] event; nobody listens, so the host has an uncaught
    exception, and the call is pending as before. *)
Lemma call_on_dead_stdin_is_not_failed :
  let b := run [ACall "chat" Js.VNull; AStdinClosed 0;
                ACall "tooling.webSearch" (Js.VObj [("query", Js.VStr "foo")]);
                AStdinError 0] create in
  promise_of 1 b = Some Unsettled
  /\ pending b !! uuid_of 1 = Some 1
  /\ List.map req_action <$> (stdin_log <$> procs b !! 0) = Some ["chat"]
  /\ host_uncaught b = [(0, mkError "write EPIPE")].
Proof. vm_compute. repeat split. Qed.

(** The amended statement at work, on the same trace. *)
Lemma call_on_dead_stdin_stays_pending_witness :
  let b := run [ACall "chat" Js.VNull; AStdinClosed 0] create in
  exists s,
    GrokSidecarClient.callWithStream uuid_of (Some "python3")
      "tooling.webSearch" (Js.VObj [("query", Js.VStr "foo")]) b = inl (1, s)
    /\ procs s = procs b
    /\ promise_of 1 s = Some Unsettled
    /\ stdin_errors s = [0]
    /\ host_uncaught (on_stdin_error 0 s) = [(0, EPIPE)]
    /\ promise_of 1 (on_stdin_error 0 s) = Some Unsettled
    /\ promise_of 1 (on_exit 0 (Some 0%Z) None s)
       = Some (Rejected (mkError "Sidecar exited with code 0")).
Proof.
  intros b.
  destruct (call_on_dead_stdin_stays_pending uuid_of (Some "python3")
              [ACall "chat" Js.VNull; AStdinClosed 0] 0
              {| killed := false; exit_seen := false; stdin_open := false;
                 stdin_log := [{| req_id := uuid_of 0; req_action := "chat";
                                  req_payload := Js.VNull |}] |}
              "tooling.webSearch" (Js.VObj [("query", Js.VStr "foo")]))
    as (s & Hcall & Hprocs & Hpm & _ & _ & _ & Hdue & Herr & Hexit & _);
    [vm_compute; reflexivity | vm_compute; reflexivity | reflexivity |].
  destruct (Herr eq_refl) as (Hhost & Hpm' & _).
  exists s. split; [exact Hcall|]. split; [exact Hprocs|]. split; [exact Hpm|].
  split; [exact Hdue|]. split; [exact Hhost|]. split; [exact Hpm'|].
  eapply (Hexit 0 _ (Some 0%Z) None).
  - rewrite Hprocs. vm_compute. reflexivity.
  - reflexivity.
Defined.

(** C8 as stated fails: the worker answers the handshake with a result
    whose payload is [null].  The first [ensureInitialised] resolves, the
    flag stays clear, and the second call sends a second [initialize]
    request. *)
Lemma second_initialize_after_non_object_result :
  let creds := {| apiKey := Some "key"; api_key := Some "key";
                  model := None; pythonPath := None |} in
  let b1 := run [AEnsureInitialised creds;
                 ALine (Some (reply "result" (uuid_of 0) Js.VNull));
                 AContinue 0] create in
  let b2 := run [AEnsureInitialised creds] b1 in
  tasks b1 !! 0 = Some {| kind := TInit; tstate := Done (Fulfilled Js.VUndefined) |}
  /\ initialized b1 = false
  /\ List.map req_action <$> (stdin_log <$> procs b1 !! 0) = Some ["initialize"]
  /\ List.map req_action <$> (stdin_log <$> procs b2 !! 0) = Some ["initialize"; "initialize"]
  /\ tasks b2 !! 1 = Some {| kind := TInit; tstate := Awaiting (OnCall 1) |}.
Proof. vm_compute. repeat split. Qed.

(** The amended statement at work: the handshake is answered with a
    capability object; a chat call is made and answered; and
    [ensureInitialised] is called again. *)
Lemma initialize_is_idempotent_once_flag_is_set_witness :
  let creds := {| apiKey := Some "key"; api_key := Some "key";
                  model := None; pythonPath := None |} in
  let b := run [AEnsureInitialised creds;
                ALine (Some (reply "result" (uuid_of 0)
                               (Js.VObj [("capabilities", Js.VArr [])])))] create in
  let s1 := continue 0 b in
  let s := run [ACall "chat" Js.VNull;
                ALine (Some (reply "result" (uuid_of 1) (Js.VObj [])))] s1 in
  let s2 := ensureInitialised uuid_of (Some "python3") creds s in
  initialized s1 = true /\ initialized s = true
  /\ procs s2 = procs s /\ pending s2 = pending s
  /\ tasks s2 = tasks s ++ [{| kind := TInit; tstate := Done (Fulfilled Js.VUndefined) |}].
Proof.
  intros creds b s1 s s2.
  destruct (initialize_is_idempotent_once_flag_is_set uuid_of (Some "python3") b 0 0
              (Js.VObj [("capabilities", Js.VArr [])]))
    as (_ & Hset & _);
    [vm_compute; reflexivity | vm_compute; reflexivity |].
  destruct (Hset eq_refl) as [H1 Hlater].
  destruct (Hlater [ACall "chat" Js.VNull;
                    ALine (Some (reply "result" (uuid_of 1) (Js.VObj [])))] creds)
    as (H2 & H3 & H4 & _ & _ & _ & _ & H5); [vm_compute; reflexivity|].
  split; [exact H1|]. split; [exact H2|]. split; [exact H3|]. split; [exact H4|]. exact H5.
Defined.

(** The scenario of C3 from the worker's lines on: the bridge turns three
    [event] lines and a [result] line for a chat call into three events and
    end-of-stream on the call's emitter and a resolved promise; fed with
    these, the generator yields the three text chunks and the final
    response. *)
Example chat_scenario_end_to_end :
  let result := StreamProtocol.chat_result (Js.VObj []) in
  let b := run [ACall "chat" (Js.VObj [("sessionId", Js.VStr "s")]);
                AListenError 0;
                ALine (Some (reply "event" (uuid_of 0) (StreamProtocol.delta "Hel")));
                ALine (Some (reply "event" (uuid_of 0) (StreamProtocol.delta "lo ")));
                ALine (Some (reply "event" (uuid_of 0) (StreamProtocol.delta "world")));
                ALine (Some (reply "result" (uuid_of 0) result));
                AReact 0] create in
  emitted <$> calls b !! 0
  = Some [SigEvent (StreamProtocol.delta "Hel"); SigEvent (StreamProtocol.delta "lo ");
          SigEvent (StreamProtocol.delta "world"); SigEnd]
  /\ promise_of 0 b = Some (Fulfilled result)
  /\ GrokContentGenerator.outputs
       (GrokContentGenerator.run
          ([GrokContentGenerator.Next; GrokContentGenerator.Resume;
            GrokContentGenerator.Emit (SigEvent (StreamProtocol.delta "Hel"));
            GrokContentGenerator.Emit (SigEvent (StreamProtocol.delta "lo "));
            GrokContentGenerator.Emit (SigEvent (StreamProtocol.delta "world"));
            GrokContentGenerator.Settle (Fulfilled result);
            GrokContentGenerator.Emit SigEnd]
           ++ StreamProtocol.consume 7)
          (GrokContentGenerator.createStreamGenerator Unsettled))
     = [GrokContentGenerator.TextChunk "Hel"; GrokContentGenerator.TextChunk "lo ";
        GrokContentGenerator.TextChunk "world";
        GrokContentGenerator.FinalChunk [GrokContentGenerator.PText (Js.VStr "")]
          StreamProtocol.usage10].
Proof. vm_compute. repeat split. Qed.

End BridgeExamples.

(* ===================================================================== *)
(** * Further properties of the code                                   *)
(* ===================================================================== *)

(** ** The added operations on small inputs *)

Example split_ws_examples :
  JsText.split_ws "use  grok" = ["use"; "grok"]
  /\ JsText.split_ws " a" = [""; "a"]
  /\ JsText.split_ws "a " = ["a"; ""]
  /\ JsText.split_ws " " = [""; ""]
  /\ JsText.split_ws "" = [""].
Proof. repeat split; reflexivity. Qed.

Example replace_examples :
  JsText.replace "/blob/" "/" "https://github.com/a/b/blob/main/blob/x"
  = "https://github.com/a/b/main/blob/x"
  /\ JsText.replace "" "~" "abc" = "~abc"
  /\ JsText.replace "zz" "y" "abc" = "abc"
  /\ JsText.contains "http://" "see http://x" = true
  /\ JsText.contains "" "" = true.
Proof. repeat split; reflexivity. Qed.

(** ** More about the worker bridge *)

Section BridgeCoverage.

Import GrokSidecarClient GrokSidecarCalls.
Local Open Scope list_scope.

Context (randomUUID : nat -> string) (python : option string).

Local Abbreviation step := (GrokSidecarClient.step randomUUID python).
Local Abbreviation run := (GrokSidecarClient.run randomUUID python).
Local Abbreviation callWithStream := (GrokSidecarClient.callWithStream randomUUID python).
Local Abbreviation call := (GrokSidecarClient.call randomUUID python).
Local Abbreviation wf := (GrokSidecarClient.wf randomUUID).

(** *** The pending map *)

Lemma idle_ok_call (action : string) (payload : Js.value) (b : Bridge) :
  idle_ok b -> idle_ok (call action payload b).2.
Proof.
  intros I. unfold GrokSidecarClient.call.
  destruct (callWithStream action payload b) as [[h b']|e] eqn:Hc; simpl; [|exact I].
  destruct (callWithStream_inl _ _ _ _ _ _ _ Hc)
    as (pid & b1 & _ & _ & _ & _ & _ & _ & _ & Hch & _).
  intros Hnone. congruence.
Qed.

Lemma idle_ok_frame (b b' : Bridge) :
  child b' = child b -> pending b' = pending b -> idle_ok b -> idle_ok b'.
Proof. unfold idle_ok. intros -> ->. auto. Qed.

Lemma idle_ok_delete (b b' : Bridge) (id : string) :
  child b' = child b -> pending b' = delete id (pending b) -> idle_ok b -> idle_ok b'.
Proof.
  unfold idle_ok. intros -> -> I Hn. rewrite (I Hn). apply delete_empty.
Qed.

Lemma step_idle (a : Action) (b : Bridge) : idle_ok b -> idle_ok (step a b).
Proof.
  intros I. destruct a; simpl.
  - pose proof (idle_ok_call action payload b I) as H.
    unfold GrokSidecarClient.call in H.
    destruct (callWithStream action payload b) as [[h b']|e]; exact H.
  - unfold cancel. destruct (calls b !! h) as [c|]; [|exact I].
    case_bool_decide; [|exact I].
    eapply idle_ok_delete; [| |exact I]; reflexivity.
  - eapply idle_ok_frame; [| |exact I]; reflexivity.
  - eapply idle_ok_frame; [| |exact I]; reflexivity.
  - destruct (handleLine_cases parsed b)
      as [-> | [(id & h & f & _ & _ & _ & ->) | (id & h & f & _ & _ & _ & ->)]].
    + exact I.
    + eapply idle_ok_delete; [| |exact I]; reflexivity.
    + eapply idle_ok_frame; [| |exact I]; reflexivity.
  - unfold on_exit. destruct (procs b !! pid) as [p|]; [|exact I].
    destruct (exit_seen p); [exact I|]. intros _. reflexivity.
  - eapply idle_ok_frame; [| |exact I]; reflexivity.
  - destruct (on_stdin_error_frame pid b) as (_ & Hc & Hp & _).
    eapply idle_ok_frame; [exact Hc | exact Hp | exact I].
  - eapply idle_ok_frame; [| |exact I]; reflexivity.
  - unfold ensureInitialised. destruct (initialized b); [exact I|].
    destruct (apiKey payload) as [key|]; [|exact I].
    destruct (Js.nonempty key); [|exact I].
    pose proof (idle_ok_call "initialize" (init_value payload) b I) as H.
    destruct (call "initialize" (init_value payload) b) as [w b']. exact H.
  - unfold shutdown.
    pose proof (idle_ok_call "shutdown" (Js.VObj []) b I) as H.
    destruct (call "shutdown" (Js.VObj []) b) as [w b']. exact H.
  - intros _. reflexivity.
  - unfold continue.
    destruct (tasks b !! t) as [[k [w | o]]|]; try exact I.
    destruct (awaited_outcome w b) as [[| v | e]|]; try exact I.
    + destruct k; simpl; [|intros _; reflexivity].
      destruct (_ && _); exact I.
    + destruct k; simpl; [exact I | intros _; reflexivity].
Qed.

Lemma reached_idle (tr : list Action) : idle_ok (run tr create).
Proof.
  assert (H : forall tr b, idle_ok b -> idle_ok (run tr b)).
  { clear. intros tr. induction tr as [|a tr IH]; intros b I; simpl; [exact I|].
    apply IH, step_idle, I. }
  apply H. intros _. reflexivity.
Qed.

(** X1.  In every state the bridge reaches, whatever the interleaving:
    an entry of the pending map belongs to a call that bears the key as
    its identifier and whose promise is not settled; no two keys lead to
    the same call; a call whose promise is settled has no entry; and
    without a child process the map is empty. *)
Theorem pending_entries_are_unsettled_calls (tr : list Action) :
  let b := run tr create in
  (forall k h, pending b !! k = Some h ->
     exists c, calls b !! h = Some c /\ requestId c = k /\ promise c = Unsettled)
  /\ (forall k1 k2 h, pending b !! k1 = Some h -> pending b !! k2 = Some h -> k1 = k2)
  /\ (forall h c, calls b !! h = Some c -> is_settled (promise c) = true ->
        forall k, pending b !! k <> Some h)
  /\ (child b = None -> pending b = ∅).
Proof.
  intros b. destruct (reached_wf randomUUID python tr) as (W1 & _). fold b in W1.
  split; [exact W1|]. split; [|split].
  - intros k1 k2 h H1 H2.
    destruct (W1 _ _ H1) as (c1 & Hc1 & <- & _).
    destruct (W1 _ _ H2) as (c2 & Hc2 & <- & _). congruence.
  - intros h c Hc Hs k Hk.
    destruct (W1 _ _ Hk) as (c' & Hc' & _ & Hp).
    assert (c' = c) as -> by congruence. rewrite Hp in Hs. discriminate.
  - apply reached_idle.
Qed.

(** *** A settled promise stays as it is *)

Lemma keeps_settled_refl (cs : list CallRec) : keeps_settled cs cs.
Proof. intros h c Hc _. eauto. Qed.

Lemma keeps_settled_alter (f : CallRec -> CallRec) (h : nat) (cs : list CallRec) :
  (forall c, is_settled (promise c) = true -> promise (f c) = promise c) ->
  keeps_settled cs (alter f h cs).
Proof.
  intros Hf h' c Hc Hs. destruct (decide (h' = h)) as [->|Hne].
  - exists (f c). rewrite list_lookup_alter_eq, Hc. split; [reflexivity | auto].
  - exists c. rewrite list_lookup_alter_ne by auto. auto.
Qed.

Lemma settle_settled (p o : PromiseState) : is_settled p = true -> settle p o = p.
Proof. destruct p; [discriminate | reflexivity | reflexivity]. Qed.

Lemma keeps_settled_reject_all (reason : JsError) (m : gmap string nat)
    (cs : list CallRec) : keeps_settled cs (reject_all reason m cs).
Proof.
  intros h c Hc Hs. rewrite lookup_reject_all, Hc. simpl.
  case_bool_decide; eexists; (split; [reflexivity|]); [|reflexivity].
  simpl. now apply settle_settled.
Qed.

Lemma keeps_settled_call (action : string) (payload : Js.value) (b : Bridge) :
  keeps_settled (calls b) (calls (call action payload b).2).
Proof.
  unfold GrokSidecarClient.call.
  destruct (callWithStream action payload b) as [[h b']|e] eqn:Hc; simpl;
    [|apply keeps_settled_refl].
  destruct (callWithStream_inl _ _ _ _ _ _ _ Hc) as (_ & _ & _ & _ & _ & -> & _).
  intros h' c Hl _. exists c. split; [|reflexivity].
  apply lookup_app_l_Some, Hl.
Qed.

Lemma step_keeps_settled (a : Action) (b : Bridge) :
  keeps_settled (calls b) (calls (step a b)).
Proof.
  destruct a; simpl; try apply keeps_settled_refl.
  - pose proof (keeps_settled_call action payload b) as H.
    unfold GrokSidecarClient.call in H.
    destruct (callWithStream action payload b) as [[h b']|e]; exact H.
  - unfold cancel. destruct (calls b !! h) as [c|]; [|apply keeps_settled_refl].
    case_bool_decide; [|apply keeps_settled_refl]. simpl.
    apply keeps_settled_alter. intros c0 Hs. simpl. now apply settle_settled.
  - apply keeps_settled_alter. reflexivity.
  - apply keeps_settled_alter. reflexivity.
  - destruct (handleLine_cases parsed b)
      as [-> | [(id & h & f & _ & _ & [o ->] & ->) | (id & h & f & _ & _ & [v ->] & ->)]].
    + apply keeps_settled_refl.
    + simpl. apply keeps_settled_alter. intros c Hs. simpl. now apply settle_settled.
    + simpl. apply keeps_settled_alter. reflexivity.
  - unfold on_exit. destruct (procs b !! pid) as [p|]; [|apply keeps_settled_refl].
    destruct (exit_seen p); [apply keeps_settled_refl|]. simpl.
    apply keeps_settled_reject_all.
  - unfold on_stdin_error. destruct (bool_decide _); apply keeps_settled_refl.
  - apply keeps_settled_alter. intros c _. apply react_call_keeps.
  - unfold ensureInitialised. destruct (initialized b); [apply keeps_settled_refl|].
    destruct (apiKey payload) as [key|]; [|apply keeps_settled_refl].
    destruct (Js.nonempty key); [|apply keeps_settled_refl].
    pose proof (keeps_settled_call "initialize" (init_value payload) b) as H.
    destruct (call "initialize" (init_value payload) b) as [w b']. exact H.
  - unfold shutdown.
    pose proof (keeps_settled_call "shutdown" (Js.VObj []) b) as H.
    destruct (call "shutdown" (Js.VObj []) b) as [w b']. exact H.
  - apply keeps_settled_reject_all.
  - unfold continue.
    destruct (tasks b !! t) as [[k [w | o]]|]; try apply keeps_settled_refl.
    destruct (awaited_outcome w b) as [[| v | e]|]; try apply keeps_settled_refl.
    + destruct k; simpl; [|apply keeps_settled_reject_all].
      destruct (_ && _); apply keeps_settled_refl.
    + destruct k; simpl; [apply keeps_settled_refl | apply keeps_settled_reject_all].
Qed.

(** A settled promise keeps its outcome whatever happens to the bridge
    afterwards. *)
Lemma settled_promise_is_final (tr : list Action) :
  forall (b : Bridge) (h : nat) (o : PromiseState),
    promise_of h b = Some o -> is_settled o = true ->
    promise_of h (run tr b) = Some o.
Proof.
  induction tr as [|a tr IH]; intros b h o Hp Hs; simpl; [exact Hp|].
  apply IH; [|exact Hs]. unfold promise_of in *.
  destruct (calls b !! h) as [c|] eqn:Hc; [|discriminate].
  simpl in Hp. injection Hp as <-.
  destruct (step_keeps_settled a b h c Hc Hs) as (c' & -> & Hc'). simpl. now rewrite Hc'.
Qed.

(** *** Lines of the worker *)

Ltac crunch_matches :=
  repeat match goal with
         | |- context [match ?x with _ => _ end] => destruct x
         end; try reflexivity.

(** What a line does depends on the bridge only through the entry of the
    identifier it bears. *)
Lemma handleLine_route (m : Js.value) :
  exists eff : option (bool * (CallRec -> CallRec) * string),
    (forall del f id, eff = Some (del, f, id) ->
       isSidecarMessage m = true /\ Js.get_opt m "requestId" = Js.VStr id)
    /\ forall b : Bridge,
         handleLine (Some m) b
         = match eff with
           | Some (del, f, id) =>
               match pending b !! id with
               | Some h =>
                   set_calls (alter f h (calls b))
                     (if del then set_pending (delete id (pending b)) b else b)
               | None => b
               end
           | None => b
           end.
Proof.
  destruct (isSidecarMessage m) eqn:Hm.
  2:{ exists None. split; [discriminate|]. intros b. unfold handleLine. now rewrite Hm. }
  destruct (Js.get_opt m "requestId") as [| | | | rid | |] eqn:Hrid.
  1-4,6-7: exists None; (split; [discriminate|]); intros st;
    unfold handleLine, lookup_pending; rewrite Hm, Hrid; simpl; crunch_matches.
  destruct (Js.nonempty rid) eqn:Hne.
  2:{ exists None. split; [discriminate|]. intros b.
      unfold handleLine, lookup_pending. rewrite Hm, Hrid, Hne. simpl. crunch_matches. }
  destruct (Js.get_opt m "type") as [| | | | ty | |] eqn:Hty.
  1-4,6-7: exists None; (split; [discriminate|]); intros st;
    unfold handleLine, lookup_pending; rewrite Hm, Hrid, Hne, Hty; simpl; crunch_matches.
  destruct (String.eqb ty "event") eqn:E1; [apply String.eqb_eq in E1 as ->|].
  { exists (Some (false, emit_event (Js.get_opt m "payload"), rid)).
    split; [intros del f id [= <- <- <-]; auto|]. intros b.
    unfold handleLine, lookup_pending. rewrite Hm, Hrid, Hne, Hty. simpl.
    destruct (pending b !! rid); reflexivity. }
  destruct (String.eqb ty "result") eqn:E2; [apply String.eqb_eq in E2 as ->|].
  { exists (Some (true, resolve_call (Js.get_opt m "payload"), rid)).
    split; [intros del f id [= <- <- <-]; auto|]. intros b.
    unfold handleLine, lookup_pending. rewrite Hm, Hrid, Hne, Hty. simpl.
    destruct (pending b !! rid); reflexivity. }
  destruct (String.eqb ty "error") eqn:E3; [apply String.eqb_eq in E3 as ->|].
  { eexists (Some (true, reject_call _, rid)).
    split; [intros del f id [= <- <- <-]; auto|]. intros b.
    unfold handleLine, lookup_pending. rewrite Hm, Hrid, Hne, Hty. simpl.
    destruct (pending b !! rid); reflexivity. }
  exists None. split; [discriminate|]. intros b.
  apply String.eqb_neq in E1, E2, E3.
  unfold handleLine, lookup_pending. rewrite Hm, Hrid, Hne, Hty. simpl.
  crunch_matches; congruence.
Qed.

(** X5.  A line of the worker changes nothing but the call whose
    identifier it bears: processes, child, flags, tasks and the number of
    calls stay as they are, and either the bridge is unchanged altogether
    (a line that does not parse, is no message, has an unknown type or
    names no pending identifier), or the identifier was pending and every
    other call and every other entry of the pending map is untouched. *)
Theorem line_touches_only_the_call_it_names (parsed : option Js.value) (b : Bridge) :
  let b' := handleLine parsed b in
  procs b' = procs b /\ child b' = child b /\ initialized b' = initialized b
  /\ tasks b' = tasks b /\ uuids b' = uuids b
  /\ pythonExecutable b' = pythonExecutable b
  /\ length (calls b') = length (calls b)
  /\ (b' = b
      \/ exists message id h,
           parsed = Some message /\ isSidecarMessage message = true
           /\ Js.get_opt message "requestId" = Js.VStr id
           /\ pending b !! id = Some h
           /\ (forall h', h' <> h -> calls b' !! h' = calls b !! h')
           /\ (forall k, k <> id -> pending b' !! k = pending b !! k)).
Proof.
  intros b'. subst b'. destruct parsed as [m|].
  2:{ simpl. repeat split; auto. }
  destruct (handleLine_route m) as (eff & Heff & ->).
  destruct eff as [[[del f] id]|]; [|repeat split; auto].
  destruct (Heff _ _ _ eq_refl) as [Hm Hid].
  destruct (pending b !! id) as [h|] eqn:Hl; [|repeat split; auto].
  assert (Hlen : length (alter f h (calls b)) = length (calls b))
    by apply length_alter.
  destruct del; simpl; (repeat split; try exact Hlen);
    right; exists m, id, h; (repeat split; try assumption).
  - intros h' Hne. now apply list_lookup_alter_ne.
  - intros k Hne. now apply lookup_delete_ne.
  - intros h' Hne. now apply list_lookup_alter_ne.
Qed.

(** X6.  Replies are matched by identifier, not by order: two lines of the
    worker that bear different identifiers may be handled in either order
    with the same outcome, in every state the bridge reaches. *)
Theorem replies_with_different_identifiers_commute
    (tr : list Action) (m1 m2 : Js.value) :
  Js.get_opt m1 "requestId" <> Js.get_opt m2 "requestId" ->
  let b := run tr create in
  handleLine (Some m1) (handleLine (Some m2) b)
  = handleLine (Some m2) (handleLine (Some m1) b).
Proof.
  intros Hne b.
  destruct (reached_wf randomUUID python tr) as (W1 & _). fold b in W1.
  destruct (handleLine_route m1) as (e1 & He1 & R1).
  destruct (handleLine_route m2) as (e2 & He2 & R2).
  rewrite (R2 b), (R1 b).
  destruct e1 as [[[d1 f1] id1]|]; [|now rewrite !R1].
  destruct e2 as [[[d2 f2] id2]|]; [|now rewrite !R2].
  destruct (He1 _ _ _ eq_refl) as [_ H1]. destruct (He2 _ _ _ eq_refl) as [_ H2].
  assert (Hid : id1 <> id2) by congruence.
  destruct (pending b !! id1) as [h1|] eqn:L1; destruct (pending b !! id2) as [h2|] eqn:L2.
  - assert (Hh : h1 <> h2).
    { intros ->. destruct (W1 _ _ L1) as (c1 & Hc1 & <- & _).
      destruct (W1 _ _ L2) as (c2 & Hc2 & <- & _). congruence. }
    rewrite R1, R2.
    assert (P1 : forall (d : bool) (bb : Bridge),
               pending bb = pending b ->
               pending (set_calls (alter f2 h2 (calls b))
                           (if d then set_pending (delete id2 (pending b)) bb else bb)) !! id1
               = Some h1).
    { intros [] bb Hbb; simpl; [now rewrite lookup_delete_ne | now rewrite Hbb]. }
    assert (P2 : forall (d : bool) (bb : Bridge),
               pending bb = pending b ->
               pending (set_calls (alter f1 h1 (calls b))
                           (if d then set_pending (delete id1 (pending b)) bb else bb)) !! id2
               = Some h2).
    { intros [] bb Hbb; simpl; [now rewrite lookup_delete_ne | now rewrite Hbb]. }
    rewrite (P1 d2 b eq_refl), (P2 d1 b eq_refl).
    unfold set_calls, set_pending.
    destruct d1, d2; simpl; f_equal;
      try (apply list_alter_alter_ne; congruence);
      try apply delete_delete.
  - rewrite R1, R2, L1.
    destruct d1; simpl; rewrite ?lookup_delete_ne by auto; now rewrite L2.
  - rewrite R1, R2, L2.
    destruct d2; simpl; rewrite ?lookup_delete_ne by auto; now rewrite L1.
  - now rewrite R1, R2, L1, L2.
Qed.

(** *** A worker that was replaced *)

Lemma killed_alter (f : Proc -> Proc) (i j : nat) (ps : list Proc) :
  (forall p, killed (f p) = killed p) ->
  killed <$> alter f i ps !! j = killed <$> ps !! j.
Proof.
  intros Hf. destruct (decide (j = i)) as [->|Hne].
  - rewrite list_lookup_alter_eq. destruct (ps !! i); simpl; [now rewrite Hf | reflexivity].
  - now rewrite list_lookup_alter_ne.
Qed.

Lemma killed_receive (r : Request) (p : Proc) : killed (receive r p) = killed p.
Proof. unfold receive. destruct (stdin_open p); reflexivity. Qed.

Lemma not_current_call (action : string) (payload : Js.value) (b : Bridge) (cur : nat) :
  not_current cur b ->
  not_current cur (call action payload b).2
  /\ killed <$> procs (call action payload b).2 !! cur = killed <$> procs b !! cur.
Proof.
  intros [Hch Hlt]. unfold GrokSidecarClient.call.
  destruct (callWithStream action payload b) as [[h b']|e] eqn:Hc; simpl;
    [|split; [split; assumption | reflexivity]].
  destruct (callWithStream_inl _ _ _ _ _ _ _ Hc)
    as (pid & b1 & He & _ & _ & _ & _ & _ & _ & Hch' & _ & Hprocs).
  destruct (ensureProcess_inl _ _ _ _ He)
    as (_ & _ & _ & _ & _ & _ & [[Hsame ->] | (Hnone & -> & Hp1 & _)]).
  - unfold not_current. rewrite Hprocs, Hch'. split.
    + split; [congruence | now rewrite length_alter].
    + apply killed_alter, killed_receive.
  - unfold not_current. rewrite Hprocs, Hch', Hp1. split.
    + split; [intros [= E]; lia | rewrite length_alter, length_app; simpl; lia].
    + rewrite killed_alter by apply killed_receive. now rewrite lookup_app_l.
Qed.

Lemma not_current_dispose (b : Bridge) (cur : nat) :
  not_current cur b ->
  not_current cur (dispose b)
  /\ killed <$> procs (dispose b) !! cur = killed <$> procs b !! cur.
Proof.
  intros [Hch Hlt]. unfold dispose, not_current. simpl.
  destruct (child b) as [pid|].
  - split; [split; [discriminate | now rewrite length_alter]|].
    rewrite list_lookup_alter_ne; [reflexivity | congruence].
  - split; [split; [discriminate | exact Hlt] | reflexivity].
Qed.

Lemma step_not_current (a : Action) (b : Bridge) (cur : nat) :
  not_current cur b ->
  not_current cur (step a b)
  /\ killed <$> procs (step a b) !! cur = killed <$> procs b !! cur.
Proof.
  intros N. pose proof N as [Hch Hlt].
  assert (Same : not_current cur b /\ killed <$> procs b !! cur = killed <$> procs b !! cur)
    by (split; [exact N | reflexivity]).
  destruct a; simpl; try exact Same.
  - pose proof (not_current_call action payload b cur N) as H.
    unfold GrokSidecarClient.call in H.
    destruct (callWithStream action payload b) as [[h b']|e]; exact H.
  - unfold cancel. destruct (calls b !! h) as [c|]; [|exact Same].
    case_bool_decide; exact Same.
  - destruct (handleLine_cases parsed b)
      as [-> | [(id & h & f & _ & _ & _ & ->) | (id & h & f & _ & _ & _ & ->)]];
      exact Same.
  - unfold on_exit. destruct (procs b !! pid) as [p|] eqn:Hp; [|exact Same].
    destruct (exit_seen p); [exact Same|]. simpl. split.
    + split; [discriminate | simpl; now rewrite length_insert].
    + destruct (decide (cur = pid)) as [->|Hne].
      * rewrite list_lookup_insert_eq by exact Hlt. now rewrite Hp.
      * now rewrite list_lookup_insert_ne.
  - split; [split; [exact Hch | simpl; now rewrite length_alter]|].
    now apply killed_alter.
  - unfold on_stdin_error. destruct (bool_decide _); exact Same.
  - unfold ensureInitialised. destruct (initialized b); [exact Same|].
    destruct (apiKey payload) as [key|]; [|exact Same].
    destruct (Js.nonempty key); [|exact Same].
    pose proof (not_current_call "initialize" (init_value payload) b cur N) as H.
    destruct (call "initialize" (init_value payload) b) as [w b']. exact H.
  - unfold shutdown.
    pose proof (not_current_call "shutdown" (Js.VObj []) b cur N) as H.
    destruct (call "shutdown" (Js.VObj []) b) as [w b']. exact H.
  - now apply not_current_dispose.
  - unfold continue.
    destruct (tasks b !! t) as [[k [w | o]]|]; try exact Same.
    destruct (awaited_outcome w b) as [[| v | e]|]; try exact Same.
    + destruct k; simpl; [|now apply not_current_dispose].
      destruct (_ && _); exact Same.
    + destruct k; simpl; [exact Same | now apply not_current_dispose].
Qed.

Lemma run_not_current (tr : list Action) (cur : nat) :
  forall b : Bridge,
    not_current cur b ->
    not_current cur (run tr b)
    /\ killed <$> procs (run tr b) !! cur = killed <$> procs b !! cur.
Proof.
  induction tr as [|a tr IH]; intros b N; simpl; [split; [exact N | reflexivity]|].
  destruct (step_not_current a b cur N) as [N' K].
  destruct (IH _ N') as [N'' K']. split; [exact N''|]. now rewrite K'.
Qed.

(** X7.  The exit listener does not ask which process exited.  When a
    process that the bridge has replaced by another one exits (its exit
    was not seen before), the listener rejects every pending call, those
    written to the new process included, and clears the child and the
    initialization flag.  The new process itself is left as it was, and
    since the bridge has forgotten it, nothing the bridge does later ever
    kills it or makes it the child again. *)
Theorem exit_of_replaced_worker_orphans_its_successor
    (tr0 : list Action) (pid cur : nat) (p : Proc)
    (code : option Z) (signal : option string) :
  let b := run tr0 create in
  procs b !! pid = Some p -> exit_seen p = false ->
  child b = Some cur -> cur <> pid ->
  let b' := on_exit pid code signal b in
  child b' = None /\ initialized b' = false /\ pending b' = ∅
  /\ (forall id h, pending b !! id = Some h ->
        promise_of h b' = Some (Rejected (exit_reason code signal)))
  /\ procs b' !! cur = procs b !! cur
  /\ (forall tr : list Action,
        killed <$> procs (run tr b') !! cur = killed <$> procs b !! cur
        /\ child (run tr b') <> Some cur).
Proof.
  intros b Hp Hseen Hch Hne b'.
  pose proof (reached_wf randomUUID python tr0) as W. fold b in W.
  assert (Hb' : b' = {| pythonExecutable := pythonExecutable b; child := None;
                        pending := ∅; initialized := false;
                        procs := <[pid := {| killed := killed p; exit_seen := true;
                                             stdin_open := false;
                                             stdin_log := stdin_log p |}]> (procs b);
                        calls := reject_all (exit_reason code signal) (pending b) (calls b);
                        uuids := uuids b; tasks := tasks b;
     stdin_errors := stdin_errors b; host_uncaught := host_uncaught b |}).
  { unfold b', on_exit. now rewrite Hp, Hseen. }
  assert (Hcur : procs b' !! cur = procs b !! cur).
  { rewrite Hb'. simpl. now apply list_lookup_insert_ne. }
  split; [now rewrite Hb'|]. split; [now rewrite Hb'|]. split; [now rewrite Hb'|].
  split; [|split; [exact Hcur|]].
  - intros id h Hl. rewrite Hb'. unfold promise_of. simpl.
    eapply lookup_reject_all_pending; eassumption.
  - intros tr.
    assert (N : not_current cur b').
    { split; [rewrite Hb'; discriminate|].
      rewrite Hb'. simpl. rewrite length_insert.
      destruct W as (_ & _ & W3 & _). now apply W3. }
    destruct (run_not_current tr cur b' N) as [[Hc _] K].
    split; [|exact Hc]. now rewrite K, Hcur.
Qed.

(** *** The interpreter *)

Lemma ensureProcess_python (python' : option string) (b : Bridge) :
  is_Some (pythonExecutable b) ->
  ensureProcess python' b = ensureProcess python b.
Proof. intros [exe He]. unfold ensureProcess. now rewrite He. Qed.

Lemma call_python (python' : option string) (action : string) (payload : Js.value)
    (b : Bridge) :
  is_Some (pythonExecutable b) ->
  GrokSidecarClient.callWithStream randomUUID python' action payload b
  = callWithStream action payload b.
Proof.
  intros H. unfold GrokSidecarClient.callWithStream.
  now rewrite (ensureProcess_python python' b H).
Qed.

Lemma step_python (python' : option string) (a : Action) (b : Bridge) :
  is_Some (pythonExecutable b) ->
  GrokSidecarClient.step randomUUID python' a b = step a b.
Proof.
  intros H. destruct a; simpl; try reflexivity.
  - now rewrite call_python.
  - unfold ensureInitialised, GrokSidecarClient.call. now rewrite call_python.
  - unfold shutdown, GrokSidecarClient.call. now rewrite call_python.
Qed.

Lemma call_pythonExecutable (action : string) (payload : Js.value) (b : Bridge)
    (exe : string) :
  pythonExecutable b = Some exe ->
  pythonExecutable (call action payload b).2 = Some exe.
Proof.
  intros He. unfold GrokSidecarClient.call, GrokSidecarClient.callWithStream, ensureProcess.
  rewrite He. destruct (child b); reflexivity || exact He.
Qed.

Lemma step_pythonExecutable (a : Action) (b : Bridge) (exe : string) :
  pythonExecutable b = Some exe -> pythonExecutable (step a b) = Some exe.
Proof.
  intros He. destruct a; simpl; try exact He.
  - pose proof (call_pythonExecutable action payload b exe He) as H.
    unfold GrokSidecarClient.call in H.
    destruct (callWithStream action payload b) as [[h b']|e]; exact H.
  - unfold cancel. destruct (calls b !! h) as [c|]; [|exact He].
    case_bool_decide; exact He.
  - destruct (handleLine_cases parsed b)
      as [-> | [(id & h & f & _ & _ & _ & ->) | (id & h & f & _ & _ & _ & ->)]];
      exact He.
  - unfold on_exit. destruct (procs b !! pid) as [p|]; [|exact He].
    destruct (exit_seen p); exact He.
  - unfold on_stdin_error. destruct (bool_decide _); exact He.
  - unfold ensureInitialised. destruct (initialized b); [exact He|].
    destruct (apiKey payload) as [key|]; [|exact He].
    destruct (Js.nonempty key); [|exact He].
    pose proof (call_pythonExecutable "initialize" (init_value payload) b exe He) as H.
    destruct (call "initialize" (init_value payload) b) as [w b']. exact H.
  - unfold shutdown.
    pose proof (call_pythonExecutable "shutdown" (Js.VObj []) b exe He) as H.
    destruct (call "shutdown" (Js.VObj []) b) as [w b']. exact H.
  - unfold continue.
    destruct (tasks b !! t) as [[k [w | o]]|]; try exact He.
    destruct (awaited_outcome w b) as [[| v | e]|]; try exact He.
    + destruct k; simpl; [|exact He]. destruct (_ && _); exact He.
    + destruct k; simpl; exact He.
Qed.

(** X8.  The interpreter is looked for once.  When the bridge has
    recorded an executable, it keeps it through everything that happens,
    disposal and exits included, and what a new search for an interpreter
    would give plays no part any more: the bridge behaves the same for
    every outcome of [resolvePythonExecutable]. *)
Theorem interpreter_is_resolved_once (python' : option string) (tr : list Action) :
  forall (b : Bridge) (exe : string),
    pythonExecutable b = Some exe ->
    pythonExecutable (run tr b) = Some exe
    /\ GrokSidecarClient.run randomUUID python' tr b = run tr b.
Proof.
  induction tr as [|a tr IH]; intros b exe He; simpl; [auto|].
  rewrite (step_python python' a b) by eauto.
  apply IH. now apply step_pythonExecutable.
Qed.

(** *** A call whose signal has already fired *)

Lemma fresh_id_not_pending (Hinj : Inj (=) (=) randomUUID) (b : Bridge) :
  wf b -> pending b !! randomUUID (uuids b) = None.
Proof.
  intros (_ & W2 & _).
  destruct (pending b !! randomUUID (uuids b)) as [h|] eqn:Hl; [|reflexivity].
  destruct (W2 _ _ Hl) as (n & Hn & Heq). apply Hinj in Heq. lia.
Qed.

(** X9.  [callWithAbort] makes the call before it looks at the signal.
    With a signal that has already fired, the request is still written to
    the worker; the call is then cancelled on the spot, so the pending map
    is what it was before, the promise of the call is rejected with the
    abort error, and whatever the worker later replies to that request is
    dropped. *)
Theorem aborted_signal_still_sends_the_request
    (Hinj : Inj (=) (=) randomUUID) (tr0 : list Action)
    (action : string) (payload : Js.value) (pid : nat) (p : Proc) :
  let b := run tr0 create in
  child b = Some pid -> procs b !! pid = Some p -> stdin_open p = true ->
  exists b',
    callWithAbort randomUUID python action payload (Some true) b = inl (AbortedAtOnce, b')
    /\ procs b' !! pid
       = Some {| killed := killed p; exit_seen := exit_seen p; stdin_open := true;
                 stdin_log := stdin_log p
                              ++ [request_of (randomUUID (uuids b)) action payload] |}
    /\ pending b' = pending b
    /\ promise_of (length (calls b)) b' = Some (Rejected createAbortError)
    /\ (forall (tr : list Action) (message : Js.value),
          Js.get_opt message "requestId" = Js.VStr (randomUUID (uuids b)) ->
          handleLine (Some message) (run tr b') = run tr b').
Proof.
  intros b Hch Hp Hopen.
  pose proof (reached_wf randomUUID python tr0) as W. fold b in W.
  pose proof (fresh_id_not_pending Hinj b W) as Hfresh.
  set (id := randomUUID (uuids b)) in *.
  set (c0 := {| requestId := id; promise := Unsettled; emitted := [];
                error_listeners := 0; reacted := false; uncaught := None |}).
  set (b1 := {| pythonExecutable := pythonExecutable b; child := Some pid;
                pending := <[id := length (calls b)]> (pending b);
                initialized := initialized b;
                procs := alter (receive (request_of id action payload)) pid (procs b);
                calls := calls b ++ [c0];
                uuids := S (uuids b); tasks := tasks b;
                stdin_errors := stdin_errors b; host_uncaught := host_uncaught b |}).
  assert (Hcall : callWithStream action payload b = inl (length (calls b), b1)).
  { unfold GrokSidecarClient.callWithStream, ensureProcess. rewrite Hch. simpl.
    unfold stdin_write, write_fails. simpl. rewrite Hp, Hopen. simpl.
    unfold b1. now rewrite Hch. }
  assert (Hc0 : calls b1 !! length (calls b) = Some c0).
  { unfold b1. simpl. apply list_lookup_middle. reflexivity. }
  exists (cancel (length (calls b)) b1).
  unfold callWithAbort. rewrite Hcall.
  unfold cancel. rewrite Hc0.
  rewrite bool_decide_eq_true_2 by (unfold b1; simpl; apply lookup_insert_eq).
  split; [reflexivity|]. simpl.
  split; [|split; [|split]].
  - rewrite list_lookup_alter_eq, Hp. simpl. unfold receive. now rewrite Hopen.
  - rewrite delete_insert_eq. now apply delete_id.
  - unfold promise_of. simpl. rewrite list_lookup_alter_eq.
    replace ((calls b ++ [c0]) !! length (calls b)) with (Some c0)
      by (symmetry; apply list_lookup_middle; reflexivity).
    reflexivity.
  - intros tr message Hid.
    eapply (late_replies_dropped randomUUID python Hinj _ (uuids b)); [| |exact Hid].
    + simpl. lia.
    + simpl. rewrite delete_insert_eq. rewrite lookup_delete_eq. reflexivity.
Qed.

(** *** A call whose signal fires later *)

(** X10.  The promise [callWithAbort] returns for a signal that has not
    fired is settled once, by whichever runs first: the listener of the
    signal, or the job that follows the result.  When the signal fires
    while the call is pending, the call is cancelled (its entry leaves the
    pending map) and the promise is rejected with the abort error, which
    no later reply or exit changes; the listener runs once.  When the
    result has arrived and the job has run, the promise has the result and
    a signal that fires afterwards is ignored: nothing is cancelled.  When
    the result has arrived but the signal fires before the job has run,
    the promise is rejected with the abort error although the call itself
    has its result: there is nothing left to cancel, and the job that runs
    afterwards changes nothing.  The identifier of the call is taken not
    to be the empty string, which [handleLine] never looks up. *)
Theorem abort_and_result_race_once
    (tr0 : list Action) (id : string) (h : nat) :
  let b := run tr0 create in
  pending b !! id = Some h -> id <> "" ->
  (let aborted := onAbort (guard h) b in
   outer aborted.1 = Rejected createAbortError
   /\ aborted.2 = cancel h b
   /\ pending aborted.2 = delete id (pending b)
   /\ onAbort aborted.1 aborted.2 = aborted
   /\ forall tr : list Action,
        outer (on_result aborted.1 (run tr aborted.2)) = Rejected createAbortError)
  /\ (forall v : Js.value,
        let b2 := handleLine (Some (reply "result" id v)) b in
        promise_of h b2 = Some (Fulfilled v)
        /\ (let answered := on_result (guard h) b2 in
            outer answered = Fulfilled v
            /\ onAbort answered b2 = (answered, b2))
        /\ (let aborted := onAbort (guard h) b2 in
            outer aborted.1 = Rejected createAbortError
            /\ aborted.2 = b2
            /\ on_result aborted.1 aborted.2 = aborted.1
            /\ promise_of h aborted.2 = Some (Fulfilled v))).
Proof.
  intros b Hl Hne.
  destruct (reached_wf randomUUID python tr0) as (W1 & _). fold b in W1.
  destruct (W1 _ _ Hl) as (c & Hc & Hid & Hpm).
  assert (Hcancel : cancel h b
                    = set_calls (alter (reject_call createAbortError) h (calls b))
                        (set_pending (delete id (pending b)) b)).
  { unfold cancel. rewrite Hc, Hid. now rewrite bool_decide_eq_true_2 by exact Hl. }
  split.
  - simpl. split; [reflexivity|]. split; [reflexivity|].
    split; [now rewrite Hcancel|]. split; [reflexivity|].
    intros tr.
    assert (Hp : promise_of h (cancel h b) = Some (Rejected createAbortError)).
    { rewrite Hcancel. unfold promise_of. simpl.
      rewrite list_lookup_alter_eq, Hc. simpl. now rewrite Hpm. }
    pose proof (settled_promise_is_final tr _ _ _ Hp eq_refl) as Hfinal.
    unfold on_result. simpl. now rewrite Hfinal.
  - intros v b2.
    assert (Hb2 : b2 = set_calls (alter (resolve_call v) h (calls b))
                         (set_pending (delete id (pending b)) b)).
    { unfold b2, handleLine, isSidecarMessage, lookup_pending. simpl.
      now rewrite (proj2 (nonempty_true_iff id) Hne), Hl. }
    clearbody b2.
    assert (Hp : promise_of h b2 = Some (Fulfilled v)).
    { rewrite Hb2. unfold promise_of. simpl.
      rewrite list_lookup_alter_eq, Hc. simpl. now rewrite Hpm. }
    assert (Hnoop : cancel h b2 = b2).
    { unfold cancel. subst b2. simpl. rewrite list_lookup_alter_eq, Hc. simpl.
      rewrite Hid. rewrite bool_decide_eq_false_2; [reflexivity|].
      rewrite lookup_delete_eq. discriminate. }
    split; [exact Hp|]. split.
    + unfold on_result. simpl. rewrite Hp. simpl. split; reflexivity.
    + simpl. rewrite Hnoop. split; [reflexivity|]. split; [reflexivity|].
      split; [|exact Hp]. unfold on_result. simpl. rewrite Hp. reflexivity.
Qed.

End BridgeCoverage.

(** ** The interpreter candidates *)

(** X11.  [resolvePythonExecutable] tries GROK_PYTHON_BIN, PYTHON,
    [python] and [python3] in this order and skips a variable that is
    unset or blank: what it returns answers [--version] and is not blank;
    a usable GROK_PYTHON_BIN that answers is chosen whatever else is
    installed; when GROK_PYTHON_BIN is unset, blank or does not answer, a
    usable PYTHON that answers is chosen; when neither variable gives an
    interpreter that answers, [python] is chosen if it answers, else
    [python3] if it answers, and else the function throws.  It throws only
    if neither [python] nor [python3] answers. *)
Theorem interpreter_candidates_in_order
    (answers : string -> bool) (env : GrokSidecarCalls.PythonEnv) :
  let found := GrokSidecarCalls.resolvePythonExecutable answers env in
  let works (variable : option string) :=
    exists s, variable = Some s /\ Js.trim s <> "" /\ answers s = true in
  (forall c, found = Some c -> answers c = true /\ Js.trim c <> "")
  /\ (forall s, GrokSidecarCalls.GROK_PYTHON_BIN env = Some s -> Js.trim s <> "" ->
        answers s = true -> found = Some s)
  /\ (forall s, GrokSidecarCalls.GROK_PYTHON_BIN env = Some s -> Js.trim s = "" ->
        found = GrokSidecarCalls.resolvePythonExecutable answers
                  {| GrokSidecarCalls.GROK_PYTHON_BIN := None;
                     GrokSidecarCalls.PYTHON := GrokSidecarCalls.PYTHON env |})
  /\ (found = None -> answers "python" = false /\ answers "python3" = false)
  /\ (~ works (GrokSidecarCalls.GROK_PYTHON_BIN env) ->
      (forall s, GrokSidecarCalls.PYTHON env = Some s -> Js.trim s <> "" ->
         answers s = true -> found = Some s)
      /\ (~ works (GrokSidecarCalls.PYTHON env) ->
          found = if answers "python" then Some "python"
                  else if answers "python3" then Some "python3" else None)).
Proof.
  intros found works. subst found works.
  unfold GrokSidecarCalls.resolvePythonExecutable, GrokSidecarCalls.candidates.
  assert (Hcand : forall o s, GrokSidecarCalls.is_candidate o = Some s ->
                              o = Some s /\ Js.trim s <> "").
  { intros [s0|] s; simpl; [|discriminate].
    destruct (Js.nonempty s0); simpl; [|discriminate].
    destruct (Js.trim s0) eqn:Ht; simpl; [discriminate|].
    intros [= <-]. rewrite Ht. split; [reflexivity | discriminate]. }
  assert (Hblank : forall s, Js.trim s = "" -> GrokSidecarCalls.is_candidate (Some s) = None).
  { intros s Ht. simpl. rewrite Ht. simpl. now rewrite andb_false_r. }
  assert (Hok : forall s, Js.trim s <> "" -> GrokSidecarCalls.is_candidate (Some s) = Some s).
  { intros s Ht. simpl.
    assert (Js.nonempty s = true) as ->.
    { apply nonempty_true_iff. intros ->. apply Ht. reflexivity. }
    destruct (Js.trim s); [congruence | reflexivity]. }
  assert (Hskip : forall (o : option string) (rest : list (option string)),
             ~ (exists s, o = Some s /\ Js.trim s <> "" /\ answers s = true) ->
             List.find answers (omap GrokSidecarCalls.is_candidate (o :: rest))
             = List.find answers (omap GrokSidecarCalls.is_candidate rest)).
  { intros o rest Hno.
    change (omap GrokSidecarCalls.is_candidate (o :: rest))
      with (match GrokSidecarCalls.is_candidate o with
            | Some y => y :: omap GrokSidecarCalls.is_candidate rest
            | None => omap GrokSidecarCalls.is_candidate rest
            end).
    destruct (GrokSidecarCalls.is_candidate o) as [s|] eqn:E; [|reflexivity].
    destruct (Hcand _ _ E) as [-> Ht]. simpl.
    destruct (answers s) eqn:Ha; [|reflexivity].
    destruct Hno. eauto. }
  destruct env as [bin py].
  cbn [GrokSidecarCalls.GROK_PYTHON_BIN GrokSidecarCalls.PYTHON].
  assert (Hord :
    ~ (exists s, bin = Some s /\ Js.trim s <> "" /\ answers s = true) ->
    (forall s, py = Some s -> Js.trim s <> "" -> answers s = true ->
       List.find answers (omap GrokSidecarCalls.is_candidate
                            [bin; py; Some "python"; Some "python3"]) = Some s)
    /\ (~ (exists s, py = Some s /\ Js.trim s <> "" /\ answers s = true) ->
        List.find answers (omap GrokSidecarCalls.is_candidate
                             [bin; py; Some "python"; Some "python3"])
        = if answers "python" then Some "python"
          else if answers "python3" then Some "python3" else None)).
  { intros Hbin. rewrite (Hskip bin _ Hbin). split.
    - intros s -> Ht Ha.
      change (omap GrokSidecarCalls.is_candidate [Some s; Some "python"; Some "python3"])
        with (match GrokSidecarCalls.is_candidate (Some s) with
              | Some y => y :: omap GrokSidecarCalls.is_candidate
                                 [Some "python"; Some "python3"]
              | None => omap GrokSidecarCalls.is_candidate [Some "python"; Some "python3"]
              end).
      rewrite (Hok s Ht). simpl. now rewrite Ha.
    - intros Hpy. rewrite (Hskip py _ Hpy). reflexivity. }
  split; [|split; [|split; [|split; [|exact Hord]]]]; simpl.
  - intros c Hf. apply find_some in Hf as [Hin Ha]. split; [exact Ha|].
    destruct (GrokSidecarCalls.is_candidate bin) as [s1|] eqn:E1;
      destruct (GrokSidecarCalls.is_candidate py) as [s2|] eqn:E2; simpl in Hin;
      repeat (destruct Hin as [<- | Hin];
              [first [ eapply Hcand; eassumption | discriminate ] |]);
      destruct Hin.
  - intros s -> Ht Ha. rewrite (Hok s Ht). simpl. now rewrite Ha.
  - intros s -> Ht. now rewrite (Hblank s Ht).
  - intros Hf.
    assert (Hall : forall c,
               In c (omap GrokSidecarCalls.is_candidate
                       [bin; py; Some "python"; Some "python3"]) ->
               answers c = false).
    { intros c Hin. eapply find_none in Hf; eassumption. }
    split; apply Hall; simpl;
      destruct (GrokSidecarCalls.is_candidate bin), (GrokSidecarCalls.is_candidate py);
      simpl; auto 10.
Qed.

(** ** The cached initialisation of the tooling helpers *)

Section ToolingSession.

Import GrokSidecarClient GrokSidecarCalls GrokToolingSession.
Local Open Scope list_scope.

Context (randomUUID : nat -> string) (python : option string).

(** X12.  The tooling helpers remember that they were initialised, the
    bridge forgets it when its worker exits.  Once the cached
    initialisation is fulfilled, [ensureReady] does nothing, whatever the
    state of the bridge; so after the worker has gone, the next helper
    call spawns a new process whose first and only request is the helper's
    own: no [initialize] request precedes it, and the bridge stays
    uninitialised. *)
Theorem tooling_helpers_skip_initialising_a_new_worker
    (s : Support) (b : Bridge) (t : nat) (v : Js.value) (query : string) :
  initialisationPromise s = Some t ->
  ready_outcome t b = Some (Fulfilled v) ->
  child b = None -> is_Some (pythonExecutable b) ->
  ensureReady randomUUID python s b = (Wait t, s, b)
  /\ exists b',
       search_request randomUUID python query (Some false) b
       = inl (Guarded (length (calls b)), b')
       /\ child b' = Some (length (procs b))
       /\ procs b'
          = procs b
            ++ [{| killed := false; exit_seen := false; stdin_open := true;
                   stdin_log :=
                     [request_of (randomUUID (uuids b)) "tooling.webSearch"
                        (Js.VObj [("query", Js.VStr query);
                                  ("options", Js.VObj [("mode", Js.VStr "on")])])] |}]
       /\ initialized b' = initialized b
       /\ tasks b' = tasks b.
Proof.
  intros Hs Hr Hch Hpy. split.
  - unfold ensureReady. now rewrite Hs.
  - unfold search_request, webSearch, callWithAbort.
    destruct (callWithStream_spawns randomUUID python "tooling.webSearch"
                (Js.VObj [("query", Js.VStr query);
                          ("options", Js.VObj [("mode", Js.VStr "on")])]) b Hch Hpy)
      as (b' & Hc & H1 & H2 & H3).
    exists b'. rewrite Hc. split; [reflexivity|]. split; [exact H1|].
    split; [exact H2|]. split; [|exact H3].
    destruct (callWithStream_inl _ _ _ _ _ _ _ Hc)
      as (_ & _ & _ & _ & _ & _ & _ & _ & Hinit & _). exact Hinit.
Qed.

End ToolingSession.

(** ** The added properties of the bridge on worked examples *)

Section BridgeCoverageExamples.

Import GrokSidecarClient GrokSidecarCalls GrokToolingSession.
Local Open Scope list_scope.

Local Abbreviation run := (GrokSidecarClient.run uuid_of (Some "python3")).

(** A chat call is answered and its job runs. *)
Lemma end_at_most_once_and_after_settling_witness :
  let b := run [ACall "chat" Js.VNull;
                ALine (Some (reply "result" (uuid_of 0) Js.VNull));
                AReact 0] create in
  exists c, calls b !! 0 = Some c /\ count_end c = 1 /\ is_settled (promise c) = true.
Proof.
  intros b.
  set (c := {| requestId := uuid_of 0; promise := Fulfilled Js.VNull;
               emitted := [SigEnd]; error_listeners := 0; reacted := true;
               uncaught := None |}).
  assert (Hc : calls b !! 0 = Some c) by (vm_compute; reflexivity).
  destruct (end_at_most_once_and_after_settling uuid_of (Some "python3") _ 0 c Hc)
    as [_ Hs].
  exists c. split; [exact Hc|]. split; [reflexivity | apply Hs; reflexivity].
Defined.


(** Two calls are pending; the worker answers the second and fails the
    first. *)
Lemma replies_with_different_identifiers_commute_witness :
  let b := run [ACall "chat" Js.VNull; ACall "validate" Js.VNull] create in
  let m1 := reply "result" (uuid_of 1) (Js.VStr "ok") in
  let m2 := error_reply (uuid_of 0) "boom" in
  handleLine (Some m1) (handleLine (Some m2) b)
  = handleLine (Some m2) (handleLine (Some m1) b).
Proof.
  intros b m1 m2.
  apply (replies_with_different_identifiers_commute uuid_of (Some "python3")).
  vm_compute. discriminate.
Defined.

(** A worker is disposed of and replaced; then the exit of the first
    worker is reported. *)
Lemma exit_of_replaced_worker_orphans_its_successor_witness :
  let b := run [ACall "chat" Js.VNull; ADispose; ACall "chat" Js.VNull] create in
  let b' := on_exit 0 None (Some "SIGTERM") b in
  child b = Some 1
  /\ pending b !! uuid_of 1 = Some 1
  /\ promise_of 1 b' = Some (Rejected (mkError "Sidecar exited due to signal SIGTERM"))
  /\ child b' = None
  /\ killed <$> procs (run [ADispose; AShutdown] b') !! 1 = Some false.
Proof.
  intros b b'.
  assert (Hp : procs b !! 0
               = Some {| killed := true; exit_seen := false; stdin_open := true;
                         stdin_log := [request_of (uuid_of 0) "chat" Js.VNull] |})
    by (vm_compute; reflexivity).
  assert (Hch : child b = Some 1) by (vm_compute; reflexivity).
  assert (Hl : pending b !! uuid_of 1 = Some 1) by (vm_compute; reflexivity).
  destruct (exit_of_replaced_worker_orphans_its_successor uuid_of (Some "python3")
              _ 0 1 _ None (Some "SIGTERM") Hp eq_refl Hch ltac:(lia))
    as (H1 & _ & _ & H4 & _ & H6).
  split; [exact Hch|]. split; [exact Hl|]. split; [exact (H4 _ _ Hl)|].
  split; [exact H1|].
  destruct (H6 [ADispose; AShutdown]) as [E _].
  etransitivity; [exact E|]. vm_compute. reflexivity.
Defined.

(** After its first call the bridge is run with and without an
    interpreter to be found. *)
Lemma interpreter_is_resolved_once_witness :
  let b := run [ACall "chat" Js.VNull] create in
  pythonExecutable b = Some "python3"
  /\ GrokSidecarClient.run uuid_of None [ADispose; ACall "chat" Js.VNull] b
     = run [ADispose; ACall "chat" Js.VNull] b.
Proof.
  intros b.
  assert (He : pythonExecutable b = Some "python3") by (vm_compute; reflexivity).
  split; [exact He|].
  exact (proj2 (interpreter_is_resolved_once uuid_of (Some "python3") None _ b _ He)).
Defined.

(** A web search is asked for with a signal that has fired. *)
Lemma aborted_signal_still_sends_the_request_witness :
  let b := run [ACall "chat" Js.VNull] create in
  exists b',
    callWithAbort uuid_of (Some "python3") "tooling.webSearch" (Js.VStr "q") (Some true) b
    = inl (AbortedAtOnce, b')
    /\ stdin_log <$> procs b' !! 0
       = Some [request_of (uuid_of 0) "chat" Js.VNull;
               request_of (uuid_of 1) "tooling.webSearch" (Js.VStr "q")]
    /\ pending b' = pending b.
Proof.
  intros b.
  assert (Hp : procs b !! 0
               = Some {| killed := false; exit_seen := false; stdin_open := true;
                         stdin_log := [request_of (uuid_of 0) "chat" Js.VNull] |})
    by (vm_compute; reflexivity).
  destruct (aborted_signal_still_sends_the_request uuid_of (Some "python3") uuid_of_inj
              [ACall "chat" Js.VNull] "tooling.webSearch" (Js.VStr "q") 0 _
              eq_refl Hp eq_refl)
    as (b' & H1 & H2 & H3 & _).
  exists b'. split; [exact H1|]. split; [|exact H3].
  fold b in H2. rewrite H2. reflexivity.
Defined.

(** A web search is pending when its signal fires; in another run the
    worker answers first and the job runs; in a third the worker answers
    and the signal fires before the job has run. *)
Lemma abort_and_result_race_once_witness :
  let b := run [ACall "tooling.webSearch" (Js.VStr "q")] create in
  let b2 := handleLine (Some (reply "result" (uuid_of 0) (Js.VStr "found"))) b in
  outer (onAbort (guard 0) b).1 = Rejected createAbortError
  /\ pending (onAbort (guard 0) b).2 = ∅
  /\ outer (on_result (guard 0) b2) = Fulfilled (Js.VStr "found")
  /\ outer (on_result (onAbort (guard 0) b2).1 (onAbort (guard 0) b2).2)
     = Rejected createAbortError
  /\ promise_of 0 (onAbort (guard 0) b2).2 = Some (Fulfilled (Js.VStr "found")).
Proof.
  intros b b2.
  assert (Hl : pending b !! uuid_of 0 = Some 0) by (vm_compute; reflexivity).
  destruct (abort_and_result_race_once uuid_of (Some "python3")
              [ACall "tooling.webSearch" (Js.VStr "q")] (uuid_of 0) 0 Hl
              ltac:(discriminate))
    as [(H1 & _ & H3 & _) H2].
  destruct (H2 (Js.VStr "found")) as (_ & [Hjob _] & (Hab & _ & Hkeep & Hcall)).
  split; [exact H1|]. split; [fold b in H3; rewrite H3; vm_compute; reflexivity|].
  split; [exact Hjob|]. split; [|exact Hcall].
  fold b b2 in Hkeep, Hab. rewrite Hkeep. exact Hab.
Defined.

(** The helpers initialise the bridge, the worker answers and later exits
    with code 1; then a web search is asked for. *)
Lemma tooling_helpers_skip_initialising_a_new_worker_witness :
  let s0 := {| options_apiKey := "key"; options_model := None;
               options_pythonPath := None; initialisationPromise := None |} in
  let started := ensureReady uuid_of (Some "python3") s0 create in
  let s := started.1.2 in
  let b := run [ALine (Some (reply "result" (uuid_of 0)
                               (Js.VObj [("status", Js.VStr "ok")])));
                AContinue 0; AExit 0 (Some 1%Z) None] started.2 in
  initialisationPromise s = Some 0
  /\ initialized b = false
  /\ exists b',
       search_request uuid_of (Some "python3") "foo" (Some false) b
       = inl (Guarded 1, b')
       /\ stdin_log <$> procs b' !! 1
          = Some [request_of (uuid_of 1) "tooling.webSearch"
                    (Js.VObj [("query", Js.VStr "foo");
                              ("options", Js.VObj [("mode", Js.VStr "on")])])]
       /\ initialized b' = false.
Proof.
  intros s0 started s b.
  assert (Hs : initialisationPromise s = Some 0) by reflexivity.
  assert (Hr : ready_outcome 0 b = Some (Fulfilled Js.VUndefined))
    by (vm_compute; reflexivity).
  assert (Hch : child b = None) by (vm_compute; reflexivity).
  assert (Hpy : is_Some (pythonExecutable b)) by (vm_compute; eauto).
  destruct (tooling_helpers_skip_initialising_a_new_worker uuid_of (Some "python3")
              s b 0 Js.VUndefined "foo" Hs Hr Hch Hpy)
    as (_ & b' & H1 & _ & H3 & H4 & _).
  split; [exact Hs|]. split; [vm_compute; reflexivity|].
  exists b'. split; [exact H1|]. split; [rewrite H3; vm_compute; reflexivity|].
  rewrite H4. vm_compute. reflexivity.
Defined.

End BridgeCoverageExamples.

(** ** The non-streaming call and the chat payload *)

Section ContentRequests.

Import GrokContentGenerator GrokContentRequests JsText.
Local Open Scope list_scope.

Lemma final_ok_run_loop (g : Gen) : final_ok (run_loop g).
Proof.
  unfold final_ok.
  destruct (run_loop_fields g) as (_ & _ & _ & _ & [E | E] & _); now rewrite E.
Qed.

Lemma step_final_ok (a : Action) (g : Gen) : final_ok g -> final_ok (step a g).
Proof.
  intros F. destruct a as [s | o | | ]; simpl.
  - destruct (listening g); [|exact F]. destruct s; exact F.
  - unfold final_ok in *. simpl.
    destruct (pc g); try exact I;
      destruct F as (r & c & Hr & Hc & Hl); exists r, c; rewrite Hr; auto.
  - unfold final_ok in *. destruct (pc g) eqn:E; simpl; rewrite ?E; auto.
  - unfold resume. destruct (pc g) eqn:E.
    + destruct (demand g =? 0)%nat; [exact F | apply final_ok_run_loop].
    + destruct (pendingResolve g); [exact F|].
      destruct (errorFromStream g); [exact I|].
      destruct (_ && _); [exact I | apply final_ok_run_loop].
    + destruct (resultPromise g) as [| r | e] eqn:Hr; [exact F | | exact I].
      destruct (toGenerateContentResponse r) as [c | t] eqn:Hc; [|exact I].
      unfold final_ok. simpl. exists r, c. rewrite last_snoc. auto.
    + destruct (demand g =? 0)%nat; [exact F|].
      unfold final_ok in *. rewrite E in F. exact F.
    + exact F.
    + exact F.
Qed.

Lemma reached_final_ok (p : PromiseState) (tr : list Action) :
  final_ok (run tr (createStreamGenerator p)).
Proof.
  assert (H : forall tr g, final_ok g -> final_ok (run tr g)).
  { clear. intros tr. induction tr as [|a tr IH]; intros g F; simpl; [exact F|].
    apply IH, step_final_ok, F. }
  apply H. exact I.
Qed.

(** X13.  [generateContent] ends with the final response or with what the
    generator threw: whatever the worker stream delivered and however it
    was interleaved with the consumer, when the generator has returned,
    the last chunk is the response made of the call's result, so the
    error for a stream without content is never the outcome of a returned
    generator. *)
Theorem generateContent_returns_the_final_response
    (p : PromiseState) (tr : list Action) :
  let g := run tr (createStreamGenerator p) in
  match generateContent g with
  | None => StreamProtocol.finished g = false
  | Some (inl c) =>
      pc g = Returned /\ is_final c = true
      /\ exists r, resultPromise g = Fulfilled r /\ toGenerateContentResponse r = inl c
  | Some (inr t) => pc g = Threw t
  end.
Proof.
  intros g. pose proof (reached_final_ok p tr) as F. fold g in F.
  unfold generateContent, final_ok, StreamProtocol.finished in *.
  destruct (pc g); try reflexivity.
  destruct F as (r & c & Hr & Hc & ->).
  split; [reflexivity|]. split; [|eauto].
  destruct (final_is_final r c Hc) as [parts ->]. reflexivity.
Qed.

Section Payload.

Variable JSON_stringify : Js.value -> string.

Local Abbreviation add_part := (GrokContentRequests.add_part JSON_stringify).
Local Abbreviation toMessage := (GrokContentRequests.toMessage JSON_stringify).
Local Abbreviation toChatPayload := (GrokContentRequests.toChatPayload JSON_stringify).

Lemma add_part_aggregated (acc : Parts) (part : Js.value) :
  functionResponseAggregated (add_part acc part)
  = functionResponseAggregated acc || is_function_response part.
Proof.
  unfold GrokContentRequests.add_part, is_function_response.
  destruct (is_object part); simpl; [|now rewrite orb_false_r].
  destruct (has_key "text" part && Js.is_string (Js.get_opt part "text")); simpl.
  { destruct (functionResponseAggregated acc) eqn:E; simpl; now rewrite E. }
  destruct (has_key "functionCall" part); simpl; [now rewrite orb_false_r|].
  destruct (has_key "functionResponse" part); simpl; [|now rewrite orb_false_r].
  rewrite orb_true_r.
  repeat match goal with
         | |- context [match ?x with _ => _ end] => destruct x
         end; reflexivity.
Qed.

Lemma fold_add_part_aggregated (parts : list Js.value) :
  forall acc : Parts,
    functionResponseAggregated (fold_left add_part parts acc)
    = functionResponseAggregated acc || existsb is_function_response parts.
Proof.
  induction parts as [|part parts IH]; intros acc; simpl.
  - now rewrite orb_false_r.
  - rewrite IH, add_part_aggregated. now rewrite orb_assoc.
Qed.

(** The parts of a content, as the loop reads them. *)
Lemma toMessage_cases (item : Js.value) (m : Message) :
  toMessage item = Some m ->
  role m <> Js.VStr "model"
  /\ (existsb is_function_response
        (match Js.get_opt item "parts" with Js.VArr ps => ps | _ => [] end) = true ->
      role m = Js.VStr "tool"
      /\ exists text, content m = [text_part text] /\ text <> "").
Proof.
  intros H.
  destruct item as [| | b | n | s | items | fields];
    try (simpl in H; discriminate H).
  { injection H as <-. simpl. split; discriminate. }
  unfold GrokContentRequests.toMessage in H.
  set (item := Js.VObj fields) in *.
  destruct (negb (is_object item) || negb (has_key "role" item)); [discriminate|].
  cbv zeta in H.
  set (parts := match Js.get_opt item "parts" with Js.VArr ps => ps | _ => [] end) in *.
  set (acc := fold_left add_part parts no_parts) in *.
  assert (Hflag : functionResponseAggregated acc = existsb is_function_response parts)
    by (unfold acc; now rewrite fold_add_part_aggregated).
  rewrite Hflag in H. destruct (existsb is_function_response parts).
  - injection H as <-. simpl. split; [discriminate|]. intros _. split; [reflexivity|].
    eexists. split; [reflexivity|].
    destruct (_ ++ _)%list; [|discriminate].
    destruct (Js.nonempty _) eqn:Hn; [|discriminate].
    now apply nonempty_true_iff.
  - injection H as <-. simpl. split; [|discriminate].
    destruct (Js.get_opt item "role") as [| | | | r | |]; try discriminate.
    destruct (String.eqb r "model") eqn:E; [discriminate|].
    apply String.eqb_neq in E. congruence.
Qed.

Lemma length_omap_le {A B} (f : A -> option B) (l : list A) :
  length (omap f l) <= length l.
Proof.
  induction l as [|x l IH]; [reflexivity|].
  change (omap f (x :: l)) with (match f x with Some y => y :: omap f l | None => omap f l end).
  destruct (f x); simpl; lia.
Qed.

(** The request of the test suite: a function response for the call
    [call-1] of the tool [search_code]. *)
Example toMessage_function_response :
  toMessage
    (Js.VObj [("role", Js.VStr "user");
              ("parts",
               Js.VArr [Js.VObj [("functionResponse",
                                  Js.VObj [("id", Js.VStr "call-1");
                                           ("name", Js.VStr "search_code");
                                           ("response",
                                            Js.VObj [("output", Js.VStr "tool output")])])]])])
  = Some {| role := Js.VStr "tool";
            content := [text_part ("[tool: search_code callId: call-1]" ++ LF
                                   ++ "tool output")%string] |}.
Proof. reflexivity. Qed.


End Payload.

End ContentRequests.

(** ** Trimming *)

Lemma trim_end_idempotent (s : string) : Js.trim_end (Js.trim_end s) = Js.trim_end s.
Proof.
  induction s as [|c rest IH]; [reflexivity|]. simpl.
  destruct (Js.trim_end rest) as [|d kept] eqn:E.
  - destruct (Js.is_space c) eqn:Hc; [reflexivity|]. simpl. now rewrite Hc.
  - change (Js.trim_end (String c (String d kept)))
      with (match Js.trim_end (String d kept) with
            | EmptyString => if Js.is_space c then EmptyString else String c EmptyString
            | k => String c k
            end).
    now rewrite IH.
Qed.

(** A string that does not begin with white space. *)
Lemma trim_start_head (s : string) :
  match Js.trim_start s with
  | EmptyString => True
  | String c _ => Js.is_space c = false
  end.
Proof.
  induction s as [|c rest IH]; simpl; [exact I|].
  destruct (Js.is_space c) eqn:Hc; [exact IH | exact Hc].
Qed.

Lemma trim_start_trim_end (s : string) :
  match s with EmptyString => True | String c _ => Js.is_space c = false end ->
  Js.trim_start (Js.trim_end s) = Js.trim_end s.
Proof.
  destruct s as [|c rest]; [reflexivity|]. intros Hc. simpl.
  destruct (Js.trim_end rest); rewrite ?Hc; simpl; now rewrite Hc.
Qed.

Lemma trim_end_keeps (c : ascii) (s : string) :
  Js.is_space c = false -> Js.trim_end (String c s) = String c (Js.trim_end s).
Proof. intros Hc. simpl. destruct (Js.trim_end s); [now rewrite Hc | reflexivity]. Qed.

Lemma trim_idempotent (s : string) : Js.trim (Js.trim s) = Js.trim s.
Proof.
  unfold Js.trim.
  rewrite (trim_start_trim_end (Js.trim_start s) (trim_start_head s)).
  apply trim_end_idempotent.
Qed.

(** ** The model identifiers of the providers *)

Lemma normalizeModel_fixed (v : option string) (m : string) :
  GrokProvider.normalizeModel v = Some m ->
  GrokProvider.normalizeModel (Some m) = Some m
  /\ Js.trim m = m
  /\ Js.startsWith "grok" (Js.toLowerCase m) = true.
Proof.
  assert (Hd : GrokProvider.normalizeModel (Some GrokProvider.DEFAULT_MODEL_ID)
               = Some GrokProvider.DEFAULT_MODEL_ID
               /\ Js.trim GrokProvider.DEFAULT_MODEL_ID = GrokProvider.DEFAULT_MODEL_ID
               /\ Js.startsWith "grok" (Js.toLowerCase GrokProvider.DEFAULT_MODEL_ID) = true)
    by (vm_compute; auto).
  unfold GrokProvider.normalizeModel at 1. destruct v as [v|]; [|discriminate].
  destruct (negb (Js.nonempty (Js.trim v))) eqn:Hne; [discriminate|].
  destruct (String.eqb _ "auto") eqn:Hauto; [intros [= <-]; exact Hd|].
  destruct (bool_decide _) eqn:Hleg; [intros [= <-]; exact Hd|].
  destruct (negb (Js.startsWith "grok" _)) eqn:Hgrok; [discriminate|].
  intros [= <-]. apply negb_false_iff in Hgrok.
  split; [|split; [apply trim_idempotent | exact Hgrok]].
  unfold GrokProvider.normalizeModel.
  now rewrite trim_idempotent, Hne, Hauto, Hleg, Hgrok.
Qed.

(** X15.  The identifier [resolveModel] returns, and the one
    [getDefaultModelId] returns, is always one the provider supports: it
    is in normal form (normalising it again gives it back, and it has no
    white space around it) and it begins with [grok], in any case of the
    letters. *)
Theorem resolved_model_is_supported (configModel : option string) (env : GrokProvider.Env) :
  let canonical (m : string) :=
    GrokProvider.isModelSupported m = true
    /\ GrokProvider.normalizeModel (Some m) = Some m
    /\ Js.trim m = m
    /\ Js.startsWith "grok" (Js.toLowerCase m) = true in
  canonical (GrokProvider.resolveModel configModel env)
  /\ canonical (GrokProvider.getDefaultModelId env).
Proof.
  intros canonical.
  assert (Hn : forall v m, GrokProvider.normalizeModel v = Some m -> canonical m).
  { intros v m H. destruct (normalizeModel_fixed v m H) as (H1 & H2 & H3).
    unfold canonical, GrokProvider.isModelSupported. now rewrite H1. }
  assert (Hd : canonical GrokProvider.DEFAULT_MODEL_ID) by (apply (Hn (Some "auto")); reflexivity).
  assert (Hu : forall v m, GrokProvider.usable (GrokProvider.normalizeModel v) = Some m ->
                           canonical m).
  { intros v m. unfold GrokProvider.usable.
    destruct (GrokProvider.normalizeModel v) as [m'|] eqn:E; [|discriminate].
    destruct (Js.nonempty m'); [|discriminate]. intros [= <-]. eapply Hn, E. }
  split.
  - unfold GrokProvider.resolveModel.
    destruct (GrokProvider.usable (GrokProvider.normalizeModel configModel)) as [m|] eqn:E1;
      [eapply Hu, E1|].
    destruct (GrokProvider.usable (GrokProvider.getEnvModel env)) as [m|] eqn:E2;
      [unfold GrokProvider.getEnvModel in E2; eapply Hu, E2 | exact Hd].
  - unfold GrokProvider.getDefaultModelId, GrokProvider.getEnvModel.
    destruct (GrokProvider.normalizeModel _) as [m|] eqn:E; [eapply Hn, E | exact Hd].
Qed.

Lemma prefix_split (p s : string) :
  String.prefix p s = true -> exists rest, s = (p ++ rest)%string.
Proof.
  revert s. induction p as [|c p IH]; intros s H.
  - exists s. reflexivity.
  - destruct s as [|d s]; [discriminate|]. simpl in H.
    destruct (ascii_dec c d) as [->|]; [|discriminate].
    destruct (IH s H) as [rest ->]. exists rest. reflexivity.
Qed.

Lemma gemini_is_not_grok (modelId : string) :
  Js.startsWith "gemini-" modelId = true ->
  GrokProvider.isModelSupported modelId = false.
Proof.
  intros H. apply prefix_split in H as [rest ->].
  unfold GrokProvider.isModelSupported, GrokProvider.normalizeModel.
  assert (Ht : exists kept, Js.trim ("gemini-" ++ rest) = ("gemini-" ++ kept)%string).
  { unfold Js.trim. exists (Js.trim_end rest).
    change (Js.trim_start ("gemini-" ++ rest)) with ("gemini-" ++ rest)%string.
    change ("gemini-" ++ rest)%string
      with (String "g" (String "e" (String "m" (String "i" (String "n" (String "i"
             (String "-" rest))))))).
    now rewrite !trim_end_keeps by reflexivity. }
  destruct Ht as [kept ->]. simpl.
  rewrite bool_decide_eq_false_2; [reflexivity|].
  unfold GrokProvider.GROK_LEGACY_ALIASES.
  rewrite !elem_of_union, !elem_of_singleton.
  intros H. decompose [or] H; discriminate.
Qed.

(** X16.  The registry holds the two providers under their own
    identifiers, its default provider is the Google one (looking it up
    cannot fail), and the providers do not compete for models: a model
    identifier that both support is [auto]. *)
Theorem providers_share_only_auto :
  let r := ModelProviderRegistry.create in
  List.map ModelProviderRegistry.id (ModelProviderRegistry.listProviders r)
  = ["google-genai"; "grok"]
  /\ ModelProviderRegistry.getDefaultProvider r = inl ModelProviderRegistry.googleProvider
  /\ (forall providerId p,
        ModelProviderRegistry.getProvider r providerId = Some p ->
        ModelProviderRegistry.id p = providerId)
  /\ (forall (modelId : string) (p q : ModelProviderRegistry.ModelProvider),
        In p (ModelProviderRegistry.listProviders r) ->
        In q (ModelProviderRegistry.listProviders r) ->
        ModelProviderRegistry.isModelSupported p modelId = true ->
        ModelProviderRegistry.isModelSupported q modelId = true ->
        p = q \/ modelId = "auto").
Proof.
  intros r. split; [reflexivity|]. split; [reflexivity|]. split.
  - intros providerId p. unfold ModelProviderRegistry.getProvider.
    change (ModelProviderRegistry.providers r)
      with [("google-genai", ModelProviderRegistry.googleProvider);
            ("grok", ModelProviderRegistry.grokProvider)].
    cbn [List.find fst].
    destruct (String.eqb "google-genai" providerId) eqn:E1.
    { apply String.eqb_eq in E1 as <-. intros [= <-]. reflexivity. }
    destruct (String.eqb "grok" providerId) eqn:E2; [|discriminate].
    apply String.eqb_eq in E2 as <-. intros [= <-]. reflexivity.
  - assert (Hx : forall modelId,
               GoogleGenAIProvider.isModelSupported modelId = true ->
               GrokProvider.isModelSupported modelId = true -> modelId = "auto").
    { intros modelId Hg Hk. unfold GoogleGenAIProvider.isModelSupported in Hg.
      apply orb_true_iff in Hg as [Hg | Hg]; [now apply String.eqb_eq in Hg|].
      rewrite (gemini_is_not_grok _ Hg) in Hk. discriminate. }
    intros modelId p q Hp Hq Sp Sq. simpl in Hp, Hq.
    destruct Hp as [<- | [<- | []]]; destruct Hq as [<- | [<- | []]]; simpl in Sp, Sq; auto.
Qed.

(** ** The environment files *)

Section EnvironmentFiles.

Import GrokEnvironment.

Lemma applyEnvValue_lookup (parsed e : Vars) (key k : string) :
  applyEnvValue parsed key e !! k
  = if decide (k = key)
    then if is_set (e !! key) then e !! key
         else if is_set (parsed !! key) then parsed !! key else e !! key
    else e !! k.
Proof.
  unfold applyEnvValue, is_set.
  destruct (parsed !! key) as [value|] eqn:Hp.
  - destruct (Js.nonempty value) eqn:Hv; simpl.
    + destruct (e !! key) as [current|] eqn:He.
      * destruct (Js.nonempty current) eqn:Hc.
        -- destruct (decide (k = key)) as [->|]; [exact He | reflexivity].
        -- destruct (decide (k = key)) as [->|Hne];
             [apply lookup_insert_eq | now apply lookup_insert_ne].
      * destruct (decide (k = key)) as [->|Hne];
          [apply lookup_insert_eq | now apply lookup_insert_ne].
    + destruct (decide (k = key)) as [->|]; [|reflexivity].
      destruct (e !! key) as [current|]; [|reflexivity].
      destruct (Js.nonempty current); reflexivity.
  - destruct (decide (k = key)) as [->|]; [|reflexivity].
    destruct (e !! key) as [current|]; [|reflexivity].
    destruct (Js.nonempty current); reflexivity.
Qed.

Lemma apply_file_lookup (parsed e : Vars) (k : string) :
  apply_file parsed e !! k
  = if bool_decide (In k keys)
    then if is_set (e !! k) then e !! k
         else if is_set (parsed !! k) then parsed !! k else e !! k
    else e !! k.
Proof.
  unfold apply_file. rewrite !applyEnvValue_lookup.
  destruct (decide (k = "GROK_MODEL_ID")) as [->|H1]; [reflexivity|].
  destruct (decide (k = "GROK_MODEL")) as [->|H2]; [reflexivity|].
  destruct (decide (k = "GROK_API_KEY")) as [->|H3]; [reflexivity|].
  rewrite bool_decide_eq_false_2; [reflexivity|].
  simpl. intros [? | [? | [? | []]]]; congruence.
Qed.

Lemma load_files_lookup (files : list (option Vars)) (k : string) :
  forall e : Vars,
    fold_left (fun e file => match file with
                             | Some parsed => apply_file parsed e
                             | None => e
                             end) files e !! k
    = if bool_decide (In k keys) && negb (is_set (e !! k))
      then match first_value files k with Some v => Some v | None => e !! k end
      else e !! k.
Proof.
  set (known := bool_decide (In k keys)).
  induction files as [|[parsed|] files IH]; intros e; cbn [fold_left first_value].
  - now destruct (_ && _).
  - rewrite IH, apply_file_lookup. fold known.
    destruct known; cbn [andb]; [|reflexivity].
    destruct (is_set (e !! k)) eqn:He; cbn [negb]; [now rewrite He|].
    destruct (is_set (parsed !! k)) eqn:Hp.
    + rewrite Hp. cbn [negb]. destruct (parsed !! k); [reflexivity | discriminate].
    + now rewrite He.
  - apply IH.
Qed.

(** X17.  Loading the environment files fills in variables, it never
    changes one: a variable that is set (present and not empty) keeps its
    value; only GROK_API_KEY, GROK_MODEL and GROK_MODEL_ID are taken from
    the files; one of these that is not set gets the value of the first
    file, in the order of the candidate paths, that sets it; and the
    files are read once, a second call changes nothing whatever the files
    hold by then. *)
Theorem environment_files_fill_only_unset_variables
    (files : list (option Vars)) (e : Vars) (key : string) :
  let st := ensureEnvironment files {| envLoaded := false; env := e |} in
  envLoaded st = true
  /\ (is_set (e !! key) = true -> env st !! key = e !! key)
  /\ (~ In key keys -> env st !! key = e !! key)
  /\ (In key keys -> is_set (e !! key) = false ->
      env st !! key = match first_value files key with
                      | Some v => Some v
                      | None => e !! key
                      end)
  /\ (forall files', ensureEnvironment files' st = st).
Proof.
  intros st. subst st. unfold ensureEnvironment. simpl.
  split; [reflexivity|]. rewrite load_files_lookup.
  split; [|split; [|split]].
  - intros ->. now rewrite andb_false_r.
  - intros Hk. now rewrite bool_decide_eq_false_2.
  - intros Hk ->. now rewrite bool_decide_eq_true_2.
  - reflexivity.
Qed.

End EnvironmentFiles.

(** ** How a provider is shown *)

Section Display.

Import ProviderDisplay.

(** X18.  The name shown for a provider is the identifier without the
    white space around it, but [gemini] for the identifier that trims to
    [google-genai]; no name is shown for an identifier that is absent,
    empty or blank.  So a name that is shown is never blank, has no white
    space around it and is shown as itself, and it is [gemini] exactly for
    the identifiers that trim to [google-genai] or to [gemini] itself.
    The message prefix and the console summary show the same name
    whenever there is one; for an identifier made of white space only the
    prefix shows no provider while the summary shows the identifier as it
    is. *)
Theorem provider_display_name_is_trimmed
    (stringWidth : string -> nat) (SCREEN_READER_MODEL_PREFIX : string)
    (providerId : option string) (model : string) :
  let shown := getProviderDisplayName providerId in
  let message := getModelMessagePrefix stringWidth SCREEN_READER_MODEL_PREFIX providerId in
  let summary := providerDisplay providerId model in
  match shown with
  | Some name =>
      name <> "" /\ Js.trim name = name
      /\ getProviderDisplayName (Some name) = Some name
      /\ (name = "gemini" <->
          exists id, providerId = Some id
                     /\ (Js.trim id = "google-genai" \/ Js.trim id = "gemini"))
      /\ prefix message = "✦ " ++ name ++ " · "
      /\ summary = name ++ " · " ++ model
  | None =>
      prefix message = "✦ "
      /\ match providerId with
         | None => summary = model
         | Some id => Js.trim id = "" /\ summary = if Js.nonempty id then id ++ " · " ++ model
                                                  else model
         end
  end
  /\ match providerId with
     | None => shown = None
     | Some id =>
         (Js.trim id = "" ->
          shown = None /\ prefix message = "✦ "
          /\ summary = if Js.nonempty id then id ++ " · " ++ model else model)
         /\ (Js.trim id = "google-genai" -> shown = Some "gemini")
         /\ (Js.trim id <> "" -> Js.trim id <> "google-genai" -> shown = Some (Js.trim id))
     end.
Proof.
  intros shown message summary. subst shown message summary.
  unfold getModelMessagePrefix, providerDisplay.
  destruct providerId as [id|]; [|simpl; auto].
  unfold getProviderDisplayName.
  destruct (Js.nonempty id) eqn:Hid; simpl.
  2:{ apply negb_true_iff in Hid.
      assert (id = "") as -> by (destruct id; [reflexivity | discriminate]).
      split; [split; [reflexivity | split; reflexivity]|].
      split; [auto|]. split; [discriminate|]. intros H. now destruct H. }
  destruct (Js.nonempty (Js.trim id)) eqn:Ht; simpl.
  2:{ assert (Hblank : Js.trim id = "")
        by (destruct (Js.trim id); [reflexivity | discriminate]).
      rewrite Hid.
      split; [split; [reflexivity | split; [exact Hblank | reflexivity]]|].
      split; [auto|]. split; [rewrite Hblank; discriminate|]. intros H. now destruct H. }
  assert (Hne : Js.trim id <> "") by (now apply nonempty_true_iff).
  destruct (String.eqb (Js.trim id) "google-genai") eqn:Hg.
  - apply String.eqb_eq in Hg. simpl. split.
    + repeat split; try reflexivity; try discriminate.
      intros _. exists id. auto.
    + split; [intros H; now destruct Hne|]. split; [reflexivity|].
      intros _ H. now destruct H.
  - apply String.eqb_neq in Hg.
    rewrite trim_idempotent, Ht, (proj2 (String.eqb_neq _ _) Hg). simpl. split.
    + repeat split; try reflexivity; try assumption.
      * intros Hname. exists id. auto.
      * intros (id' & [= <-] & [H | H]); congruence.
    + split; [intros H; now destruct Hne|]. split; [intros H; now destruct Hg|].
      reflexivity.
Qed.

End Display.

(** ** The [/agent] command *)

Section Agent.

Import AgentCommand JsText.
Local Open Scope list_scope.

Lemma join_head (sep : string) (c : ascii) (p : string) (ps : list string) :
  exists rest, Js.join sep (String c p :: ps) = String c rest.
Proof.
  unfold Js.join. revert p. induction ps as [|q ps IH]; intros p; simpl; [eauto|].
  apply IH.
Qed.

(** The first piece of a string that does not begin with white space is
    not empty. *)
Lemma split_ws_head (c : ascii) (s : string) :
  Js.is_space c = false ->
  exists piece pieces, split_ws (String c s) = String c piece :: pieces.
Proof.
  intros Hc. simpl. rewrite Hc.
  destruct (split_ws s) as [|piece pieces]; eauto.
Qed.

Lemma trim_head (s : string) :
  match Js.trim s with
  | EmptyString => True
  | String c _ => Js.is_space c = false
  end.
Proof.
  unfold Js.trim. pose proof (trim_start_head s) as H.
  destruct (Js.trim_start s) as [|c rest]; [exact I|].
  now rewrite trim_end_keeps.
Qed.

(** The cases of the test suite: two providers, the first one active. *)
Example agent_command_examples :
  let services :=
    {| config := Some {| listModelProviders := ["google-genai"; "grok"];
                         getModelProviderId := "google-genai";
                         setModelProvider := fun _ => None |};
       has_setValue := true |} in
  action services "use grok"
  = (createMessage info "Switched active model provider to grok.",
     [SetModelProvider "grok"; SetValue "grok"])
  /\ action services "grok" = action services "use grok"
  /\ action services "use unknown"
     = (createMessage error "Unknown model provider: unknown", [])
  /\ action services ""
     = (createMessage info
          ("Available model providers:" ++ LF ++ " * google-genai (active)" ++ LF
           ++ " - grok" ++ LF ++ LF
           ++ "Use `/agent use <providerId>` or `/agent <providerId>` to switch providers.")%string,
        [])
  /\ fst (action {| config := None; has_setValue := true |} "list")
     = createMessage error
         "Configuration is not initialized; unable to manage model providers."
  /\ completion services "use gr" = ["grok"]
  /\ completion services "s" = ["switch"; "set"].
Proof. repeat split; reflexivity. Qed.

(** X19.  The [/agent] command changes the provider only on request and
    only to a provider that is registered and not active.  A switch is
    requested by [/agent <id>], where [id] is none of the words of the
    command, or by [/agent use <id>] (or [switch], or [set]; what follows
    [id] is ignored).  The one call the command ever makes to
    [setModelProvider] has the identifier that was requested, which is
    registered and not active; the setting is written only after that call
    has succeeded, with the same identifier, and then the message reports
    the switch; when the call throws, nothing is written and the message
    is an error.  Conversely, every request for a provider that is
    registered and not active makes that call.  The message that asks for
    an identifier is never returned. *)
Theorem agent_command_switches_only_to_registered_providers
    (services : Services) (rawArgs : string) :
  let result := action services rawArgs in
  let tokens := List.filter Js.nonempty (split_ws (Js.trim rawArgs)) in
  let requested (id : string) :=
    Js.trim rawArgs <> "list" /\ Js.trim rawArgs <> "current"
    /\ ((tokens = [id] /\ includes id verbs = false)
        \/ exists verb more, tokens = verb :: id :: more /\ includes verb verbs = true) in
  content result.1 <> "You must provide a model provider identifier."
  /\ (result.2 = []
      \/ exists cfg id,
           config services = Some cfg
           /\ requested id
           /\ includes id (listModelProviders cfg) = true
           /\ id <> getModelProviderId cfg
           /\ ((exists thrown, setModelProvider cfg id = Some thrown)
               /\ result.2 = [SetModelProvider id]
               /\ messageType result.1 = error
               \/ setModelProvider cfg id = None
                  /\ result.2 = SetModelProvider id
                                :: (if has_setValue services then [SetValue id] else [])
                  /\ result.1 = createMessage info
                                  ("Switched active model provider to " ++ id ++ ".")))
  /\ (forall cfg id,
        config services = Some cfg -> requested id ->
        includes id (listModelProviders cfg) = true -> id <> getModelProviderId cfg ->
        exists more, result.2 = SetModelProvider id :: more).
Proof.
  intros result tokens requested. subst result tokens requested. cbv beta. unfold action.
  destruct (config services) as [cfg|] eqn:Hcfg.
  2:{ split; [discriminate|]. split; [now left|]. intros cfg id [=]. }
  destruct (length (listModelProviders cfg) =? 0)%nat eqn:Hlen.
  { split; [discriminate|]. split; [now left|].
    intros cfg' id [= <-] _ Hin _. apply Nat.eqb_eq in Hlen.
    apply nil_length_inv in Hlen. rewrite Hlen in Hin. discriminate Hin. }
  destruct (_ || _) eqn:Hlist.
  { split.
    { unfold formatProviderList. cbn [fst content createMessage app].
      match goal with
      | |- Js.join ?sep (String ?c ?p :: ?ps) <> _ =>
          destruct (join_head sep c p ps) as [rest ->]
      end.
      discriminate. }
    split; [now left|].
    intros cfg' id _ (Hl & _ & Htok) _ _. apply orb_true_iff in Hlist as [Hz | Hz].
    - apply Nat.eqb_eq in Hz.
      assert (Js.trim rawArgs = "") as Hempty
          by (destruct (Js.trim rawArgs); [reflexivity | discriminate]).
      rewrite Hempty in Htok.
      destruct Htok as [[Htok _] | (verb & more & Htok & _)]; discriminate Htok.
    - apply String.eqb_eq in Hz. contradiction. }
  apply orb_false_iff in Hlist as [Hnz Hlist]. apply String.eqb_neq in Hlist.
  destruct (String.eqb (Js.trim rawArgs) "current") eqn:Hcur.
  { split; [discriminate|]. split; [now left|].
    intros cfg' id _ (_ & Hc & _) _ _. apply String.eqb_eq in Hcur. contradiction. }
  apply String.eqb_neq in Hcur.
  cbv zeta.
  pose proof (trim_head rawArgs) as Hhead.
  destruct (Js.trim rawArgs) as [|c rest] eqn:Htrim; [discriminate Hnz|].
  destruct (split_ws_head c rest Hhead) as (piece & pieces & ->).
  change (List.filter Js.nonempty (String c piece :: pieces))
    with (String c piece :: List.filter Js.nonempty pieces).
  assert (Hfirst : Js.nonempty (String c piece) = true) by reflexivity.
  revert Hfirst. generalize (String c piece). intros first Hfirst.
  assert (Hrest : forall second more,
             List.filter Js.nonempty pieces = second :: more -> Js.nonempty second = true).
  { intros second more Hf.
    assert (Hin : In second (List.filter Js.nonempty pieces)) by (rewrite Hf; now left).
    now apply filter_In in Hin. }
  (* the switch to the provider the arguments name *)
  assert (Hswitch : forall t : string,
    Js.nonempty t = true ->
    ((List.filter Js.nonempty pieces = [] /\ t = first /\ includes first verbs = false)
     \/ (exists more, List.filter Js.nonempty pieces = t :: more)
        /\ includes first verbs = true) ->
    let r :=
      (if negb (Js.nonempty t)
       then (createMessage error
               ("Unrecognised agent command: " ++ GrokToolingSupport.dquote
                ++ String c rest ++ GrokToolingSupport.dquote ++ "."), [])
       else if negb (includes t (listModelProviders cfg))
       then (createMessage error ("Unknown model provider: " ++ t), [])
       else if String.eqb t (getModelProviderId cfg)
       then (createMessage info ("Model provider " ++ t ++ " is already active."), [])
       else
         match setModelProvider cfg t with
         | Some thrown =>
             (createMessage error
                ("Failed to activate provider " ++ t ++ ": "
                 ++ match thrown with
                    | ThrownError e => err_message e
                    | ThrownValue v => Js.to_String v
                    end),
              [SetModelProvider t])
         | None =>
             (createMessage info ("Switched active model provider to " ++ t ++ "."),
              SetModelProvider t :: (if has_setValue services then [SetValue t] else []))
         end) in
    content r.1 <> "You must provide a model provider identifier."
    /\ (r.2 = []
        \/ exists cfg0 id,
             Some cfg = Some cfg0
             /\ (String c rest <> "list" /\ String c rest <> "current"
                 /\ ((first :: List.filter Js.nonempty pieces = [id]
                      /\ includes id verbs = false)
                     \/ exists verb more,
                          first :: List.filter Js.nonempty pieces = verb :: id :: more
                          /\ includes verb verbs = true))
             /\ includes id (listModelProviders cfg0) = true
             /\ id <> getModelProviderId cfg0
             /\ ((exists thrown, setModelProvider cfg0 id = Some thrown)
                 /\ r.2 = [SetModelProvider id]
                 /\ messageType r.1 = error
                 \/ setModelProvider cfg0 id = None
                    /\ r.2 = SetModelProvider id
                             :: (if has_setValue services then [SetValue id] else [])
                    /\ r.1 = createMessage info
                               ("Switched active model provider to " ++ id ++ ".")))
    /\ (includes t (listModelProviders cfg) = true -> t <> getModelProviderId cfg ->
        exists more, r.2 = SetModelProvider t :: more)).
  { intros t Ht Hshape r. subst r. rewrite Ht. cbn [negb].
    assert (Hreq : String c rest <> "list" /\ String c rest <> "current"
                   /\ ((first :: List.filter Js.nonempty pieces = [t]
                        /\ includes t verbs = false)
                       \/ exists verb more,
                            first :: List.filter Js.nonempty pieces = verb :: t :: more
                            /\ includes verb verbs = true)).
    { split; [exact Hlist|]. split; [exact Hcur|].
      destruct Hshape as [(Hnil & -> & Hv) | [[more Hmore] Hv]].
      - left. now rewrite Hnil.
      - right. exists first, more. now rewrite Hmore. }
    destruct (includes t (listModelProviders cfg)) eqn:Hin; cbn [negb].
    2:{ split; [discriminate|]. split; [now left | discriminate]. }
    destruct (String.eqb t (getModelProviderId cfg)) eqn:Hact.
    { apply String.eqb_eq in Hact.
      split; [discriminate|]. split; [now left|]. intros _ H. contradiction. }
    apply String.eqb_neq in Hact.
    destruct (setModelProvider cfg t) as [thrown|] eqn:Hset;
      cbn [fst snd content messageType createMessage];
      (split; [discriminate|]); (split; [|intros _ _; eexists; reflexivity]);
      right; exists cfg, t;
      (split; [reflexivity|]); (split; [exact Hreq|]);
      (split; [exact Hin|]); (split; [exact Hact|]);
      [left; split; [eauto | split; reflexivity]
      |right; split; [exact Hset | split; reflexivity]]. }
  destruct (List.filter Js.nonempty pieces) as [|second more] eqn:Hpieces.
  - destruct (includes first verbs) eqn:Hverb.
    + split; [discriminate|]. split; [now left|].
      intros cfg' id _ (_ & _ & Htok) _ _.
      destruct Htok as [[[= <-] Hv] | (verb & more & [=] & _)]. congruence.
    + destruct (Hswitch first Hfirst) as (H1 & H2 & H3); [left; auto|].
      split; [exact H1|]. split; [exact H2|].
      intros cfg' id [= <-] (_ & _ & Htok) Hin Hact.
      destruct Htok as [[[= <-] _] | (verb & more & [=] & _)]. now apply H3.
  - destruct (includes first verbs) eqn:Hverb.
    + destruct (Hswitch second (Hrest _ _ eq_refl)) as (H1 & H2 & H3); [right; eauto|].
      split; [exact H1|]. split; [exact H2|].
      intros cfg' id [= <-] (_ & _ & Htok) Hin Hact.
      destruct Htok as [[[=] _] | (verb & more' & [= <- <- <-] & _)]. now apply H3.
    + split; [discriminate|]. split; [now left|].
      intros cfg' id _ (_ & _ & Htok) _ _.
      destruct Htok as [[[=] _] | (verb & more' & [= <- <- <-] & Hv)]. congruence.
Qed.

(** X20.  Completions extend what was typed: every suggestion begins
    with the last piece of the trimmed input, and it is one of the words
    of the command or a registered provider; after a verb only providers
    are suggested. *)
Theorem completions_extend_what_was_typed (services : Services) (partialArg : string) :
  Forall (fun suggestion =>
            (exists typed, last (split_ws (Js.trim partialArg)) = Some typed
                           /\ Js.startsWith typed suggestion = true)
            /\ exists cfg, config services = Some cfg
                           /\ (In suggestion (listModelProviders cfg)
                               \/ (length (split_ws (Js.trim partialArg)) = 1
                                   /\ In suggestion ["list"; "current"; "use"; "switch"; "set"])))
         (completion services partialArg).
Proof.
  unfold completion. destruct (config services) as [cfg|]; [|constructor].
  destruct (String.length (Js.trim partialArg) =? 0)%nat eqn:Hlen.
  { apply Nat.eqb_eq in Hlen.
    assert (Js.trim partialArg = "") as -> by (destruct (Js.trim partialArg); [reflexivity | discriminate]).
    apply List.Forall_forall. intros s Hs.
    split; [exists ""; split; [reflexivity | destruct s; reflexivity]|].
    exists cfg. split; [reflexivity|].
    apply in_app_or in Hs as [Hs | Hs]; [right | now left].
    split; [reflexivity|]. simpl in Hs |- *. intuition auto. }
  destruct (split_ws (Js.trim partialArg)) as [|first [|second [|third more]]];
    try constructor.
  - apply List.Forall_forall. intros s Hs. apply filter_In in Hs as [Hs Hp].
    split; [exists first; split; [reflexivity | exact Hp]|].
    exists cfg. split; [reflexivity|].
    apply in_app_or in Hs as [Hs | Hs]; [right; split; [reflexivity | exact Hs] | now left].
  - destruct (includes first verbs); [|constructor].
    apply List.Forall_forall. intros s Hs. apply filter_In in Hs as [Hs Hp].
    split; [exists second; split; [reflexivity | exact Hp]|].
    exists cfg. split; [reflexivity | now left].
Qed.

End Agent.

(** ** The tool calls kept for display *)

Section ToolCallsForDisplay.

Import ToolScheduler JsText.
Local Open Scope list_scope.

Context {Details Output : Type}.

Local Abbreviation Tracked := (@TrackedToolCall Details Output).
Local Abbreviation Core := (@ToolCall Details).
Local Abbreviation Upd := (@Update Details Output).

(** What the display shows of a core call. *)
Local Abbreviation shown_of_core :=
  (fun c : Core => (core_callId c, core_status c, core_details c)).
Local Abbreviation shown_of :=
  (fun tc : Tracked => (callId tc, status tc, details tc)).

Lemma apply_mirrors (u : Upd) (calls : list Tracked) (report : list Core) :
  List.map shown_of calls = List.map shown_of_core report ->
  Forall (@tracked_ok Details Output) calls ->
  List.map shown_of (apply u calls)
  = List.map shown_of_core
      (match u with ToolCallsUpdate updated => updated | _ => report end)
  /\ Forall (@tracked_ok Details Output) (apply u calls).
Proof.
  intros Hm Hok. destruct u as [id chunk | updated | ids]; simpl.
  - unfold outputUpdateHandler. split.
    + rewrite <- Hm, List.map_map. apply List.map_ext. intros tc.
      destruct (_ && _); reflexivity.
    + apply Forall_map. eapply Forall_impl; [exact Hok|]. intros tc [H1 H2].
      destruct (String.eqb (callId tc) id && is_executing (status tc)) eqn:E;
        [|split; assumption].
      apply andb_true_iff in E as [_ E]. split; [exact H1|]. simpl.
      intros Hne. destruct (status tc); try discriminate. now destruct Hne.
  - unfold toolCallsUpdateHandler. split.
    + rewrite List.map_map. apply List.map_ext. intros c.
      destruct (is_executing (core_status c)); reflexivity.
    + apply Forall_map, Forall_forall. intros c _.
      destruct (is_executing (core_status c)) eqn:E; split; simpl;
        try discriminate; try (intros _; split; reflexivity).
      intros Hne. destruct (core_status c); try discriminate. now destruct Hne.
  - unfold markToolsAsSubmitted. split.
    + rewrite <- Hm, List.map_map. apply List.map_ext. intros tc.
      destruct (includes _ _); reflexivity.
    + apply Forall_map. eapply Forall_impl; [exact Hok|]. intros tc [H1 H2].
      destruct (includes _ _); split; simpl; auto; discriminate.
Qed.

(** X21.  The tool calls kept for display mirror the scheduler: after any
    sequence of updates they are, in order, the calls of the scheduler's
    last report, with the same identifiers, statuses and contents; live
    output and a process identifier are kept for executing calls only;
    and the submitted flag of a call is never absent. *)
Theorem display_mirrors_the_last_report (updates : list Upd) :
  List.map shown_of (display updates) = List.map shown_of_core (last_report updates)
  /\ Forall (fun tc : Tracked =>
               responseSubmittedToGemini tc <> None
               /\ (status tc <> executing -> liveOutput tc = None /\ pid tc = None))
            (display updates).
Proof.
  unfold display, last_report.
  assert (H : forall (updates : list Upd) (calls : list Tracked) (report : list Core),
             List.map shown_of calls = List.map shown_of_core report ->
             Forall (@tracked_ok Details Output) calls ->
             List.map shown_of (fold_left (fun calls u => apply u calls) updates calls)
             = List.map shown_of_core
                 (fold_left (fun report u => match u with
                                            | ToolCallsUpdate updated => updated
                                            | _ => report
                                            end) updates report)
             /\ Forall (@tracked_ok Details Output)
                  (fold_left (fun calls u => apply u calls) updates calls)).
  { clear. intros updates. induction updates as [|u updates IH]; intros calls report Hm Hok;
      simpl; [auto|].
    destruct (apply_mirrors u calls report Hm Hok) as [Hm' Hok'].
    apply IH; assumption. }
  apply H; [reflexivity | constructor].
Qed.

(** The flag of a tracked call is true only if its identifier was marked. *)
Lemma apply_flag (u : Upd) (calls : list Tracked) (seen : list Upd) :
  (forall tc, In tc calls -> responseSubmittedToGemini tc = Some true ->
              existsb (marks (callId tc)) seen = true) ->
  forall tc, In tc (apply u calls) -> responseSubmittedToGemini tc = Some true ->
             existsb (marks (callId tc)) (seen ++ [u]) = true.
Proof.
  intros H tc Hin Hflag. rewrite existsb_app. apply orb_true_iff.
  destruct u as [id chunk | updated | ids]; simpl in Hin.
  - left. unfold outputUpdateHandler in Hin. apply in_map_iff in Hin as (tc0 & <- & Hin).
    destruct (_ && _); apply (H tc0 Hin); exact Hflag.
  - left. unfold toolCallsUpdateHandler in Hin. apply in_map_iff in Hin as (c & Htc & _).
    destruct (List.find (fun ptc : Tracked => String.eqb (callId ptc) (core_callId c)) calls)
      as [existing|] eqn:Hfind.
    + apply find_some in Hfind as [Hex Heq]. apply String.eqb_eq in Heq.
      assert (Hid : callId tc = callId existing)
        by (rewrite Heq, <- Htc; destruct (is_executing _); reflexivity).
      rewrite Hid. apply (H existing Hex).
      assert (Hf : responseSubmittedToGemini tc
                   = Some match responseSubmittedToGemini existing with
                          | Some flag => flag
                          | None => false
                          end)
        by (rewrite <- Htc; destruct (is_executing _); reflexivity).
      rewrite Hflag in Hf. destruct (responseSubmittedToGemini existing) as [[]|];
        congruence.
    + exfalso. rewrite <- Htc in Hflag. destruct (is_executing _); discriminate.
  - unfold markToolsAsSubmitted in Hin. apply in_map_iff in Hin as (tc0 & <- & Hin).
    destruct (includes (callId tc0) ids) eqn:E.
    + right. simpl. now rewrite E.
    + left. apply (H tc0 Hin). exact Hflag.
Qed.

Lemma display_app (xs ys : list Upd) :
  display (xs ++ ys) = fold_left (fun calls u => apply u calls) ys (display xs).
Proof. unfold display. apply fold_left_app. Qed.

(** Once every call with an identifier is flagged, it stays so as long
    as the scheduler keeps reporting the identifier. *)
Lemma apply_keeps_flag (id : string) (u : Upd) (calls : list Tracked) :
  keeps id u = true ->
  includes id (List.map callId calls) = true ->
  (forall tc, In tc calls -> callId tc = id -> responseSubmittedToGemini tc = Some true) ->
  includes id (List.map callId (apply u calls)) = true
  /\ (forall tc, In tc (apply u calls) -> callId tc = id ->
                 responseSubmittedToGemini tc = Some true).
Proof.
  intros Hk Hin Hall. destruct u as [id' chunk | updated | ids]; simpl in *.
  - unfold outputUpdateHandler. split.
    + rewrite List.map_map.
      erewrite List.map_ext; [exact Hin|]. intros tc. destruct (_ && _); reflexivity.
    + intros tc Htc Hid. apply in_map_iff in Htc as (tc0 & <- & Htc).
      destruct (_ && _); simpl in *; now apply Hall.
  - unfold toolCallsUpdateHandler. split.
    + rewrite List.map_map.
      erewrite List.map_ext; [exact Hk|]. intros c. destruct (is_executing _); reflexivity.
    + intros tc Htc Hid. apply in_map_iff in Htc as (c & <- & _).
      assert (Hc : core_callId c = id) by (destruct (is_executing _); exact Hid).
      destruct (List.find (fun ptc : Tracked => String.eqb (callId ptc) (core_callId c)) calls)
        as [existing|] eqn:Hfind.
      * apply find_some in Hfind as [Hex Heq]. apply String.eqb_eq in Heq.
        rewrite (Hall existing Hex) by congruence.
        destruct (is_executing _); reflexivity.
      * exfalso. unfold includes in Hin. apply existsb_exists in Hin as (x & Hx & Hxe).
        apply String.eqb_eq in Hxe. subst x.
        apply in_map_iff in Hx as (tc0 & Hid0 & Htc0).
        pose proof (find_none _ _ Hfind tc0 Htc0) as Hn. simpl in Hn.
        apply String.eqb_neq in Hn. congruence.
  - unfold markToolsAsSubmitted. split.
    + rewrite List.map_map.
      erewrite List.map_ext; [exact Hin|]. intros tc.
      destruct (includes (callId tc) ids); reflexivity.
    + intros tc Htc Hid. apply in_map_iff in Htc as (tc0 & <- & Htc).
      destruct (includes (callId tc0) ids); simpl in *; [reflexivity | now apply Hall].
Qed.

(** X22.  The submitted flag follows [markToolsAsSubmitted]: a tracked
    call is flagged as submitted only if some update marked its
    identifier; and when a tracked identifier has been marked, every call
    that bears it stays flagged through all later updates, as long as
    each report of the scheduler still lists the identifier. *)
Theorem submitted_flag_follows_the_marks :
  (forall (updates : list Upd) (tc : Tracked),
     In tc (display updates) -> responseSubmittedToGemini tc = Some true ->
     existsb (marks (callId tc)) updates = true)
  /\ (forall (before after : list Upd) (ids : list string) (id : string),
        includes id ids = true ->
        includes id (List.map callId (display before)) = true ->
        forallb (keeps id) after = true ->
        forall tc : Tracked,
          In tc (display (before ++ MarkSubmitted ids :: after)) ->
          callId tc = id -> responseSubmittedToGemini tc = Some true).
Proof.
  split.
  - assert (H : forall (updates seen : list Upd) (calls : list Tracked),
               (forall tc, In tc calls -> responseSubmittedToGemini tc = Some true ->
                           existsb (marks (callId tc)) seen = true) ->
               forall tc,
                 In tc (fold_left (fun calls u => apply u calls) updates calls) ->
                 responseSubmittedToGemini tc = Some true ->
                 existsb (marks (callId tc)) (seen ++ updates) = true).
    { intros updates. induction updates as [|u updates IH]; intros seen calls Hc tc Hin Hf.
      - rewrite app_nil_r. now apply Hc.
      - replace (seen ++ u :: updates) with ((seen ++ [u]) ++ updates)
          by (now rewrite <- app_assoc).
        eapply IH; [|exact Hin|exact Hf]. now apply apply_flag. }
    intros updates tc Hin Hf. apply (H updates [] []); [intros ? []| |]; assumption.
  - intros before after ids id Hid Htracked Hkeep.
    replace (before ++ MarkSubmitted ids :: after)
      with ((before ++ [MarkSubmitted ids]) ++ after) by (now rewrite <- app_assoc).
    rewrite display_app.
    assert (Hstart :
      includes id (List.map callId (display (before ++ [MarkSubmitted ids]))) = true
      /\ (forall tc, In tc (display (before ++ [MarkSubmitted ids])) -> callId tc = id ->
                     responseSubmittedToGemini tc = Some true)).
    { rewrite display_app. simpl. unfold markToolsAsSubmitted. split.
      - rewrite List.map_map. erewrite List.map_ext; [exact Htracked|].
        intros tc. destruct (includes (callId tc) ids); reflexivity.
      - intros tc Htc Hc. apply in_map_iff in Htc as (tc0 & <- & _).
        destruct (includes (callId tc0) ids) eqn:E; [reflexivity|].
        simpl in Hc. congruence. }
    revert Hstart. generalize (display (before ++ [MarkSubmitted ids])). clear Htracked.
    induction after as [|u after IH]; intros calls [H1 H2]; simpl; [exact H2|].
    simpl in Hkeep. apply andb_true_iff in Hkeep as [Hk Hkeep].
    apply (IH Hkeep). now apply apply_keeps_flag.
Qed.

End ToolCallsForDisplay.

Example extractUrls_examples :
  WebFetch.extractUrls "see https://a.example/x and http://b.example, then"
  = ["https://a.example/x"; "http://b.example,"]
  /\ WebFetch.extractUrls "http:// nothing https://" = []
  /\ WebFetch.extractUrls "xhttp://https://y z" = ["http://https://y"].
Proof. repeat split; reflexivity. Qed.

Example shortenPath_examples :
  Paths.shortenPath "/home/user/project/src/components/Button.tsx" 35
  = "/home/.../src/components/Button.tsx"
  /\ Paths.shortenPath "averyveryveryveryverylongfilename-without-separator.txt" 20
     = "averyver...ator.txt"
  /\ Paths.shortenPath "/short/path" 35 = "/short/path".
Proof. repeat split; reflexivity. Qed.

(** ** Strings: prefixes, pieces and white space *)

Section Strings.

Import JsText.

Lemma append_cons (x : ascii) (a b : string) :
  (String x a ++ b)%string = String x (a ++ b).
Proof. reflexivity. Qed.

Lemma append_nil_l (s : string) : ("" ++ s)%string = s.
Proof. reflexivity. Qed.

Lemma append_assoc (a b c : string) : ((a ++ b) ++ c = a ++ (b ++ c))%string.
Proof.
  induction a as [|x a IH]; [reflexivity|]. rewrite !append_cons. now rewrite IH.
Qed.

Lemma length_append (a b : string) :
  String.length (a ++ b) = String.length a + String.length b.
Proof.
  induction a as [|x a IH]; [reflexivity|]. rewrite append_cons. simpl. now rewrite IH.
Qed.

Lemma prefix_nil (s : string) : String.prefix "" s = true.
Proof. now destruct s. Qed.

Lemma prefix_app (p s : string) : String.prefix p (p ++ s) = true.
Proof.
  induction p as [|c p IH]; [apply prefix_nil|]. rewrite append_cons. simpl.
  destruct (ascii_dec c c); [exact IH | congruence].
Qed.

Lemma prefix_app_same (p x s : string) :
  String.prefix (p ++ x) (p ++ s) = String.prefix x s.
Proof.
  induction p as [|c p IH]; [reflexivity|]. rewrite !append_cons. simpl.
  destruct (ascii_dec c c); [exact IH | congruence].
Qed.

Lemma drop_app (p s : string) : drop (String.length p) (p ++ s) = s.
Proof.
  induction p as [|c p IH]; [now destruct s|]. rewrite append_cons. exact IH.
Qed.

Lemma contains_prefix (needle s : string) :
  String.prefix needle s = true -> contains needle s = true.
Proof. intros H. destruct s; simpl in *; now rewrite H. Qed.

Lemma contains_cons (needle : string) (c : ascii) (s : string) :
  contains needle s = true -> contains needle (String c s) = true.
Proof.
  intros H. change (contains needle (String c s))
    with (String.prefix needle (String c s) || contains needle s).
  now rewrite H, orb_true_r.
Qed.

Lemma blank_app (a b : string) : blank (a ++ b) = blank a && blank b.
Proof.
  induction a as [|c a IH]; [reflexivity|]. rewrite append_cons. simpl.
  now rewrite IH, andb_assoc.
Qed.

Lemma contains_not_blank (needle s : string) :
  blank needle = false -> contains needle s = true -> blank s = false.
Proof.
  intros Hn. induction s as [|c s IH]; intros H.
  - simpl in H. rewrite orb_false_r in H. destruct needle; [discriminate Hn | discriminate H].
  - change (contains needle (String c s))
      with (String.prefix needle (String c s) || contains needle s) in H.
    apply orb_true_iff in H as [H | H].
    + apply prefix_split in H as [rest ->]. now rewrite blank_app, Hn.
    + simpl. now rewrite (IH H), andb_false_r.
Qed.

Lemma trim_start_blank (s : string) : blank (Js.trim_start s) = blank s.
Proof.
  induction s as [|c s IH]; simpl; [reflexivity|].
  destruct (Js.is_space c) eqn:Hc; simpl; [exact IH | now rewrite Hc].
Qed.

Lemma trim_end_empty (s : string) : Js.trim_end s = "" <-> blank s = true.
Proof.
  induction s as [|c s IH]; simpl; [tauto|].
  destruct (Js.trim_end s) as [|d kept].
  - destruct (Js.is_space c); simpl.
    + rewrite <- IH. tauto.
    + split; discriminate.
  - split; [discriminate|]. intros H. apply andb_true_iff in H as [_ H].
    apply IH in H. discriminate.
Qed.

Lemma trim_empty (s : string) : Js.trim s = "" <-> blank s = true.
Proof. unfold Js.trim. now rewrite trim_end_empty, trim_start_blank. Qed.

End Strings.

(** ** The prompt of the web fetch tool *)

Section WebFetchPrompt.

Import JsText WebFetch.

Lemma no_space_app (a b : string) : no_space (a ++ b) = no_space a && no_space b.
Proof.
  induction a as [|c a IH]; [reflexivity|]. rewrite append_cons. simpl.
  now rewrite IH, andb_assoc.
Qed.

Lemma take_nonspace_spec (s : string) :
  no_space (take_nonspace s) = true /\ String.prefix (take_nonspace s) s = true.
Proof.
  induction s as [|c s [IH1 IH2]]; simpl; [auto|].
  destruct (Js.is_space c) eqn:Hc; simpl; [auto|].
  rewrite Hc, IH1. destruct (ascii_dec c c); [auto | congruence].
Qed.

(** The shape of an address the expression matches. *)
Local Abbreviation is_url :=
  (fun (text url : string) =>
     (Js.startsWith "http://" url = true \/ Js.startsWith "https://" url = true)
     /\ no_space url = true
     /\ contains url text = true).

Lemma match_url_sound (s url : string) :
  match_url s = Some url ->
  (Js.startsWith "http://" url = true \/ Js.startsWith "https://" url = true)
  /\ no_space url = true
  /\ String.prefix url s = true.
Proof.
  assert (H : forall scheme,
             no_space scheme = true ->
             (if String.prefix scheme s
              then if Js.nonempty (take_nonspace (drop (String.length scheme) s))
                   then Some (scheme ++ take_nonspace (drop (String.length scheme) s))
                   else None
              else None) = Some url ->
             Js.startsWith scheme url = true /\ no_space url = true
             /\ String.prefix url s = true).
  { intros scheme Hs. destruct (String.prefix scheme s) eqn:Hp; [|discriminate].
    destruct (Js.nonempty _); [|discriminate]. intros [= <-].
    apply prefix_split in Hp as [rest ->]. rewrite drop_app.
    destruct (take_nonspace_spec rest) as [H1 H2].
    split; [apply prefix_app|]. split; [now rewrite no_space_app, Hs, H1|].
    now rewrite prefix_app_same. }
  unfold match_url.
  destruct (if String.prefix "https://" s then _ else _) as [u|] eqn:E.
  - intros [= <-]. destruct (H "https://" eq_refl E) as (H1 & H2 & H3). auto.
  - intros E'. destruct (H "http://" eq_refl E') as (H1 & H2 & H3). auto.
Qed.

Lemma scan_sound (s : string) :
  forall (skip : nat) (url : string), In url (scan s skip) -> is_url s url.
Proof.
  induction s as [|c s IH]; intros skip url Hin; simpl in Hin; [destruct Hin|].
  assert (Hrest : forall k, In url (scan s k) -> is_url (String c s) url).
  { intros k Hk. destruct (IH k url Hk) as (H1 & H2 & H3).
    split; [exact H1|]. split; [exact H2 | now apply contains_cons]. }
  destruct skip as [|k]; [|now apply (Hrest k)].
  destruct (match_url (String c s)) as [u|] eqn:Hm; [|now apply (Hrest 0)].
  destruct Hin as [<- | Hin]; [|now apply (Hrest (String.length u - 1))].
  destruct (match_url_sound _ _ Hm) as (H1 & H2 & H3).
  split; [exact H1|]. split; [exact H2 | now apply contains_prefix].
Qed.

Lemma startsWith_contains (scheme url text : string) :
  Js.startsWith scheme url = true -> contains url text = true ->
  contains scheme text = true.
Proof.
  intros Hs. apply prefix_split in Hs as [rest ->].
  induction text as [|c text IH]; intros H.
  - destruct scheme; [reflexivity | discriminate H].
  - change (contains (scheme ++ rest) (String c text))
      with (String.prefix (scheme ++ rest) (String c text) || contains (scheme ++ rest) text) in H.
    apply orb_true_iff in H as [H | H].
    + apply contains_prefix. apply prefix_split in H as [r ->].
      rewrite append_assoc. apply prefix_app.
    + apply contains_cons, IH, H.
Qed.

(** X23.  Every address [extractUrls] finds in a text begins with
    [http://] or [https://], holds no white space and occurs in the text.
    A prompt in which an address is found passes the validation of the
    tool; the validation asks for less, it also accepts a prompt that
    holds a bare [http://], in which no address is found. *)
Theorem extracted_urls_are_well_formed (text : string) :
  Forall (fun url =>
            (Js.startsWith "http://" url = true \/ Js.startsWith "https://" url = true)
            /\ no_space url = true
            /\ contains url text = true)
         (extractUrls text)
  /\ (extractUrls text <> [] -> validateToolParamValues text = None)
  /\ (validateToolParamValues "go to http:// now" = None
      /\ extractUrls "go to http:// now" = []).
Proof.
  split; [|split; [|split; reflexivity]].
  - apply List.Forall_forall. intros url Hin. exact (scan_sound text 0 url Hin).
  - intros Hne. destruct (extractUrls text) as [|url urls] eqn:E; [congruence|].
    assert (Hin : In url (scan text 0)) by (unfold extractUrls in E; rewrite E; now left).
    destruct (scan_sound text 0 url Hin) as (Hs & _ & Hc).
    assert (Hscheme : contains "http://" text = true \/ contains "https://" text = true).
    { destruct Hs as [Hs | Hs]; [left | right]; eapply startsWith_contains; eassumption. }
    assert (Hblank : blank text = false).
    { destruct Hscheme as [H | H]; eapply contains_not_blank; try exact H; reflexivity. }
    unfold validateToolParamValues.
    assert (Js.nonempty text = true) as -> by (destruct text; [discriminate Hblank | reflexivity]).
    assert (String.eqb (Js.trim text) "" = false) as ->.
    { apply String.eqb_neq. intros Ht. apply trim_empty in Ht. congruence. }
    simpl. destruct Hscheme as [-> | ->]; [reflexivity | now rewrite andb_false_r].
Qed.

End WebFetchPrompt.

(** ** Paths made short *)

Section ShortPaths.

Import JsText Paths.
Local Open Scope Z_scope.

Lemma replace_prefix (needle by_ rest : string) :
  replace needle by_ (needle ++ rest) = (by_ ++ rest)%string.
Proof.
  assert (Hu : forall s, replace needle by_ s
                         = if String.prefix needle s
                           then (by_ ++ drop (String.length needle) s)%string
                           else match s with
                                | EmptyString => EmptyString
                                | String c r => String c (replace needle by_ r)
                                end) by (intros []; reflexivity).
  now rewrite Hu, prefix_app, drop_app.
Qed.

(** X24.  [tildeifyPath] compares characters, not path segments: the
    home directory at the start of a path is replaced by a tilde whatever
    follows it, also when the path only shares these characters with the
    home directory and lies outside it; a path that does not begin with
    them is returned as it is. *)
Theorem tildeifyPath_replaces_a_prefix (homeDir : string) :
  (forall rest, tildeifyPath homeDir (homeDir ++ rest) = ("~" ++ rest)%string)
  /\ (forall filePath,
        Js.startsWith homeDir filePath = false -> tildeifyPath homeDir filePath = filePath)
  /\ tildeifyPath "/home/al" "/home/alice/notes.txt" = "~ice/notes.txt".
Proof.
  split; [|split; [|reflexivity]].
  - intros rest. unfold tildeifyPath, Js.startsWith.
    now rewrite prefix_app, replace_prefix.
  - intros filePath H. unfold tildeifyPath. now rewrite H.
Qed.

Lemma length_take (n : nat) (s : string) :
  (n <= String.length s)%nat -> String.length (take n s) = n.
Proof.
  revert s. induction n as [|n IH]; intros s H; [reflexivity|].
  destruct s as [|c s]; simpl in *; [lia|]. rewrite IH; lia.
Qed.

Lemma length_drop (n : nat) (s : string) :
  String.length (drop n s) = (String.length s - n)%nat.
Proof.
  revert s. induction n as [|n IH]; intros s; simpl; [lia|].
  destruct s as [|c s]; simpl; [reflexivity | apply IH].
Qed.

Lemma split_sep_no_sep (s : string) : no_sep s = true -> split_sep s = [s].
Proof.
  induction s as [|c s IH]; simpl; [reflexivity|]. intros H.
  apply andb_true_iff in H as [Hc H]. apply negb_true_iff in Hc.
  now rewrite Hc, (IH H).
Qed.

Lemma split_sep_app (a b : string) :
  no_sep a = true -> split_sep (a ++ String sep b) = a :: split_sep b.
Proof.
  induction a as [|c a IH]; intros H; [reflexivity|].
  rewrite append_cons. simpl in *.
  apply andb_true_iff in H as [Hc H]. apply negb_true_iff in Hc.
  now rewrite Hc, (IH H).
Qed.

(** X25.  [shortenPath] does not keep to [maxLen].  A path of one
    segment that is too long is cut to its two ends around an ellipsis,
    which fits when [maxLen] is at least 5.  A path of two segments below
    the root that is too long loses nothing and gains the ellipsis: the
    result is four characters longer than the path. *)
Theorem shortenPath_may_lengthen (maxLen : Z) :
  (forall name : string,
     no_sep name = true -> maxLen < Z.of_nat (String.length name) -> 5 <= maxLen ->
     let keep := Z.to_nat ((maxLen - 3) / 2) in
     shortenPath name maxLen = (take keep name ++ "..." ++ take_last keep name)%string
     /\ Z.of_nat (String.length (shortenPath name maxLen)) = 2 * ((maxLen - 3) / 2) + 3
     /\ maxLen - 1 <= Z.of_nat (String.length (shortenPath name maxLen)) <= maxLen)
  /\ (forall first last : string,
        no_sep first = true -> no_sep last = true -> first <> "" -> last <> "" ->
        let filePath := ("/" ++ first ++ "/" ++ last)%string in
        maxLen < Z.of_nat (String.length filePath) ->
        shortenPath filePath maxLen = ("/" ++ first ++ "/.../" ++ last)%string
        /\ String.length (shortenPath filePath maxLen) = (String.length filePath + 4)%nat).
Proof.
  split.
  - intros name Hsep Hlong Hmax keep.
    assert (Hroot : root_of name = "").
    { destruct name as [|c s]; [reflexivity|]. simpl in Hsep |- *.
      apply andb_true_iff in Hsep as [Hc _]. apply negb_true_iff in Hc. now rewrite Hc. }
    assert (Hq : 1 <= (maxLen - 3) / 2) by (apply Z.div_le_lower_bound; lia).
    assert (Hkeep : Z.to_nat (Z.max ((maxLen - 3) / 2) 1) = keep)
      by (unfold keep; f_equal; now apply Z.max_l).
    assert (Hk : (keep <= String.length name)%nat).
    { unfold keep. apply Nat2Z.inj_le. rewrite Z2Nat.id by lia.
      assert ((maxLen - 3) / 2 <= maxLen) by (apply Z.div_le_upper_bound; lia). lia. }
    assert (Hlen : String.length (take keep name ++ "..." ++ take_last keep name)
                   = (2 * keep + 3)%nat).
    { rewrite !length_append, (length_take keep name Hk). unfold take_last.
      rewrite length_drop. simpl. lia. }
    assert (Hgoal : shortenPath name maxLen
                    = (take keep name ++ "..." ++ take_last keep name)%string).
    { unfold shortenPath. rewrite (proj2 (Z.leb_gt _ _)) by lia.
      rewrite Hroot. change (drop (String.length "") name) with name.
      rewrite (split_sep_no_sep name Hsep), Hkeep. cbn [List.filter].
      destruct (Js.nonempty name); reflexivity. }
    rewrite Hgoal, Hlen. split; [reflexivity|].
    assert (Hz : Z.of_nat (2 * keep + 3) = 2 * ((maxLen - 3) / 2) + 3).
    { unfold keep. rewrite Nat2Z.inj_add, Nat2Z.inj_mul, Z2Nat.id by lia. reflexivity. }
    rewrite Hz. split; [reflexivity|].
    pose proof (Z.div_mod (maxLen - 3) 2 ltac:(lia)) as Hdm.
    pose proof (Z.mod_pos_bound (maxLen - 3) 2 ltac:(lia)) as Hm. lia.
  - intros first last Hf Hl Hfne Hlne filePath Hlong.
    assert (Hsegs : List.filter Js.nonempty (split_sep (first ++ "/" ++ last))
                    = [first; last]).
    { change ("/" ++ last)%string with (String sep last).
      rewrite (split_sep_app first last Hf), (split_sep_no_sep last Hl).
      cbn [List.filter].
      now rewrite !(proj2 (nonempty_true_iff _)) by assumption. }
    assert (Hgoal : shortenPath filePath maxLen = ("/" ++ first ++ "/.../" ++ last)%string).
    { unfold shortenPath. rewrite (proj2 (Z.leb_gt _ _)) by lia.
      change (root_of filePath) with "/".
      change (drop (String.length "/") filePath) with (first ++ "/" ++ last)%string.
      rewrite Hsegs. reflexivity. }
    rewrite Hgoal. split; [reflexivity|].
    unfold filePath. rewrite !length_append. simpl. lia.
Qed.

End ShortPaths.

(** ** Counting occurrences *)

Section Occurrences.

Import JsText GrokToolingSupport.

Lemma count_from_cons (needle : string) (c : ascii) (rest : string) (skip : nat) :
  count_from needle (String c rest) skip
  = match skip with
    | S k => count_from needle rest k
    | O => if String.prefix needle (String c rest)
           then S (count_from needle rest (String.length needle - 1))
           else count_from needle rest 0
    end.
Proof. reflexivity. Qed.

Lemma contains_unfold (needle : string) (c : ascii) (rest : string) :
  contains needle (String c rest)
  = String.prefix needle (String c rest) || contains needle rest.
Proof. reflexivity. Qed.

Lemma count_from_contains (needle haystack : string) :
  forall skip : nat,
    (0 < count_from needle haystack skip)%nat -> contains needle haystack = true.
Proof.
  induction haystack as [|c rest IH]; intros skip H; [simpl in H; lia|].
  rewrite count_from_cons in H. rewrite contains_unfold.
  destruct skip as [|k]; [|rewrite (IH k H); apply orb_true_r].
  destruct (String.prefix needle (String c rest)); [reflexivity|].
  rewrite (IH 0%nat H). reflexivity.
Qed.

Lemma contains_count_from (needle haystack : string) :
  needle <> "" -> contains needle haystack = true ->
  (0 < count_from needle haystack 0)%nat.
Proof.
  intros Hn. induction haystack as [|c rest IH]; intros H.
  - destruct needle; [congruence | discriminate H].
  - rewrite contains_unfold in H. rewrite count_from_cons.
    destruct (String.prefix needle (String c rest)); [lia|].
    simpl in H. now apply IH.
Qed.

Lemma prefix_length (p s : string) :
  String.prefix p s = true -> (String.length p <= String.length s)%nat.
Proof.
  intros H. apply prefix_split in H as [rest ->]. rewrite length_append. lia.
Qed.

Lemma count_from_bound (needle haystack : string) :
  needle <> "" ->
  forall skip : nat,
    (skip <= String.length haystack)%nat ->
    (count_from needle haystack skip * String.length needle + skip
     <= String.length haystack)%nat.
Proof.
  intros Hn. induction haystack as [|c rest IH]; intros skip Hs; [simpl in *; lia|].
  rewrite count_from_cons. change (String.length (String c rest)) with (S (String.length rest)) in *.
  destruct skip as [|k]; [|specialize (IH k); lia].
  destruct (String.prefix needle (String c rest)) eqn:Hp.
  - apply prefix_length in Hp. change (String.length (String c rest)) with (S (String.length rest)) in Hp.
    assert (0 < String.length needle)%nat by (destruct needle; [congruence | simpl; lia]).
    specialize (IH (String.length needle - 1)%nat). nia.
  - specialize (IH 0%nat). lia.
Qed.

(** X26.  The count [resolveOccurrences] falls back on: it is zero
    exactly when the string to replace is empty or does not occur in the
    content, and the occurrences counted do not overlap, so that together
    they are no longer than the content. *)
Theorem occurrences_are_counted_without_overlap (currentContent oldString : string) :
  (countOccurrences currentContent oldString = 0%nat
   <-> oldString = "" \/ contains oldString currentContent = false)
  /\ (countOccurrences currentContent oldString * String.length oldString
      <= String.length currentContent)%nat.
Proof.
  unfold countOccurrences. destruct (Js.nonempty oldString) eqn:Hn; simpl.
  - apply nonempty_true_iff in Hn. split.
    + split.
      * intros H0. right.
        destruct (contains oldString currentContent) eqn:Hc; [|reflexivity].
        pose proof (contains_count_from _ _ Hn Hc). lia.
      * intros [H | H]; [congruence|].
        destruct (count_from oldString currentContent 0) eqn:E; [reflexivity|].
        assert (Hpos : (0 < count_from oldString currentContent 0)%nat) by lia.
        apply count_from_contains in Hpos. congruence.
    + pose proof (count_from_bound oldString currentContent Hn 0%nat ltac:(lia)). lia.
  - assert (oldString = "") as -> by (destruct oldString; [reflexivity | discriminate]).
    split; [tauto|]. simpl; lia.
Qed.

End Occurrences.

(** ** The final response *)

Section FinalResponse.

Import GrokContentGenerator.

(** X27.  The final response made of a result always has a part, at
    least the empty text, and carries the [usage] of the result as its
    usage metadata; making it fails, with a TypeError, exactly when the
    result is undefined or null or its [message.content] is something
    other than an array that counts as true. *)
Theorem final_response_has_a_part (response : Js.value) :
  let fails :=
    response = Js.VUndefined \/ response = Js.VNull
    \/ exists message,
         Js.get response "message" = Some message
         /\ Js.truthy (Js.get_opt message "content") = true
         /\ forall items, Js.get_opt message "content" <> Js.VArr items in
  match toGenerateContentResponse response with
  | inl chunk =>
      (exists parts, chunk = FinalChunk parts (Js.get_opt response "usage") /\ parts <> [])
      /\ ~ fails
  | inr thrown => thrown = ThrowTypeError /\ fails
  end.
Proof.
  intros fails. subst fails. unfold toGenerateContentResponse.
  destruct (Js.get response "message") as [message|] eqn:Hm.
  - assert (Hresp : response <> Js.VUndefined /\ response <> Js.VNull)
      by (split; intros ->; discriminate Hm).
    assert (Hok : forall parts : list PartText,
               (exists parts', FinalChunk
                                 match parts with [] => [PText (Js.VStr "")] | _ => parts end
                                 (Js.get_opt response "usage")
                               = FinalChunk parts' (Js.get_opt response "usage")
                               /\ parts' <> [])).
    { intros parts. eexists. split; [reflexivity|]. destruct parts; discriminate. }
    assert (Hbad : Js.truthy (Js.get_opt message "content") = true ->
                   (forall items, Js.get_opt message "content" <> Js.VArr items) ->
                   response = Js.VUndefined \/ response = Js.VNull
                   \/ exists m, Some message = Some m
                        /\ Js.truthy (Js.get_opt m "content") = true
                        /\ forall items, Js.get_opt m "content" <> Js.VArr items).
    { intros Ht Harr. right; right. exists message. auto. }
    assert (Hgood : Js.truthy (Js.get_opt message "content") = false
                    \/ (exists items, Js.get_opt message "content" = Js.VArr items) ->
                    ~ (response = Js.VUndefined \/ response = Js.VNull
                       \/ exists m, Some message = Some m
                            /\ Js.truthy (Js.get_opt m "content") = true
                            /\ forall items, Js.get_opt m "content" <> Js.VArr items)).
    { intros Hg [-> | [-> | (m & [= <-] & Ht' & Harr)]]; try (now destruct Hresp).
      destruct Hg as [Hf | [items Hi]]; [congruence | now apply (Harr items)]. }
    unfold Js.or_else.
    destruct (Js.truthy (Js.get_opt message "content")) eqn:Ht.
    + destruct (Js.get_opt message "content") as [| | b | n | s | items | fields] eqn:Hc;
        try (split; [reflexivity | apply Hbad; [reflexivity | discriminate]]).
      split; [apply Hok | apply Hgood; eauto].
    + split; [apply (Hok []) | apply Hgood; auto].
  - split; [reflexivity|]. destruct response; try discriminate; auto.
Qed.

End FinalResponse.
